(** * B-Tree (src/datastructures/b_tree.py): a shallow embedding and its properties

    The Python module keeps a tree of [BTreeNode] objects, each with a list of
    keys and a list of children, and a [BTree] object with an [order] and a
    [root].  Nodes are owned by exactly one parent, so the object graph
    reachable from the root is a tree and is modelled by an inductive type.

    Mutation in place is modelled by rebuilding.  The two repair passes walk a
    recorded [path] backwards; every node of that path is an alias of a node of
    the tree, and a write to it is seen from the root.  In the model the nodes
    of a path are the values read during the descent: the entry of a node is
    out of date only in the child slot the path goes through, and [plug] puts
    the current node back in that slot, which is how the model reads the
    object graph from the root again.

    Keys are Python integers ([Z]); an argument that may be [None] is an
    [option Z].  Exceptions are values of [exn].  A method that mutates
    returns the tree it leaves behind together with the exception raised, if
    any. *)

From Stdlib Require Import ZArith List Lia Sorted.
From stdpp Require Import base list sorting sets.
Import ListNotations.

Open Scope Z_scope.

(** ** Python lists *)

Module Py.

(** Index [i] of a slice bound, clipped as Python clips it: a negative
    bound counts from the end. *)
Definition clip (len : nat) (i : Z) : nat :=
  if i <? 0 then Z.to_nat (Z.of_nat len + i) else Z.to_nat i.

(** [l[:i]] *)
Definition slice_to {A} (l : list A) (i : Z) : list A :=
  take (clip (length l) i) l.

(** [l[i:]] *)
Definition slice_from {A} (l : list A) (i : Z) : list A :=
  drop (clip (length l) i) l.

(** [l[i]]; [None] stands for IndexError. *)
Definition get {A} (l : list A) (i : Z) : option A :=
  if i <? 0
  then (if Z.of_nat (length l) + i <? 0 then None
        else l !! Z.to_nat (Z.of_nat (length l) + i))
  else l !! Z.to_nat i.

(** [l.insert(i, x)] for [i >= 0]: an index past the end appends. *)
Definition insert {A} (i : nat) (x : A) (l : list A) : list A :=
  take i l ++ x :: drop i l.

End Py.

(** ** Nodes and trees *)

#[local] Unset Elimination Schemes.
Inductive BTreeNode : Type :=
| Node (keys : list Z) (children : list BTreeNode).
#[local] Set Elimination Schemes.

Definition keys (n : BTreeNode) : list Z :=
  match n with Node ks _ => ks end.

Definition children (n : BTreeNode) : list BTreeNode :=
  match n with Node _ cs => cs end.

Record BTree : Type := mkBTree { order : Z; root : option BTreeNode }.

Inductive ValueErrorMsg : Type :=
| NoneKey                      (* "Attempted to search for / insert / remove key `None`" *)
| NonExistingKey (key : Z).    (* "Attempted to remove a non-existing key `{key}`" *)

Inductive exn : Type :=
| ValueError (msg : ValueErrorMsg)
| IndexError
| UnboundLocalError.

Inductive outcome (A : Type) : Type :=
| Ok (a : A)
| Raise (e : exn).
Arguments Ok {A} a.
Arguments Raise {A} e.

Definition is_leaf (n : BTreeNode) : bool :=
  match children n with [] => true | _ => false end.

Definition is_internal (n : BTreeNode) : bool := negb (is_leaf n).

Definition insert_key (idx : nat) (key : Z) (n : BTreeNode) : BTreeNode :=
  Node (Py.insert idx key (keys n)) (children n).

(** The inner loop shared by search, insert and remove:
    [while idx < len(keys) and target > keys[idx]: idx += 1]. *)
Fixpoint scan (target : Z) (ks : list Z) : nat :=
  match ks with
  | [] => 0%nat
  | k :: ks' => if target >? k then S (scan target ks') else 0%nat
  end.

(** ** Traversal *)

(** The loop of [BTreeNode.traverse_inorder] over [enumerate(self.keys)], from
    index [i] on; [subs] holds the traversals of the children, taken on
    demand by index, and the last line of the method reads [children[-1]]. *)
Fixpoint visit (subs : list (outcome (list Z))) (i : nat) (ks : list Z)
  : outcome (list Z) :=
  match ks with
  | [] =>
      match subs with
      | [] => Ok []
      | _ => match last subs with Some r => r | None => Raise IndexError end
      end
  | c :: ks' =>
      match subs with
      | [] =>
          match visit subs (S i) ks' with
          | Ok l => Ok (c :: l)
          | Raise e => Raise e
          end
      | _ =>
          match subs !! i with
          | None => Raise IndexError
          | Some (Raise e) => Raise e
          | Some (Ok l1) =>
              match visit subs (S i) ks' with
              | Ok l2 => Ok (l1 ++ c :: l2)
              | Raise e => Raise e
              end
          end
      end
  end.

Fixpoint node_traverse_inorder (n : BTreeNode) : outcome (list Z) :=
  match n with
  | Node ks cs => visit (map node_traverse_inorder cs) 0 ks
  end.

Definition traverse_inorder (t : BTree) : outcome (list Z) :=
  match root t with
  | Some r => node_traverse_inorder r
  | None => Ok []
  end.

(** ** Search *)

Fixpoint node_search (target : Z) (n : BTreeNode) : outcome (option BTreeNode) :=
  match n with
  | Node ks cs =>
      let curr_key_idx := scan target ks in
      match ks !! curr_key_idx with
      | Some k =>
          if target =? k then Ok (Some n)
          else match map (node_search target) cs !! curr_key_idx with
               | Some r => r
               | None => Raise IndexError
               end
      | None =>
          match map (node_search target) cs !! curr_key_idx with
          | Some r => r
          | None => Raise IndexError
          end
      end
  end.

Definition search (t : BTree) (target : option Z) : outcome (option BTreeNode) :=
  match target with
  | None => Raise (ValueError NoneKey)
  | Some target =>
      match root t with
      | None => Ok None
      | Some r => node_search target r
      end
  end.

(** ** Paths *)

(** A path entry seen from below: a node and the index of the child slot the
    path goes through. *)
Abbreviation frame := (BTreeNode * nat)%type.

Definition plug1 (c : BTreeNode) (f : frame) : BTreeNode :=
  Node (keys f.1) (<[f.2 := c]> (children f.1)).

(** The root as the object graph has it, for a current node [c] and the
    entries above it, nearest first. *)
Definition plug (above : list frame) (c : BTreeNode) : BTreeNode :=
  fold_left plug1 above c.

(** ** Insertion *)

(** The descent of [insert]: the list [path] of (node, chosen index), root
    first, leaf last. *)
Fixpoint insert_descend (key : Z) (n : BTreeNode) : outcome (list frame) :=
  match n with
  | Node ks cs =>
      let curr_key_idx := scan key ks in
      match cs with
      | [] => Ok [(n, curr_key_idx)]
      | _ =>
          match map (insert_descend key) cs !! curr_key_idx with
          | None => Raise IndexError
          | Some (Raise e) => Raise e
          | Some (Ok path) => Ok ((n, curr_key_idx) :: path)
          end
      end
  end.

(** The loop of [_fix_insert], at the node [curr] with the path entries
    [above] it, nearest first.  Returns the root. *)
Fixpoint fix_insert_loop (order : Z) (curr : BTreeNode) (above : list frame)
  : BTreeNode * option exn :=
  if Z.of_nat (length (keys curr)) <=? order - 1 then (plug above curr, None)
  else
    let mid_key_idx := (order - 1) / 2 in
    let left_node :=
      Node (Py.slice_to (keys curr) mid_key_idx)
           (Py.slice_to (children curr) (mid_key_idx + 1)) in
    let right_node :=
      Node (Py.slice_from (keys curr) (mid_key_idx + 1))
           (Py.slice_from (children curr) (mid_key_idx + 1)) in
    match Py.get (keys curr) mid_key_idx with
    | None => (plug above curr, Some IndexError)
    | Some mid_key =>
        match above with
        | [] => (Node [mid_key] [left_node; right_node], None)
        | (parent, idx_node_as_child) :: above' =>
            let keys' := Py.insert idx_node_as_child mid_key (keys parent) in
            if (idx_node_as_child <? length (children parent))%nat then
              fix_insert_loop order
                (Node keys'
                   (Py.insert (S idx_node_as_child) right_node
                      (<[idx_node_as_child := left_node]> (children parent))))
                above'
            else (plug above' (Node keys' (children parent)), Some IndexError)
        end
    end.

(** [_fix_insert(path)], with [path] root first as [insert] builds it and its
    last node already holding the new key. *)
Definition _fix_insert (t : BTree) (path : list frame) : BTree * option exn :=
  match rev path with
  | [] => (t, None)
  | (curr, _) :: above =>
      let (r, e) := fix_insert_loop (order t) curr above in
      (mkBTree (order t) (Some r), e)
  end.

Definition insert (t : BTree) (key : option Z) : BTree * option exn :=
  match key with
  | None => (t, Some (ValueError NoneKey))
  | Some key =>
      match root t with
      | None => (mkBTree (order t) (Some (Node [key] [])), None)
      | Some r =>
          match insert_descend key r with
          | Raise e => (t, Some e)
          | Ok path =>
              match rev path with
              | [] => (t, Some IndexError)
              | (leaf, leaf_key_idx) :: above =>
                  _fix_insert t
                    (rev above ++ [(insert_key leaf_key_idx key leaf, leaf_key_idx)])
              end
          end
      end
  end.

(** ** Removal *)

(** The descent of [remove] from the node [n]: the entries (node, index in its
    parent) appended to [path] after the entry of [n], and
    [target_node_key_idx]; [None] when the loop ends at a leaf with
    [target_node = None]. *)
Fixpoint remove_descend (key : Z) (n : BTreeNode)
  : outcome (option (list frame * nat)) :=
  match n with
  | Node ks cs =>
      let target_node_key_idx := scan key ks in
      let down :=
        match cs with
        | [] => Ok None
        | _ =>
            match map (fun c => (c, remove_descend key c)) cs
                    !! target_node_key_idx with
            | None => Raise IndexError
            | Some (_, Raise e) => Raise e
            | Some (_, Ok None) => Ok None
            | Some (c, Ok (Some (path, i))) =>
                Ok (Some ((c, target_node_key_idx) :: path, i))
            end
        end in
      match ks !! target_node_key_idx with
      | Some k => if key =? k then Ok (Some ([], target_node_key_idx)) else down
      | None => down
      end
  end.

(** Reading a [remove] path from its end: the last node, and for every node
    above it the pair (node, index of the child slot the path takes), nearest
    first.  [parent] is the node of the entry before [entries]. *)
Fixpoint zip_up (parent : BTreeNode) (entries : list frame) (above : list frame)
  : BTreeNode * list frame :=
  match entries with
  | [] => (parent, above)
  | (n, i) :: rest => zip_up n rest ((parent, i) :: above)
  end.

(** [while leaf.is_internal(): leaf = leaf.children[0]; path.append((leaf, 0))] *)
Fixpoint leftmost (leaf : BTreeNode) (above : list frame) : BTreeNode * list frame :=
  match leaf with
  | Node _ [] => (leaf, above)
  | Node _ (c :: _) => leftmost c ((leaf, 0%nat) :: above)
  end.

(** [_is_node_underflowing(node)] and [_is_node_populous(node)]; [is_root]
    is the test [node is self.root]. *)
Definition _is_node_underflowing (order : Z) (is_root : bool) (n : BTreeNode) : bool :=
  if is_root then false
  else Z.of_nat (length (keys n)) <? (order - 1) / 2.

Definition _is_node_populous (order : Z) (is_root : bool) (n : BTreeNode) : bool :=
  if is_root then false
  else Z.of_nat (length (keys n)) >=? (order - 1) / 2 + 1.

(** The redistribution between two adjacent siblings [l] and [r] around the
    separator [sep]: the new left node, separator and right node.
    [merged_keys] is never empty, so [merged_keys[merged_keys_mid_idx]] is
    always in range. *)
Definition redistribute (l : BTreeNode) (sep : Z) (r : BTreeNode)
  : BTreeNode * Z * BTreeNode :=
  let merged_keys := keys l ++ [sep] ++ keys r in
  let merged_children := children l ++ children r in
  let merged_keys_mid_idx := (length merged_keys / 2)%nat in
  (Node (take merged_keys_mid_idx merged_keys)
        (take (S merged_keys_mid_idx) merged_children),
   nth merged_keys_mid_idx merged_keys sep,
   Node (drop (S merged_keys_mid_idx) merged_keys)
        (drop (S merged_keys_mid_idx) merged_children)).

(** [merged_node.keys.append(sep); merged_node.keys.extend(other.keys);
    merged_node.children.extend(other.children)] *)
Definition absorb (merged_node : BTreeNode) (sep : Z) (other : BTreeNode) : BTreeNode :=
  Node (keys merged_node ++ [sep] ++ keys other)
       (children merged_node ++ children other).

(** What the local variable [left_sibling] holds when the merge reads it:
    nothing yet, the left sibling of this iteration, or (for a first child)
    the node an earlier iteration left in it. *)
Inductive left_var : Type :=
| Unbound
| Stale
| Fresh (left_sibling : BTreeNode).

Inductive step : Type :=
| Done (root : BTreeNode) (e : option exn)
| Up (parent : BTreeNode) (left_bound : bool).

(** The last part of an iteration of [_fix_remove]: no sibling was populous. *)
Definition merge_step (curr parent : BTreeNode) (i : nat) (above' : list frame)
    (left_sibling : left_var) (right_sibling : option BTreeNode) : step :=
  let pks := keys parent in
  let pcs := children parent in
  if (S i =? length pcs)%nat then
    match left_sibling with
    | Unbound => Done (plug ((parent, i) :: above') curr) (Some UnboundLocalError)
    | Stale =>
        (* only for [i = 0]: [pop(-1)] takes the last key, and the nodes
           written to are no longer reachable from the root *)
        match pks with
        | [] => Done (plug above' (Node pks (delete i pcs))) (Some IndexError)
        | _ => Up (Node (removelast pks) (delete i pcs)) true
        end
    | Fresh l =>
        match pks !! (i - 1)%nat with
        | None => Done (plug above' (Node pks (delete i pcs))) (Some IndexError)
        | Some sep =>
            Up (Node (delete (i - 1)%nat pks)
                     (<[(i - 1)%nat := absorb l sep curr]> (delete i pcs))) true
        end
    end
  else
    match right_sibling with
    | None => Done (plug ((parent, i) :: above') curr) (Some UnboundLocalError)
    | Some r =>
        match pks !! i with
        | None =>
            Done (plug above' (Node pks (delete (S i) (<[i := curr]> pcs))))
                 (Some IndexError)
        | Some sep =>
            Up (Node (delete i pks)
                     (<[i := absorb curr sep r]> (delete (S i) pcs)))
               (match left_sibling with Unbound => false | _ => true end)
        end
    end.

(** The part of an iteration that looks at the right sibling. *)
Definition right_step (order : Z) (curr parent : BTreeNode) (i : nat)
    (above' : list frame) (left_sibling : left_var) : step :=
  let pks := keys parent in
  let pcs := children parent in
  if negb (S i =? length pcs)%nat then
    match pcs !! S i with
    | None => Done (plug ((parent, i) :: above') curr) (Some IndexError)
    | Some right_sibling =>
        if _is_node_populous order false right_sibling then
          match pks !! i with
          | None => Done (plug ((parent, i) :: above') curr) (Some IndexError)
          | Some sep =>
              let '(curr', k, right') := redistribute curr sep right_sibling in
              Done (plug above'
                      (Node (<[i := k]> pks)
                            (<[S i := right']> (<[i := curr']> pcs))))
                   None
          end
        else merge_step curr parent i above' left_sibling (Some right_sibling)
    end
  else merge_step curr parent i above' left_sibling None.

(** One iteration of [_fix_remove] at a node that is not the root and
    underflows. *)
Definition fix_remove_step (order : Z) (left_bound : bool)
    (curr parent : BTreeNode) (i : nat) (above' : list frame) : step :=
  let pks := keys parent in
  let pcs := children parent in
  match i with
  | S i' =>
      match pcs !! i' with
      | None => Done (plug ((parent, i) :: above') curr) (Some IndexError)
      | Some left_sibling =>
          if _is_node_populous order false left_sibling then
            match pks !! i' with
            | None => Done (plug ((parent, i) :: above') curr) (Some IndexError)
            | Some sep =>
                let '(left', k, curr') := redistribute left_sibling sep curr in
                Done (plug above'
                        (Node (<[i' := k]> pks)
                              (<[i' := left']> (<[i := curr']> pcs))))
                     None
            end
          else right_step order curr parent i above' (Fresh left_sibling)
      end
  | O =>
      right_step order curr parent i above'
        (if left_bound then Stale else Unbound)
  end.

(** The loop of [_fix_remove], at the node [curr] with the entries [above] it,
    nearest first; [curr] is [self.root] exactly when nothing is above it.
    Returns the root. *)
Fixpoint fix_remove_loop (order : Z) (left_bound : bool) (curr : BTreeNode)
    (above : list frame) : BTreeNode * option exn :=
  match above with
  | [] =>
      match children curr with
      | [c] => (c, None)
      | _ => (curr, None)
      end
  | (parent, i) :: above' =>
      if negb (_is_node_underflowing order false curr) then (plug above curr, None)
      else
        match fix_remove_step order left_bound curr parent i above' with
        | Done r e => (r, e)
        | Up parent' left_bound' => fix_remove_loop order left_bound' parent' above'
        end
  end.

Definition _fix_remove (t : BTree) (curr : BTreeNode) (above : list frame)
  : BTree * option exn :=
  let (r, e) := fix_remove_loop (order t) false curr above in
  (mkBTree (order t) (Some r), e).

Definition remove (t : BTree) (key : option Z) : BTree * option exn :=
  match key with
  | None => (t, Some (ValueError NoneKey))
  | Some key =>
      match root t with
      | None => (t, Some (ValueError (NonExistingKey key)))
      | Some r =>
          match remove_descend key r with
          | Raise e => (t, Some e)
          | Ok None => (t, Some (ValueError (NonExistingKey key)))
          | Ok (Some (path, target_node_key_idx)) =>
              let (target_node, above) := zip_up r path [] in
              match children target_node with
              | [] =>
                  _fix_remove t
                    (Node (delete target_node_key_idx (keys target_node)) [])
                    above
              | _ =>
                  match children target_node !! S target_node_key_idx with
                  | None => (t, Some IndexError)
                  | Some child =>
                      let (leaf, below) := leftmost child [] in
                      match keys leaf with
                      | [] => (t, Some IndexError)
                      | successor :: ks' =>
                          _fix_remove t (Node ks' (children leaf))
                            (below ++
                             (Node (<[target_node_key_idx := successor]>
                                      (keys target_node))
                                   (children target_node),
                              S target_node_key_idx) :: above)
                      end
                  end
              end
          end
      end
  end.


(** ** Reading a tree: in-order key list, all keys, well-formedness *)

(** Keys [ks] interleaved with the key lists [subs] of the children: the
    order in which [traverse_inorder] yields them when the node has one more
    child than keys, and [ks] itself for a leaf. *)
Fixpoint weave (ks : list Z) (subs : list (list Z)) {struct subs} : list Z :=
  match subs with
  | [] => ks
  | s :: subs' =>
      s ++ match ks with
           | [] => []
           | k :: ks' => k :: weave ks' subs'
           end
  end.

Fixpoint inorder (n : BTreeNode) : list Z :=
  match n with
  | Node ks cs => weave ks (map inorder cs)
  end.

(** Every key stored in a node of the tree, reachable by traversal or not. *)
Fixpoint all_keys (n : BTreeNode) : list Z :=
  match n with
  | Node ks cs => ks ++ concat (map all_keys cs)
  end.

(** Every node of the tree. *)
Fixpoint nodes (n : BTreeNode) : list BTreeNode :=
  match n with
  | Node ks cs => n :: concat (map nodes cs)
  end.

(** Minimum number of keys of a node that is not the root. *)
Definition min_keys (order : Z) : nat := Z.to_nat ((order - 1) / 2).

(** A subtree of height [h] whose top node has at least [lo] keys and whose
    other nodes have at least [m]: leaves are all at depth [h], and an
    internal node has one more child than keys. *)
Fixpoint wf (m lo h : nat) (n : BTreeNode) : Prop :=
  (lo ≤ length (keys n))%nat ∧
  match h with
  | O => children n = []
  | S h' =>
      length (children n) = S (length (keys n)) ∧
      Forall (wf m m h') (children n)
  end.

(** The root may hold fewer keys than [m], but at least one when it has
    children. *)
Definition wf_root (m h : nat) (r : BTreeNode) : Prop :=
  wf m (Nat.min 1 h) h r.

(** The invariant of a tree: shape, balance, occupancy and key order. *)
Definition btree_inv (t : BTree) : Prop :=
  match root t with
  | None => True
  | Some r =>
      (∃ h, wf_root (min_keys (order t)) h r) ∧ StronglySorted Z.lt (inorder r)
  end.

(** The keys of a tree in ascending order, as a plain list. *)
Definition tree_keys (t : BTree) : list Z :=
  match root t with
  | None => []
  | Some r => inorder r
  end.

(** Entries above a hole of height [h]: each is a well-formed node one level
    higher than the one below, the topmost with at least [lo] keys. *)
Fixpoint frames_ok (m lo h : nat) (above : list frame) : Prop :=
  match above with
  | [] => True
  | (p, i) :: rest =>
      wf m (match rest with [] => lo | _ => m end) (S h) p ∧
      (i < length (children p))%nat ∧
      frames_ok m lo (S h) rest
  end.

(** Keys before and after child slot [i] of a node, in traversal order. *)
Fixpoint weaveL (ks : list Z) (subs : list (list Z)) : list Z :=
  match ks, subs with
  | k :: ks', s :: subs' => s ++ k :: weaveL ks' subs'
  | _, _ => []
  end.

Fixpoint weaveR (ks : list Z) (subs : list (list Z)) : list Z :=
  match ks, subs with
  | k :: ks', s :: subs' => k :: s ++ weaveR ks' subs'
  | _, _ => []
  end.

Definition before (f : frame) : list Z :=
  weaveL (take f.2 (keys f.1)) (take f.2 (map inorder (children f.1))).

Definition after (f : frame) : list Z :=
  weaveR (drop f.2 (keys f.1)) (drop (S f.2) (map inorder (children f.1))).

(** Keys to the left and to the right of the hole of a path. *)
Fixpoint left_of (above : list frame) : list Z :=
  match above with
  | [] => []
  | f :: rest => left_of rest ++ before f
  end.

Fixpoint right_of (above : list frame) : list Z :=
  match above with
  | [] => []
  | f :: rest => after f ++ right_of rest
  end.

(** ** The repair pass of [remove], one iteration *)

(** The result of one iteration of [_fix_remove] at the child slot [i] of
    [p]: the parent it leaves reads as before, and either the walk stops with
    a parent that kept its key count, or it goes up with one key less. *)
Definition step_ok (m lo h : nat) (p : BTreeNode) (i : nat)
    (rest : list frame) (curr : BTreeNode) (s : step) : Prop :=
  match s with
  | Done r e =>
      ∃ p', r = plug rest p' ∧ e = None ∧ wf m lo (S h) p' ∧
            inorder p' = before (p, i) ++ inorder curr ++ after (p, i)
  | Up p' _ =>
      wf m (lo - 1) (S h) p' ∧
      inorder p' = before (p, i) ++ inorder curr ++ after (p, i)
  end.

(** ** Sequences of calls *)

Inductive op : Type :=
| Insert (key : Z)
| Remove (key : Z).

Definition call (t : BTree) (o : op) : BTree * option exn :=
  match o with
  | Insert key => insert t (Some key)
  | Remove key => remove t (Some key)
  end.

(** The calls of [ops] one after the other, up to the first exception. *)
Fixpoint run (t : BTree) (ops : list op) : BTree * option exn :=
  match ops with
  | [] => (t, None)
  | o :: ops' =>
      match call t o with
      | (t', None) => run t' ops'
      | (t', Some e) => (t', Some e)
      end
  end.

(** The set of keys a sequence of calls leaves, from the set [s]. *)
Definition key_set_after (s : list Z) (o : op) : list Z :=
  match o with
  | Insert key => key :: s
  | Remove key => filter (λ x, x ≠ key) s
  end.

(** Every inserted key is new and every removed key is there. *)
Fixpoint valid_ops (s : list Z) (ops : list op) : bool :=
  match ops with
  | [] => true
  | o :: ops' =>
      match o with
      | Insert key => bool_decide (key ∉ s)
      | Remove key => bool_decide (key ∈ s)
      end && valid_ops (key_set_after s o) ops'
  end.

Definition final_key_set (ops : list op) : list Z :=
  fold_left key_set_after ops [].

(** Nodes below the root. *)
Definition non_root_nodes (t : BTree) : list BTreeNode :=
  match root t with
  | None => []
  | Some r => concat (map nodes (children r))
  end.

(** ** Checking a tree *)

Fixpoint height (n : BTreeNode) : nat :=
  match n with
  | Node _ [] => 0%nat
  | Node _ (c :: _) => S (height c)
  end.

(** [wf] as a test. *)
Fixpoint wfb (m lo h : nat) (n : BTreeNode) : bool :=
  (lo <=? length (keys n))%nat &&
  match h with
  | O => match children n with [] => true | _ => false end
  | S h' =>
      (length (children n) =? S (length (keys n)))%nat &&
      forallb (wfb m m h') (children n)
  end.

Fixpoint ascending (l : list Z) : bool :=
  match l with
  | [] => true
  | x :: l' =>
      match l' with
      | [] => true
      | y :: _ => (x <? y) && ascending l'
      end
  end.

(** [btree_inv] for an order of at least 3, as a test. *)
Definition btree_ok (t : BTree) : bool :=
  (3 <=? order t) &&
  match root t with
  | None => true
  | Some r =>
      wfb (min_keys (order t)) (Nat.min 1 (height r)) (height r) r &&
      ascending (inorder r)
  end.

(** Every internal node has a child for each index the inner loop can
    return. *)
Fixpoint shaped (n : BTreeNode) : bool :=
  match n with
  | Node ks cs =>
      match cs with
      | [] => true
      | _ => (length ks <? length cs)%nat
      end && forallb shaped cs
  end.

Definition tree_shaped (t : BTree) : bool :=
  match root t with
  | None => true
  | Some r => shaped r
  end.

Definition tree_all_keys (t : BTree) : list Z :=
  match root t with
  | None => []
  | Some r => all_keys r
  end.

Definition tree_nodes (t : BTree) : list BTreeNode :=
  match root t with
  | None => []
  | Some r => nodes r
  end.

(** ** The split, in the words of the specification *)

(** Keys [[0, mid)] and children [[0, mid]]. *)
Definition split_left (mid : nat) (n : BTreeNode) : BTreeNode :=
  Node (take mid (keys n)) (take (S mid) (children n)).

(** Keys [[mid+1, end)] and children [[mid+1, end]]. *)
Definition split_right (mid : nat) (n : BTreeNode) : BTreeNode :=
  Node (drop (S mid) (keys n)) (drop (S mid) (children n)).

(** The parent with [k] promoted at index [i], slot [i] replaced by [l] and
    [r] put in a new slot right after it. *)
Definition promote_into (parent : BTreeNode) (i : nat)
    (l : BTreeNode) (k : Z) (r : BTreeNode) : BTreeNode :=
  Node (take i (keys parent) ++ k :: drop i (keys parent))
       (take i (children parent) ++ l :: r :: drop (S i) (children parent)).

(** ** The successor swap, in the words of the specification *)

(** The leaf reached by going into the leftmost child until a leaf. *)
Fixpoint leftmost_leaf (n : BTreeNode) : BTreeNode :=
  match n with
  | Node _ [] => n
  | Node _ (c :: _) => leftmost_leaf c
  end.

(** The subtree with the first key of that leaf deleted. *)
Fixpoint delete_first_key (n : BTreeNode) : BTreeNode :=
  match n with
  | Node ks [] => Node (tail ks) []
  | Node ks (c :: cs) => Node ks (delete_first_key c :: cs)
  end.

(** ** The merge, in the words of the specification *)

(** The parent after a merge that prefers the left sibling: with the left
    sibling when there is one, otherwise with the right one. *)
Definition merge_left_preferred (curr parent : BTreeNode) (i : nat)
  : option BTreeNode :=
  match i with
  | S i' =>
      match children parent !! i', keys parent !! i' with
      | Some l, Some sep =>
          Some (Node (delete i' (keys parent))
                     (<[i' := absorb l sep curr]> (delete i (children parent))))
      | _, _ => None
      end
  | O =>
      match children parent !! 1%nat, keys parent !! 0%nat with
      | Some r, Some sep =>
          Some (Node (delete 0%nat (keys parent))
                     (<[0%nat := absorb curr sep r]>
                        (delete 1%nat (children parent))))
      | _, _ => None
      end
  end.

(** ** Sizes and heights *)

(** Maximum number of keys of a node. *)
Definition max_keys (order : Z) : nat := Z.to_nat (order - 1).

(** Every node of the subtree has at most [u] keys. *)
Fixpoint capped (u : nat) (n : BTreeNode) : bool :=
  match n with
  | Node ks cs => (length ks <=? u)%nat && forallb (capped u) cs
  end.

Definition tree_capped (t : BTree) : bool :=
  match root t with
  | None => true
  | Some r => capped (max_keys (order t)) r
  end.

(** A path entry whose node has at most [u] keys, as have the nodes under
    its children other than the one the path goes through. *)
Definition frame_capped (u : nat) (f : frame) : Prop :=
  (length (keys f.1) ≤ u)%nat ∧
  ∀ j c, j ≠ f.2 → children f.1 !! j = Some c → capped u c = true.

Definition tree_height (t : BTree) : nat :=
  match root t with
  | None => 0%nat
  | Some r => height r
  end.

(** Shape, balance and occupancy of a tree, as a test: [btree_ok] without
    the order of the keys. *)
Definition tree_balanced (t : BTree) : bool :=
  (3 <=? order t) &&
  match root t with
  | None => true
  | Some r => wfb (min_keys (order t)) (Nat.min 1 (height r)) (height r) r
  end.

(** ** The assertions of the test suite (test/datastructures/test_b_tree.py)

    Each is [true] when the call returns and [false] when it raises. *)

(** [_BTreeAssert.assert_count_keys_and_children(node, tree)], with the
    order of [tree]. *)
Fixpoint assert_count_keys_and_children (order : Z) (node : BTreeNode) : bool :=
  match node with
  | Node ks cs =>
      (Z.of_nat (length ks) <? order) &&
      (Z.of_nat (length cs) <=? order) &&
      match cs with
      | [] => true
      | _ => Z.of_nat (length cs) - Z.of_nat (length ks) =? 1
      end &&
      forallb (assert_count_keys_and_children order) cs
  end.

(** The inner function of [assert_leaves_level_equal]. *)
Fixpoint visit_leaf_and_assert_depth (n : BTreeNode)
    (n_depth target_leaf_depth : nat) : bool :=
  match n with
  | Node _ [] => (n_depth =? target_leaf_depth)%nat
  | Node _ cs =>
      forallb (λ c, visit_leaf_and_assert_depth c (S n_depth) target_leaf_depth)
        cs
  end.

(** [_BTreeAssert.assert_leaves_level_equal(node)]: the depth of the
    left-most leaf is [height node]. *)
Definition assert_leaves_level_equal (node : BTreeNode) : bool :=
  visit_leaf_and_assert_depth node 0 (height node).

(** The value of a bound as [if lower:] reads it: [None] and [0] are
    false. *)
Definition truthy (bound : option Z) : option Z :=
  match bound with
  | Some 0 => None
  | _ => bound
  end.

(** The first loop of [assert_descandants_keys_range], over
    [enumerate(node.keys)]; [prev] is [node.keys[key_idx - 1]]. *)
Fixpoint keys_in_range (prev lower upper : option Z) (ks : list Z) : bool :=
  match ks with
  | [] => true
  | key :: ks' =>
      match prev with Some p => p <=? key | None => true end &&
      match truthy lower with Some l => key >=? l | None => true end &&
      match truthy upper with Some u => key <=? u | None => true end &&
      keys_in_range (Some key) lower upper ks'
  end.

(** [_BTreeAssert.assert_descandants_keys_range(node, lower, upper)]. *)
Fixpoint assert_descandants_keys_range (node : BTreeNode)
    (lower upper : option Z) {struct node} : bool :=
  match node with
  | Node ks cs =>
      keys_in_range None lower upper ks &&
      forallb
        (λ idx_child,
           match map assert_descandants_keys_range cs !! idx_child with
           | None => false
           | Some check_child =>
               let child_subtree_max :=
                 match ks !! idx_child with
                 | Some k => Some k
                 | None => upper
                 end in
               if (1 <? idx_child)%nat then
                 match ks !! (idx_child - 1)%nat with
                 | None => false
                 | Some k => check_child (Some k) child_subtree_max
                 end
               else check_child lower child_subtree_max
           end)
        (seq 0 (length cs))
  end.

(** The first loop of [assert_ordered_keys], over [range(1, len(node.keys))]. *)
Fixpoint nondecreasing (ks : list Z) : bool :=
  match ks with
  | [] => true
  | x :: ks' =>
      match ks' with
      | [] => true
      | y :: _ => (y >=? x) && nondecreasing ks'
      end
  end.

(** [_BTreeAssert.assert_ordered_keys(node)]. *)
Fixpoint assert_ordered_keys (node : BTreeNode) : bool :=
  match node with
  | Node ks cs => nondecreasing ks && forallb assert_ordered_keys cs
  end.

(** [_BTreeAssert.assert_btree_properties(tree)]; without a root the first
    assertion reads [None.keys] and raises AttributeError. *)
Definition assert_btree_properties (tree : BTree) : bool :=
  match root tree with
  | None => false
  | Some r =>
      assert_ordered_keys r &&
      assert_count_keys_and_children (order tree) r &&
      assert_descandants_keys_range r None None &&
      assert_leaves_level_equal r
  end.

(** ** The repair pass of [remove] and the maximum *)

(** The result of one iteration of [_fix_remove] when no node had more than
    [u] keys: where it returns or goes up, the parent still has none. *)
Definition step_capped (u : nat) (rest : list frame) (s : step) : Prop :=
  match s with
  | Done r None => ∃ p', r = plug rest p' ∧ capped u p' = true
  | Done _ (Some _) => True
  | Up p' _ => capped u p' = true
  end.

(** ** Paths in a tree of the data model *)

(** A path entry of a tree whose internal nodes have more children than
    keys: the slot the path goes through exists, and the nodes under the
    other slots are of that kind. *)
Definition frame_shaped (f : frame) : Prop :=
  (f.2 < length (children f.1))%nat ∧
  (length (keys f.1) < length (children f.1))%nat ∧
  ∀ j c, j ≠ f.2 → children f.1 !! j = Some c → shaped c = true.

(** ** Induction on nodes *)

Fixpoint BTreeNode_ind (P : BTreeNode → Prop)
    (IH : ∀ ks cs, Forall P cs → P (Node ks cs)) (n : BTreeNode) : P n :=
  match n with
  | Node ks cs =>
      IH ks cs
        ((fix go (l : list BTreeNode) : Forall P l :=
            match l with
            | [] => List.Forall_nil P
            | c :: l' => List.Forall_cons P c l' (BTreeNode_ind P IH c) (go l')
            end) cs)
  end.

(** ** Lists *)

Ltac list_len :=
  repeat (rewrite ?length_app, ?length_map, ?length_take, ?length_drop,
            ?length_insert, ?length_cons, ?length_nil);
  cbn [length keys children] in *; lia.

Lemma weave_app ks1 k ks2 ss1 ss2 :
  (ss1 = [] ∧ ss2 = []) ∨ length ss1 = S (length ks1) →
  weave (ks1 ++ k :: ks2) (ss1 ++ ss2) = weave ks1 ss1 ++ k :: weave ks2 ss2.
Proof.
  intros [[-> ->] | Hlen]; [reflexivity |].
  revert ss1 Hlen. induction ks1 as [| k1 ks1 IH]; intros ss1 Hlen.
  - destruct ss1 as [| s [| ? ?]]; simplify_eq/=.
    by rewrite app_nil_r.
  - destruct ss1 as [| s ss1]; simplify_eq/=.
    rewrite IH by done. by rewrite <- app_assoc.
Qed.

Lemma weaveR_spec ks ss :
  length ks = length ss →
  match ks with [] => [] | k :: ks' => k :: weave ks' ss end = weaveR ks ss.
Proof.
  revert ss. induction ks as [| k ks IH]; intros [| s ss] Hlen;
    simplify_eq/=; [done |].
  f_equal. f_equal. by apply IH.
Qed.

(** A node read around a window of children [sw] and the keys [kw] between
    them. *)
Lemma weave_window k1 kw k2 s1 sw s2 :
  length k1 = length s1 →
  length sw = S (length kw) →
  length k2 = length s2 →
  weave (k1 ++ kw ++ k2) (s1 ++ sw ++ s2)
  = weaveL k1 s1 ++ weave kw sw ++ weaveR k2 s2.
Proof.
  intros H1 Hw H2. revert s1 H1.
  induction k1 as [| k k1 IH]; intros [| s s1] H1; simplify_eq/=.
  - revert sw Hw. induction kw as [| k kw IH]; intros sw Hw.
    + destruct sw as [| s [| ? ?]]; simplify_eq/=.
      rewrite app_nil_r. f_equal. by apply weaveR_spec.
    + destruct sw as [| s sw]; simplify_eq/=.
      rewrite IH by done. by rewrite <- app_assoc.
  - rewrite IH by done. by rewrite <- !app_assoc.
Qed.

Lemma Py_insert_length {A} i (x : A) l : length (Py.insert i x l) = S (length l).
Proof.
  unfold Py.insert. rewrite length_app. simpl.
  rewrite length_take, length_drop. lia.
Qed.

Lemma Py_insert_middle {A} (l1 l2 : list A) x :
  Py.insert (length l1) x (l1 ++ l2) = l1 ++ x :: l2.
Proof.
  unfold Py.insert. by rewrite take_app_length, drop_app_length.
Qed.

Lemma Py_slice_to_nat {A} (l : list A) (i : nat) :
  Py.slice_to l (Z.of_nat i) = take i l.
Proof.
  unfold Py.slice_to, Py.clip.
  destruct (Z.ltb_spec (Z.of_nat i) 0); [lia |]. by rewrite Nat2Z.id.
Qed.

Lemma Py_slice_from_nat {A} (l : list A) (i : nat) :
  Py.slice_from l (Z.of_nat i) = drop i l.
Proof.
  unfold Py.slice_from, Py.clip.
  destruct (Z.ltb_spec (Z.of_nat i) 0); [lia |]. by rewrite Nat2Z.id.
Qed.

Lemma Py_get_nat {A} (l : list A) (i : nat) : Py.get l (Z.of_nat i) = l !! i.
Proof.
  unfold Py.get.
  destruct (Z.ltb_spec (Z.of_nat i) 0); [lia |]. by rewrite Nat2Z.id.
Qed.

(** For an order of at least 3 the minimum is at least one key, and twice
    the minimum fits in a full node. *)
Lemma min_keys_spec order :
  3 ≤ order →
  (order - 1) / 2 = Z.of_nat (min_keys order) ∧
  (1 ≤ min_keys order)%nat ∧
  2 * Z.of_nat (min_keys order) + 1 ≤ order.
Proof.
  intros Ho. unfold min_keys.
  assert (1 ≤ (order - 1) / 2) by (apply Z.div_le_lower_bound; lia).
  assert (2 * ((order - 1) / 2) ≤ order - 1)
    by (apply Z.mul_div_le; lia).
  rewrite Z2Nat.id by lia. lia.
Qed.

(** ** The inner loop *)

Lemma scan_le target ks : (scan target ks ≤ length ks)%nat.
Proof.
  induction ks as [| k ks IH]; simpl; [lia |].
  destruct (target >? k); simpl; lia.
Qed.

Lemma scan_before target ks :
  Forall (λ k, k < target) (take (scan target ks) ks).
Proof.
  induction ks as [| k ks IH]; simpl; [constructor |].
  destruct (Z.gtb_spec target k); simpl; [| constructor].
  constructor; [lia | done].
Qed.

Lemma scan_at target ks k :
  ks !! scan target ks = Some k → target ≤ k.
Proof.
  induction ks as [| k' ks IH]; simpl; [done |].
  destruct (Z.gtb_spec target k'); simpl; [done |].
  intros [= ->]. lia.
Qed.

Lemma scan_absent target ks k :
  target ∉ ks → ks !! scan target ks = Some k → (target =? k) = false.
Proof.
  intros Hnot Hk. apply Z.eqb_neq. intros ->.
  apply Hnot. eapply list_elem_of_lookup_2. exact Hk.
Qed.

(** ** Well-formed nodes *)

Lemma wf_weaken m lo lo' h n : (lo' ≤ lo)%nat → wf m lo h n → wf m lo' h n.
Proof. destruct h; simpl; intros ? [? ?]; split; (lia || done). Qed.

Lemma wf_lo m lo h n : wf m lo h n → (lo ≤ length (keys n))%nat.
Proof. destruct h; by intros [? _]. Qed.

Lemma wf_leaf_iff m lo ks cs :
  wf m lo 0 (Node ks cs) ↔ (lo ≤ length ks)%nat ∧ cs = [].
Proof. reflexivity. Qed.

Lemma wf_internal_iff m lo h ks cs :
  wf m lo (S h) (Node ks cs) ↔
  (lo ≤ length ks)%nat ∧ length cs = S (length ks) ∧ Forall (wf m m h) cs.
Proof. reflexivity. Qed.

Lemma wf_root_of_wf m h n : (1 ≤ m)%nat → wf m m h n → wf_root m h n.
Proof. intros Hm. apply wf_weaken. lia. Qed.

(** ** Traversal yields the in-order key list *)

Lemma visit_leaf i ks : visit [] i ks = Ok ks.
Proof.
  revert i. induction ks as [| c ks IH]; intros i; simpl; [done |].
  by rewrite IH.
Qed.

Lemma visit_weave pre rest ks :
  length rest = S (length ks) →
  visit (Ok <$> (pre ++ rest)) (length pre) ks = Ok (weave ks rest).
Proof.
  revert pre rest. induction ks as [| c ks IH]; intros pre rest Hlen.
  - destruct rest as [| s [| ? ?]]; simplify_eq/=.
    rewrite fmap_app. simpl. rewrite last_snoc, app_nil_r.
    by destruct (Ok <$> pre).
  - destruct rest as [| s rest]; simplify_eq/=.
    rewrite list_lookup_fmap, list_lookup_middle by done. simpl.
    replace (pre ++ s :: rest) with ((pre ++ [s]) ++ rest)
      by (by rewrite <- app_assoc).
    replace (S (length pre)) with (length (pre ++ [s]))
      by (rewrite length_app; simpl; lia).
    rewrite IH by done.
    rewrite <- app_assoc. simpl. by destruct pre.
Qed.

Lemma node_traverse_inorder_wf m lo h n :
  wf m lo h n → node_traverse_inorder n = Ok (inorder n).
Proof.
  revert lo n. induction h as [| h IH]; intros lo [ks cs].
  - intros [_ Hcs]. simpl in Hcs. subst cs. simpl. apply visit_leaf.
  - intros (_ & Hlen & Hall). simpl in *.
    replace (map node_traverse_inorder cs) with (Ok <$> ([] ++ map inorder cs)).
    + apply (visit_weave []). rewrite length_map. done.
    + simpl. rewrite <- list_fmap_compose.
      apply Forall_fmap_ext_1. eapply Forall_impl; [exact Hall |].
      intros c Hc. simpl. symmetry. eauto.
Qed.

(** ** A node read around one child slot *)

Lemma inorder_plug1 p i c :
  length (children p) = S (length (keys p)) →
  (i < length (children p))%nat →
  inorder (plug1 c (p, i)) = before (p, i) ++ inorder c ++ after (p, i).
Proof.
  destruct p as [ks cs]. unfold plug1, before, after. simpl.
  intros Hlen Hi.
  rewrite insert_take_drop by done.
  rewrite map_app. simpl.
  rewrite <- (take_drop i ks) at 1.
  rewrite <- !fmap_take, <- !fmap_drop.
  change (inorder c :: ?l) with ([inorder c] ++ l).
  rewrite (weave_window (take i ks) [] (drop i ks)).
  - simpl. by rewrite app_nil_r.
  - list_len.
  - done.
  - list_len.
Qed.

Lemma inorder_frame ks cs i c :
  length cs = S (length ks) →
  cs !! i = Some c →
  inorder (Node ks cs)
  = before (Node ks cs, i) ++ inorder c ++ after (Node ks cs, i).
Proof.
  intros Hlen Hc.
  rewrite <- inorder_plug1; simpl; [| done | by eapply lookup_lt_Some].
  unfold plug1. simpl. by rewrite list_insert_id.
Qed.

Lemma weaveL_lt t ks ss rest :
  StronglySorted Z.lt (weaveL ks ss ++ rest) →
  Forall (λ x, x < t) ks →
  Forall (λ x, x < t) (weaveL ks ss).
Proof.
  revert ss. induction ks as [| k ks IH]; intros [| s ss]; simpl;
    try constructor.
  intros Hs Hk. apply Forall_cons in Hk as [Hk Hks].
  rewrite <- app_assoc in Hs. apply StronglySorted_app in Hs as (Hlt & _ & Hs).
  apply Forall_app. split.
  - apply Forall_forall. intros x Hx.
    specialize (Hlt x k Hx). simpl in Hlt.
    assert (x < k) by (apply Hlt; set_solver). lia.
  - constructor; [done |]. simpl in Hs.
    apply StronglySorted_cons in Hs as [_ Hs]. by eapply IH.
Qed.

Lemma weaveR_ge t k ks ss :
  StronglySorted Z.lt (weaveR (k :: ks) ss) →
  t ≤ k →
  Forall (λ x, t ≤ x) (weaveR (k :: ks) ss) ∧
  (t < k → Forall (λ x, t < x) (weaveR (k :: ks) ss)).
Proof.
  destruct ss as [| s ss]; simpl; [by split; constructor |].
  intros Hs Hk. apply StronglySorted_cons in Hs as [Hlt _].
  split; [| intros Hk'].
  - constructor; [done |]. eapply Forall_impl; [exact Hlt |].
    simpl. intros. lia.
  - constructor; [done |]. eapply Forall_impl; [exact Hlt |].
    simpl. intros. lia.
Qed.

(** What the inner loop says about the keys on both sides of the slot it
    picks, in a node whose keys are in order. *)
Lemma scan_sides t ks cs :
  StronglySorted Z.lt
    (before (Node ks cs, scan t ks) ++ after (Node ks cs, scan t ks)) →
  Forall (λ x, x < t) (before (Node ks cs, scan t ks)) ∧
  Forall (λ x, t ≤ x) (after (Node ks cs, scan t ks)) ∧
  (ks !! scan t ks ≠ Some t →
   Forall (λ x, t < x) (after (Node ks cs, scan t ks))).
Proof.
  unfold before, after. simpl. intros Hs. split.
  - eapply weaveL_lt; [exact Hs |]. apply scan_before.
  - apply StronglySorted_app_1_r in Hs.
    destruct (drop (scan t ks) ks) as [| k ks'] eqn:Hd.
    { simpl. repeat split; constructor. }
    assert (ks !! scan t ks = Some k) as Hk.
    { rewrite <- (Nat.add_0_r (scan t ks)), <- lookup_drop, Hd. done. }
    pose proof (scan_at _ _ _ Hk) as Hle.
    destruct (weaveR_ge t k ks' _ Hs Hle) as [H1 H2].
    split; [done |]. intros Hne. apply H2.
    destruct (decide (t = k)) as [-> |]; [by rewrite Hk in Hne | lia].
Qed.

Lemma sorted_middle (l1 l2 l3 : list Z) :
  StronglySorted Z.lt (l1 ++ l2 ++ l3) →
  StronglySorted Z.lt (l1 ++ l3) ∧ StronglySorted Z.lt l2.
Proof.
  rewrite !StronglySorted_app. intros (H12 & H1 & H23 & H2 & H3).
  repeat split; try done.
  intros x y Hx Hy. apply H12; set_solver.
Qed.

(** ** Lists cut at an index *)

Lemma split_at {A} (l : list A) i :
  (i ≤ length l)%nat → ∃ l1 l2, l = l1 ++ l2 ∧ length l1 = i.
Proof.
  intros Hi. exists (take i l), (drop i l). split.
  - by rewrite take_drop.
  - by rewrite length_take_le.
Qed.

Lemma lookup_mid {A} (l1 l2 : list A) x i :
  length l1 = i → (l1 ++ x :: l2) !! i = Some x.
Proof. intros <-. apply list_lookup_middle. done. Qed.

Lemma insert_mid {A} (l1 l2 : list A) x y i :
  length l1 = i → <[i := y]> (l1 ++ x :: l2) = l1 ++ y :: l2.
Proof.
  intros <-. rewrite insert_app_r_alt by lia.
  by rewrite Nat.sub_diag.
Qed.

Lemma delete_mid {A} (l1 l2 : list A) x i :
  length l1 = i → delete i (l1 ++ x :: l2) = l1 ++ l2.
Proof. intros <-. apply delete_middle. Qed.

Lemma lookup_mid_S {A} (l1 l2 : list A) x y i :
  length l1 = i → (l1 ++ x :: y :: l2) !! S i = Some y.
Proof.
  intros <-. change (l1 ++ x :: y :: l2) with (l1 ++ [x] ++ y :: l2).
  rewrite (app_assoc l1 [x] (y :: l2)).
  apply lookup_mid. list_len.
Qed.

Lemma insert_mid_S {A} (l1 l2 : list A) x y z i :
  length l1 = i → <[S i := z]> (l1 ++ x :: y :: l2) = l1 ++ x :: z :: l2.
Proof.
  intros <-. change (l1 ++ x :: y :: l2) with (l1 ++ [x] ++ y :: l2).
  rewrite (app_assoc l1 [x] (y :: l2)).
  rewrite (insert_mid (l1 ++ [x]) l2 y z) by list_len.
  by rewrite <- app_assoc.
Qed.

Lemma delete_mid_S {A} (l1 l2 : list A) x y i :
  length l1 = i → delete (S i) (l1 ++ x :: y :: l2) = l1 ++ x :: l2.
Proof.
  intros <-. change (l1 ++ x :: y :: l2) with (l1 ++ [x] ++ y :: l2).
  rewrite (app_assoc l1 [x] (y :: l2)).
  rewrite (delete_mid (l1 ++ [x]) l2 y) by list_len.
  by rewrite <- app_assoc.
Qed.

Lemma take_mid {A} (l1 l2 : list A) i :
  length l1 = i → take i (l1 ++ l2) = l1.
Proof. intros <-. apply take_app_length. Qed.

Lemma drop_mid {A} (l1 l2 : list A) i :
  length l1 = i → drop i (l1 ++ l2) = l2.
Proof. intros <-. apply drop_app_length. Qed.

Lemma Py_insert_mid {A} (l1 l2 : list A) x i :
  length l1 = i → Py.insert i x (l1 ++ l2) = l1 ++ x :: l2.
Proof. intros <-. apply Py_insert_middle. Qed.

Lemma before_mid K1 K2 S1 x S2 i :
  length K1 = i → length S1 = i →
  before (Node (K1 ++ K2) (S1 ++ x :: S2), i) = weaveL K1 (map inorder S1).
Proof.
  intros HK HS. unfold before. simpl.
  rewrite map_app, !take_mid; by rewrite ?length_map.
Qed.

Lemma after_mid K1 K2 S1 x S2 i :
  length K1 = i → length S1 = i →
  after (Node (K1 ++ K2) (S1 ++ x :: S2), i) = weaveR K2 (map inorder S2).
Proof.
  intros HK HS. unfold after. simpl.
  rewrite map_app, drop_mid by done.
  change (map inorder (x :: S2)) with ([inorder x] ++ map inorder S2).
  rewrite app_assoc, drop_mid; [done |]. list_len.
Qed.

Lemma before_eq ks cs i K1 K2 S1 S2 :
  ks = K1 ++ K2 → cs = S1 ++ S2 → length K1 = i → length S1 = i →
  before (Node ks cs, i) = weaveL K1 (map inorder S1).
Proof.
  intros -> -> HK HS. unfold before. simpl.
  rewrite map_app, !take_mid; by rewrite ?length_map.
Qed.

Lemma after_eq ks cs i K1 K2 S1 x S2 :
  ks = K1 ++ K2 → cs = S1 ++ x :: S2 → length K1 = i → length S1 = i →
  after (Node ks cs, i) = weaveR K2 (map inorder S2).
Proof. intros -> ->. apply after_mid. Qed.

(** A node with a window of children [Sw] and the keys [Kw] between them. *)
Lemma inorder_window K1 Kw K2 S1 Sw S2 :
  length K1 = length S1 →
  length Sw = S (length Kw) →
  length K2 = length S2 →
  inorder (Node (K1 ++ Kw ++ K2) (S1 ++ Sw ++ S2))
  = weaveL K1 (map inorder S1) ++ weave Kw (map inorder Sw)
    ++ weaveR K2 (map inorder S2).
Proof.
  intros. simpl. rewrite !map_app.
  apply weave_window; by rewrite ?length_map.
Qed.

Lemma inorder_cut1 ks cs K1 K2 S1 x S2 :
  ks = K1 ++ K2 → cs = S1 ++ x :: S2 →
  length K1 = length S1 → length K2 = length S2 →
  inorder (Node ks cs)
  = weaveL K1 (map inorder S1) ++ inorder x ++ weaveR K2 (map inorder S2).
Proof.
  intros -> -> H1 H2.
  etrans; [exact (inorder_window K1 [] K2 S1 [x] S2 H1 eq_refl H2) |].
  cbn [map weave]. by rewrite app_nil_r.
Qed.

Lemma inorder_cut2 ks cs K1 k K2 S1 x y S2 :
  ks = K1 ++ k :: K2 → cs = S1 ++ x :: y :: S2 →
  length K1 = length S1 → length K2 = length S2 →
  inorder (Node ks cs)
  = weaveL K1 (map inorder S1) ++ (inorder x ++ k :: inorder y)
    ++ weaveR K2 (map inorder S2).
Proof.
  intros -> -> H1 H2.
  etrans; [exact (inorder_window K1 [k] K2 S1 [x; y] S2 H1 eq_refl H2) |].
  cbn [map weave]. by rewrite app_nil_r.
Qed.

(** A well-formed internal node cut at a child slot. *)
Lemma frame_cut m lo h p i :
  wf m lo (S h) p → (i < length (children p))%nat →
  ∃ K1 K2 S1 x S2,
    p = Node (K1 ++ K2) (S1 ++ x :: S2) ∧
    length K1 = i ∧ length S1 = i ∧ length K2 = length S2 ∧
    Forall (wf m m h) S1 ∧ wf m m h x ∧ Forall (wf m m h) S2.
Proof.
  destruct p as [ks cs]. simpl. intros (Hlo & Hlen & Hall) Hi.
  destruct (split_at ks i) as (K1 & K2 & -> & HK); [lia |].
  destruct (lookup_lt_is_Some_2 cs i Hi) as [x Hx].
  apply list_elem_of_split_length in Hx as (S1 & S2 & -> & HS).
  exists K1, K2, S1, x, S2.
  apply Forall_app in Hall as [H1 H2]. apply Forall_cons in H2 as [Hx H2].
  repeat split; try done. revert Hlen. list_len.
Qed.

(** ** Paths and the tree around them *)

Lemma plug1_wf m lo h p i c :
  wf m lo (S h) p → wf m m h c → wf m lo (S h) (plug1 c (p, i)).
Proof.
  destruct p as [ks cs]. unfold plug1. simpl. intros (? & ? & Hall) Hc.
  repeat split; [done | by rewrite length_insert |].
  by apply Forall_insert.
Qed.

Lemma plug_wf m lo h above c :
  above ≠ [] → frames_ok m lo h above → wf m m h c →
  wf m lo (h + length above) (plug above c).
Proof.
  revert h c. induction above as [| [p i] rest IH]; intros h c Hne; [done |].
  simpl. intros (Hp & Hi & Hrest) Hc.
  destruct rest as [| f rest].
  - simpl. replace (h + 1)%nat with (S h) by lia. by apply plug1_wf.
  - replace (h + S (length (f :: rest)))%nat
      with (S h + length (f :: rest))%nat by lia.
    apply IH; [done | done |]. by apply plug1_wf.
Qed.

Lemma frames_ok_shape m lo h p i rest :
  frames_ok m lo h ((p, i) :: rest) →
  length (children p) = S (length (keys p)) ∧ (i < length (children p))%nat.
Proof. simpl. intros ((_ & Hlen & _) & Hi & _). done. Qed.

Lemma plug_inorder m lo h above c :
  frames_ok m lo h above →
  inorder (plug above c) = left_of above ++ inorder c ++ right_of above.
Proof.
  revert h c. induction above as [| [p i] rest IH]; intros h c Hf.
  - simpl. by rewrite app_nil_r.
  - pose proof (frames_ok_shape _ _ _ _ _ _ Hf) as [Hlen Hi].
    destruct Hf as (_ & _ & Hrest). simpl.
    change (fold_left plug1 rest (plug1 c (p, i)))
      with (plug rest (plug1 c (p, i))).
    rewrite (IH _ _ Hrest), inorder_plug1 by done.
    by rewrite <- !app_assoc.
Qed.

Lemma frames_ok_snoc m lo h above p i :
  frames_ok m m h above →
  wf m lo (S (h + length above)) p →
  (i < length (children p))%nat →
  frames_ok m lo h (above ++ [(p, i)]).
Proof.
  revert h. induction above as [| [q j] rest IH]; intros h Hf Hp Hi.
  - simpl in *. rewrite Nat.add_0_r in Hp. done.
  - simpl in Hf. destruct Hf as (Hq & Hj & Hrest). simpl.
    split; [| split; [done |]].
    + destruct rest; simpl; [done | done].
    + apply IH; [| | done].
      * destruct rest; [done |]. done.
      * replace (S h + length rest)%nat with (h + S (length rest))%nat by lia.
        done.
Qed.

Lemma left_of_snoc above f : left_of (above ++ [f]) = before f ++ left_of above.
Proof.
  induction above as [| g rest IH]; simpl.
  - by rewrite app_nil_r.
  - by rewrite IH, app_assoc.
Qed.

Lemma right_of_snoc above f : right_of (above ++ [f]) = right_of above ++ after f.
Proof.
  induction above as [| g rest IH]; simpl.
  - by rewrite app_nil_r.
  - by rewrite IH, app_assoc.
Qed.

Lemma plug_snoc above f c : plug (above ++ [f]) c = plug1 (plug above c) f.
Proof. unfold plug. by rewrite fold_left_app. Qed.

(** ** Insertion keeps the tree well formed and adds the key in order *)

(** The descent reaches a leaf; the entries above it are the nodes of the
    tree it went through, and the key belongs between the two halves of the
    key list that the leaf slot cuts. *)
Lemma insert_descend_ok m key h :
  ∀ lo n, wf m lo h n →
  ∃ leaf above,
    insert_descend key n
    = Ok (rev above ++ [(leaf, scan key (keys leaf))]) ∧
    length above = h ∧
    frames_ok m lo 0 above ∧
    wf m (match above with [] => lo | _ => m end) 0 leaf ∧
    plug above leaf = n ∧
    (StronglySorted Z.lt (inorder n) →
     Forall (λ x, x < key)
       (left_of above ++ take (scan key (keys leaf)) (keys leaf)) ∧
     Forall (λ x, key ≤ x)
       (drop (scan key (keys leaf)) (keys leaf) ++ right_of above)).
Proof.
  induction h as [| h IH]; intros lo [ks cs] Hwf.
  - destruct Hwf as [Hlo Hcs]. simpl in Hcs. subst cs.
    exists (Node ks []), []. simpl. split_and!; try done. intros Hs. split.
    + apply scan_before.
    + rewrite app_nil_r.
      destruct (drop (scan key ks) ks) as [| k ks'] eqn:Hd; [constructor |].
      assert (ks !! scan key ks = Some k) as Hk.
      { rewrite <- (Nat.add_0_r (scan key ks)), <- lookup_drop, Hd. done. }
      pose proof (scan_at _ _ _ Hk) as Hle.
      rewrite <- (take_drop (scan key ks) ks), Hd in Hs.
      apply StronglySorted_app_1_r, StronglySorted_cons in Hs as [Hlt _].
      constructor; [done |]. eapply Forall_impl; [exact Hlt |].
      simpl. intros. lia.
  - pose proof Hwf as (Hlo & Hlen & Hall). simpl in Hlen, Hall.
    pose proof (scan_le key ks) as Hscan.
    destruct (lookup_lt_is_Some_2 cs (scan key ks)) as [c Hc]; [lia |].
    pose proof (proj1 (Forall_lookup _ _) Hall _ _ Hc) as Hwc.
    destruct (IH m c Hwc) as (leaf & above & Hd & Hlenab & Hf & Hleaf & Hplug & Hsides).
    exists leaf, (above ++ [(Node ks cs, scan key ks)]).
    split; [| split; [| split; [| split; [| split]]]].
    + simpl. destruct cs as [| c0 cs']; [simpl in Hlen; lia |].
      rewrite list_lookup_fmap, Hc. simpl. rewrite Hd.
      rewrite rev_app_distr. simpl. done.
    + list_len.
    + apply frames_ok_snoc; [done | | simpl; lia].
      simpl. rewrite Hlenab. done.
    + destruct above; simpl; [done | done].
    + rewrite plug_snoc, Hplug. unfold plug1. simpl.
      by rewrite list_insert_id.
    + intros Hs.
      rewrite (inorder_frame _ _ _ _ Hlen Hc) in Hs.
      apply sorted_middle in Hs as [Hout Hin].
      destruct (scan_sides _ _ _ Hout) as (Hb & Ha & _).
      destruct (Hsides Hin) as [HL HR].
      rewrite left_of_snoc, right_of_snoc.
      rewrite <- (app_assoc (before _)), (app_assoc (drop _ _)).
      split; apply Forall_app; done.
Qed.

(** One split, seen from the parent. *)
Lemma split_wf m h lo ks cs :
  (2 * m + 1 ≤ length ks)%nat →
  wf m lo h (Node ks cs) →
  ∃ k,
    ks !! m = Some k ∧
    wf m m h (Node (take m ks) (take (S m) cs)) ∧
    wf m m h (Node (drop (S m) ks) (drop (S m) cs)) ∧
    inorder (Node ks cs)
    = inorder (Node (take m ks) (take (S m) cs))
      ++ k :: inorder (Node (drop (S m) ks) (drop (S m) cs)).
Proof.
  intros Hfull Hwf.
  destruct (lookup_lt_is_Some_2 ks m) as [k Hk]; [lia |].
  exists k. split; [done |].
  assert (inorder (Node ks cs)
          = inorder (Node (take m ks) (take (S m) cs))
            ++ k :: inorder (Node (drop (S m) ks) (drop (S m) cs))) as Hin.
  { simpl. rewrite <- (take_drop_middle ks m k Hk) at 1.
    rewrite <- (take_drop (S m) cs) at 1. rewrite map_app.
    apply weave_app. destruct h.
    - destruct Hwf as [_ Hcs]. simpl in Hcs. subst cs. left.
      by rewrite take_nil, drop_nil.
    - destruct Hwf as (_ & Hlen & _). simpl in Hlen. right. list_len. }
  destruct h.
  - destruct Hwf as [_ Hcs]. simpl in Hcs. subst cs.
    rewrite !wf_leaf_iff.
    split_and!; [list_len | by rewrite take_nil | list_len
                | by rewrite drop_nil | done].
  - destruct Hwf as (_ & Hlen & Hall). simpl in Hlen, Hall.
    rewrite !wf_internal_iff.
    split_and!; [list_len | list_len | by apply Forall_take
                | list_len | list_len | by apply Forall_drop | done].
Qed.

Lemma split_into_parent m lo h p i left k right :
  wf m lo (S h) p → (i < length (children p))%nat →
  wf m m h left → wf m m h right →
  let p' := Node (Py.insert i k (keys p))
                 (Py.insert (S i) right (<[i := left]> (children p))) in
  wf m (S lo) (S h) p' ∧
  inorder p'
  = before (p, i) ++ (inorder left ++ k :: inorder right) ++ after (p, i).
Proof.
  intros Hp Hi Hl Hr.
  destruct (frame_cut _ _ _ _ _ Hp Hi)
    as (K1 & K2 & S1 & x & S2 & -> & HK & HS & H2 & HS1 & Hx & HS2).
  destruct Hp as (Hlo & Hlen & _). simpl in Hlo, Hlen.
  cbn [keys children]. rewrite before_mid, after_mid by done.
  rewrite (insert_mid _ _ _ _ _ HS), (Py_insert_mid _ _ _ _ HK).
  replace (S1 ++ left :: S2) with ((S1 ++ [left]) ++ S2)
    by (by rewrite <- app_assoc).
  rewrite Py_insert_mid by list_len.
  rewrite <- app_assoc.
  change (K1 ++ k :: K2) with (K1 ++ [k] ++ K2).
  change (S1 ++ [left] ++ right :: S2) with (S1 ++ [left; right] ++ S2).
  split.
  - rewrite wf_internal_iff. split_and!.
    + revert Hlo. list_len.
    + revert Hlen. list_len.
    + apply Forall_app. split; [done |]. repeat constructor; done.
  - rewrite inorder_window by (done || lia).
    simpl. by rewrite app_nil_r, <- !app_assoc.
Qed.

Lemma fix_insert_loop_ok order m :
  3 ≤ order → m = min_keys order →
  ∀ above h curr,
    frames_ok m 1 h above →
    wf m (match above with [] => Nat.min 1 h | _ => m end) h curr →
    ∃ r H,
      fix_insert_loop order curr above = (r, None) ∧
      wf_root m H r ∧
      inorder r = left_of above ++ inorder curr ++ right_of above ∧
      (H = h + length above ∨ H = S (h + length above))%nat.
Proof.
  intros Ho Hm. destruct (min_keys_spec order Ho) as (Hmid & Hm1 & Hm2).
  rewrite <- Hm in *. clear Hm.
  induction above as [| [p i] rest IH]; intros h curr Hf Hcurr.
  - (* the root *)
    cbn [fix_insert_loop plug fold_left left_of right_of].
    destruct (Z.leb_spec (Z.of_nat (length (keys curr))) (order - 1)) as [Hle | Hgt].
    + exists curr, h. rewrite app_nil_r.
      repeat (split; [done |]). cbn [length]. lia.
    + destruct curr as [ks cs]. cbn [keys children] in *.
      destruct (split_wf m h _ ks cs ltac:(lia) Hcurr)
        as (k & Hk & Hl & Hr & Hin).
      rewrite Hmid, Py_get_nat, Hk.
      rewrite !Py_slice_to_nat.
      replace (Z.of_nat m + 1) with (Z.of_nat (S m)) by lia.
      rewrite !Py_slice_to_nat, !Py_slice_from_nat.
      eexists _, (S h). split; [done |]. split; [| split].
      * unfold wf_root. rewrite wf_internal_iff.
        split_and!; [cbn [length]; lia | done | repeat constructor; done].
      * rewrite app_nil_r, Hin. simpl. by rewrite app_nil_r.
      * cbn [length]. lia.
  - pose proof (frames_ok_shape _ _ _ _ _ _ Hf) as [Hlen Hi].
    pose proof Hf as (Hp & _ & Hrest).
    cbn [fix_insert_loop].
    destruct (Z.leb_spec (Z.of_nat (length (keys curr))) (order - 1)) as [Hle | Hgt].
    + exists (plug ((p, i) :: rest) curr), (h + length ((p, i) :: rest))%nat.
      split; [done |]. split; [| split; [| by left]].
      * pose proof (plug_wf m 1 h ((p, i) :: rest) curr ltac:(done) Hf Hcurr) as Hw.
        unfold wf_root.
        replace (Nat.min 1 (h + length ((p, i) :: rest))) with 1%nat
          by (cbn [length]; lia).
        done.
      * eapply plug_inorder. done.
    + destruct curr as [ks cs]. cbn [keys children] in *.
      destruct (split_wf m h _ ks cs ltac:(lia) Hcurr)
        as (k & Hk & Hl & Hr & Hin).
      rewrite Hmid, Py_get_nat, Hk.
      rewrite !Py_slice_to_nat.
      replace (Z.of_nat m + 1) with (Z.of_nat (S m)) by lia.
      rewrite !Py_slice_to_nat, !Py_slice_from_nat.
      destruct (Nat.ltb_spec i (length (children p))); [| lia].
      destruct (split_into_parent m _ h p i _ k _ Hp Hi Hl Hr) as [Hp' Hin'].
      edestruct (IH (S h)) as (r & H' & Hloop & Hwr & Hinr & HH);
        [exact Hrest | |].
      2: { exists r, H'. split; [exact Hloop |]. split; [done |].
           split; [| cbn [length]; lia].
           rewrite Hinr, Hin', Hin. cbn [left_of right_of].
           by rewrite <- !app_assoc. }
      destruct rest.
      * eapply wf_weaken; [| exact Hp']. lia.
      * eapply wf_weaken; [| exact Hp']. lia.
Qed.

Lemma frames_ok_top m lo lo' h above :
  (above ≠ [] → lo = lo') → frames_ok m lo h above → frames_ok m lo' h above.
Proof.
  destruct above as [| f rest]; [done |].
  intros <-; done.
Qed.

(** [insert] on a well-formed tree: it returns, the tree stays well formed,
    the key list gains [key] at the place where the descent cut it, and the
    height stays or grows by one. *)
Lemma insert_ok_height M r h key :
  3 ≤ M → wf_root (min_keys M) h r →
  ∃ r' h' l1 l2,
    insert (mkBTree M (Some r)) (Some key)
    = (mkBTree M (Some r'), None) ∧
    wf_root (min_keys M) h' r' ∧
    inorder r = l1 ++ l2 ∧
    inorder r' = l1 ++ key :: l2 ∧
    (StronglySorted Z.lt (inorder r) →
     Forall (λ x, x < key) l1 ∧ Forall (λ x, key ≤ x) l2) ∧
    (h' = h ∨ h' = S h).
Proof.
  intros Ho Hwf. set (m := min_keys M) in *.
  destruct (insert_descend_ok m key h _ r Hwf)
    as (leaf & above & Hd & Hlen & Hf & Hleaf & Hplug & Hsides).
  set (j := scan key (keys leaf)) in *.
  assert (frames_ok m 1 0 above) as Hf1.
  { eapply frames_ok_top; [| exact Hf]. intros Hne.
    destruct above; [done |]. subst h. cbn [length]. lia. }
  assert (wf m (match above with [] => Nat.min 1 0 | _ => m end) 0
            (insert_key j key leaf)) as Hleaf'.
  { destruct leaf as [lk lc]. destruct Hleaf as [Hlo Hlc].
    unfold insert_key. rewrite wf_leaf_iff. split; [| done].
    rewrite Py_insert_length. cbn [keys] in *.
    destruct above; [cbn; lia | lia]. }
  destruct (fix_insert_loop_ok M m Ho eq_refl above 0 _ Hf1 Hleaf')
    as (r' & h' & Hloop & Hwr & Hin & HH).
  assert (inorder leaf = keys leaf) as Hlk.
  { destruct leaf as [lk lc]. destruct Hleaf as [_ Hlc].
    cbn [children] in Hlc. subst lc. done. }
  assert (inorder (insert_key j key leaf)
          = take j (keys leaf) ++ key :: drop j (keys leaf)) as Hlk'.
  { destruct leaf as [lk lc]. destruct Hleaf as [_ Hlc].
    cbn [children] in Hlc. subst lc. done. }
  exists r', h', (left_of above ++ take j (keys leaf)),
    (drop j (keys leaf) ++ right_of above).
  split_and!.
  - unfold insert. cbn [root order]. rewrite Hd.
    rewrite rev_app_distr, rev_involutive. cbn [rev app].
    unfold _fix_insert. rewrite rev_app_distr, rev_involutive.
    cbn [rev app order]. rewrite Hloop. done.
  - done.
  - rewrite <- Hplug, (plug_inorder _ _ _ _ _ Hf), Hlk.
    rewrite <- (take_drop j (keys leaf)) at 1. by rewrite <- !app_assoc.
  - rewrite Hin, Hlk'. by rewrite <- !app_assoc.
  - done.
  - lia.
Qed.

Lemma insert_ok M r h key :
  3 ≤ M → wf_root (min_keys M) h r →
  ∃ r' h' l1 l2,
    insert (mkBTree M (Some r)) (Some key)
    = (mkBTree M (Some r'), None) ∧
    wf_root (min_keys M) h' r' ∧
    inorder r = l1 ++ l2 ∧
    inorder r' = l1 ++ key :: l2 ∧
    (StronglySorted Z.lt (inorder r) →
     Forall (λ x, x < key) l1 ∧ Forall (λ x, key ≤ x) l2).
Proof.
  intros HM Hwf.
  destruct (insert_ok_height M r h key HM Hwf)
    as (r' & h' & l1 & l2 & ? & ? & ? & ? & ? & _).
  by exists r', h', l1, l2.
Qed.

(** ** Search *)

Lemma elem_of_concat {A} (x : A) (ls : list (list A)) :
  x ∈ concat ls ↔ ∃ l, l ∈ ls ∧ x ∈ l.
Proof.
  induction ls as [| l ls IH]; simpl.
  - split; [by intros ?%elem_of_nil | by intros (? & ?%elem_of_nil & _)].
  - rewrite elem_of_app, IH. split.
    + intros [Hx | (l' & Hl' & Hx)]; [exists l | exists l'];
        (split; [| done]); [apply list_elem_of_here | by apply list_elem_of_further].
    + intros (l' & Hl' & Hx). apply elem_of_cons in Hl' as [-> | Hl'];
        [by left | right; eauto].
Qed.

Lemma elem_of_concat_map {A B} (f : A → list B) (x : B) (l : list A) (a : A) :
  a ∈ l → x ∈ f a → x ∈ concat (map f l).
Proof.
  intros Ha Hx. apply elem_of_concat. exists (f a). split; [| done].
  apply (list_elem_of_fmap_2 f). done.
Qed.

Lemma all_keys_child ks cs c x :
  c ∈ cs → x ∈ all_keys c → x ∈ all_keys (Node ks cs).
Proof.
  intros Hc Hx. simpl. apply elem_of_app. right.
  by eapply elem_of_concat_map.
Qed.

(** The descent of [search] for a key stored nowhere never finds it, and
    past a leaf there is no child to go to. *)
Lemma node_search_absent target n :
  target ∉ all_keys n → node_search target n = Raise IndexError.
Proof.
  induction n as [ks cs IH] using BTreeNode_ind. intros Hnot.
  assert (target ∉ ks) as Hks.
  { intros Hin. apply Hnot. simpl. apply elem_of_app. by left. }
  assert (map (node_search target) cs !! scan target ks = None ∨
          map (node_search target) cs !! scan target ks
          = Some (Raise IndexError)) as Hdown.
  { rewrite list_lookup_fmap.
    destruct (cs !! scan target ks) as [c |] eqn:Hc; [right | by left].
    simpl. f_equal.
    apply (proj1 (Forall_lookup _ _) IH _ _ Hc).
    intros Hin. apply Hnot. eapply all_keys_child; [| exact Hin].
    by eapply list_elem_of_lookup_2. }
  simpl. destruct (ks !! scan target ks) as [k |] eqn:Hk.
  - rewrite (scan_absent _ _ _ Hks Hk).
    by destruct Hdown as [-> | ->].
  - by destruct Hdown as [-> | ->].
Qed.

Lemma scan_found target ks :
  StronglySorted Z.lt ks → target ∈ ks → ks !! scan target ks = Some target.
Proof.
  induction ks as [| k ks IH]; intros Hs Hin; [by apply elem_of_nil in Hin |].
  apply StronglySorted_cons in Hs as [Hlt Hs]. simpl.
  destruct (Z.gtb_spec target k).
  - simpl. apply IH; [done |].
    apply elem_of_cons in Hin as [-> | Hin]; [lia | done].
  - apply elem_of_cons in Hin as [-> | Hin]; [done |].
    rewrite Forall_forall in Hlt. specialize (Hlt _ Hin). lia.
Qed.

Lemma Forall_lt_not_in (t : Z) l : Forall (λ x, x < t) l → t ∉ l.
Proof. rewrite Forall_forall. intros H Hin. specialize (H _ Hin). lia. Qed.

Lemma Forall_gt_not_in (t : Z) l : Forall (λ x, t < x) l → t ∉ l.
Proof. rewrite Forall_forall. intros H Hin. specialize (H _ Hin). lia. Qed.

(** In a well-formed tree with its keys in order, the descent of [search]
    ends at a node that holds the key. *)
Lemma node_search_present m target h :
  ∀ lo n, wf m lo h n → StronglySorted Z.lt (inorder n) →
  target ∈ inorder n →
  ∃ found, node_search target n = Ok (Some found) ∧
           target ∈ keys found ∧ found ∈ nodes n.
Proof.
  induction h as [| h IH]; intros lo [ks cs] Hwf Hs Hin.
  - destruct Hwf as [_ Hcs]. cbn [children] in Hcs. subst cs.
    cbn [inorder map weave] in Hs, Hin.
    exists (Node ks []). cbn [node_search].
    rewrite (scan_found _ _ Hs Hin), Z.eqb_refl.
    split_and!; [done | done |]. simpl. apply list_elem_of_here.
  - destruct Hwf as (_ & Hlen & Hall). cbn [keys children] in Hlen, Hall.
    cbn [node_search].
    destruct (ks !! scan target ks) as [k |] eqn:Hk.
    + destruct (Z.eqb_spec target k) as [-> | Hne].
      { exists (Node ks cs). split_and!; [done | |].
        - by eapply list_elem_of_lookup_2.
        - simpl. apply list_elem_of_here. }
      pose proof (lookup_lt_Some _ _ _ Hk) as Hi.
      destruct (lookup_lt_is_Some_2 cs (scan target ks)) as [c Hc]; [lia |].
      rewrite list_lookup_fmap, Hc. cbn [fmap option_fmap option_map].
      rewrite (inorder_frame _ _ _ _ Hlen Hc) in Hs, Hin.
      pose proof (sorted_middle _ _ _ Hs) as [Hout Hc_s].
      destruct (scan_sides _ _ _ Hout) as (Hb & _ & Ha).
      specialize (Ha ltac:(rewrite Hk; congruence)).
      apply elem_of_app in Hin as [Hin | Hin];
        [by apply Forall_lt_not_in in Hb |].
      apply elem_of_app in Hin as [Hin | Hin];
        [| by apply Forall_gt_not_in in Ha].
      destruct (IH m c (proj1 (Forall_lookup _ _) Hall _ _ Hc) Hc_s Hin)
        as (found & Hf & Hkf & Hnf).
      exists found. split_and!; [done | done |].
      simpl. apply elem_of_cons. right.
      eapply elem_of_concat_map; [| exact Hnf].
      by eapply list_elem_of_lookup_2.
    + pose proof (scan_le target ks) as Hle.
      apply lookup_ge_None in Hk.
      destruct (lookup_lt_is_Some_2 cs (scan target ks)) as [c Hc]; [lia |].
      rewrite list_lookup_fmap, Hc. cbn [fmap option_fmap option_map].
      rewrite (inorder_frame _ _ _ _ Hlen Hc) in Hs, Hin.
      pose proof (sorted_middle _ _ _ Hs) as [Hout Hc_s].
      destruct (scan_sides _ _ _ Hout) as (Hb & _ & Ha).
      specialize (Ha ltac:(rewrite (proj2 (lookup_ge_None _ _) Hk); congruence)).
      apply elem_of_app in Hin as [Hin | Hin];
        [by apply Forall_lt_not_in in Hb |].
      apply elem_of_app in Hin as [Hin | Hin];
        [| by apply Forall_gt_not_in in Ha].
      destruct (IH m c (proj1 (Forall_lookup _ _) Hall _ _ Hc) Hc_s Hin)
        as (found & Hf & Hkf & Hnf).
      exists found. split_and!; [done | done |].
      simpl. apply elem_of_cons. right.
      eapply elem_of_concat_map; [| exact Hnf].
      by eapply list_elem_of_lookup_2.
Qed.

(** ** Removal: the pieces *)

Lemma snoc_cut {A} (l : list A) n :
  length l = S n → ∃ l' x, l = l' ++ [x] ∧ length l' = n.
Proof.
  intros Hlen. destruct (split_at l n) as (l1 & l2 & -> & H1); [lia |].
  rewrite length_app in Hlen.
  destruct l2 as [| x [| ? ?]]; cbn [length] in Hlen; try lia.
  by exists l1, x.
Qed.

Lemma weaveL_snoc K S k s :
  length K = length S →
  weaveL (K ++ [k]) (S ++ [s]) = weaveL K S ++ s ++ [k].
Proof.
  revert S. induction K as [| k' K IH]; intros [| s' S'] Hlen; simplify_eq/=.
  - done.
  - rewrite IH by done. by rewrite <- !app_assoc.
Qed.

Lemma left_of_app a b : left_of (a ++ b) = left_of b ++ left_of a.
Proof.
  induction a as [| f a IH]; simpl.
  - by rewrite app_nil_r.
  - by rewrite IH, app_assoc.
Qed.

Lemma right_of_app a b : right_of (a ++ b) = right_of a ++ right_of b.
Proof.
  induction a as [| f a IH]; simpl; [done |].
  by rewrite IH, app_assoc.
Qed.

Lemma frames_ok_app m lo h a b :
  frames_ok m m h a → b ≠ [] →
  frames_ok m lo (h + length a) b →
  frames_ok m lo h (a ++ b).
Proof.
  revert h. induction a as [| [q j] a IH]; intros h Ha Hb Hfb.
  - simpl in *. by rewrite Nat.add_0_r in Hfb.
  - destruct Ha as (Hq & Hj & Ha). cbn [app frames_ok].
    split_and!.
    + destruct a, b; done.
    + done.
    + apply IH; [by destruct a | done |].
      replace (S h + length a)%nat with (h + length ((q, j) :: a))%nat
        by (cbn [length]; lia).
      done.
Qed.

(** What one merge produces. *)
Lemma absorb_ok m la lb h a sep b :
  wf m la h a → wf m lb h b →
  wf m (la + 1 + lb) h (absorb a sep b) ∧
  inorder (absorb a sep b) = inorder a ++ sep :: inorder b.
Proof.
  destruct a as [ak ac], b as [bk bc]. unfold absorb. cbn [keys children].
  intros Ha Hb. destruct h.
  - apply wf_leaf_iff in Ha as [Ha ->], Hb as [Hb ->].
    rewrite wf_leaf_iff. split_and!; [list_len | done | done].
  - apply wf_internal_iff in Ha as (Ha & Hla & Hca), Hb as (Hb & Hlb & Hcb).
    rewrite wf_internal_iff.
    split_and!; [list_len | list_len | by apply Forall_app |].
    cbn [inorder]. rewrite map_app. cbn [app]. apply weave_app.
    right. list_len.
Qed.

(** What one redistribution produces: two nodes holding at least the
    minimum each, when together the two had at least twice the minimum. *)
Lemma redistribute_ok m la lb h a sep b :
  wf m la h a → wf m lb h b →
  (2 * m ≤ length (keys a) + length (keys b))%nat →
  ∃ a' k b',
    redistribute a sep b = (a', k, b') ∧
    wf m m h a' ∧ wf m m h b' ∧
    inorder a' ++ k :: inorder b' = inorder a ++ sep :: inorder b.
Proof.
  intros Ha Hb Htot.
  destruct (absorb_ok m la lb h a sep b Ha Hb) as [Hab Hin].
  rewrite <- Hin. clear Hin.
  unfold redistribute. unfold absorb in Hab.
  set (mk := keys a ++ [sep] ++ keys b) in *.
  set (mc := children a ++ children b) in *.
  assert (length mk = S (length (keys a) + length (keys b))) as Hmk
    by (unfold mk; list_len).
  set (mid := (length mk / 2)%nat).
  assert (m ≤ mid ∧ mid < length mk ∧ m ≤ length mk - S mid)%nat
    as (Hmid1 & Hmid2 & Hmid3).
  { unfold mid.
    pose proof (Nat.div_mod_eq (length mk) 2) as Hdm.
    pose proof (Nat.mod_upper_bound (length mk) 2 ltac:(lia)). lia. }
  destruct (lookup_lt_is_Some_2 mk mid Hmid2) as [k Hk].
  eexists _, _, _. split; [reflexivity |].
  rewrite (nth_lookup_Some _ _ _ _ Hk).
  assert (inorder (Node mk mc)
          = inorder (Node (take mid mk) (take (S mid) mc))
            ++ k :: inorder (Node (drop (S mid) mk) (drop (S mid) mc))) as Hin.
  { cbn [inorder]. rewrite <- (take_drop_middle mk mid k Hk) at 1.
    rewrite <- (take_drop (S mid) mc) at 1. rewrite map_app.
    apply weave_app. destruct h.
    - destruct Hab as [_ Hcs]. cbn [children] in Hcs. rewrite Hcs. left.
      by rewrite take_nil, drop_nil.
    - destruct Hab as (_ & Hlen & _). cbn [keys children] in Hlen.
      right. list_len. }
  unfold absorb. fold mk mc. rewrite Hin. split_and!; [| | done].
  - destruct h.
    + destruct Hab as [_ Hcs]. cbn [children] in Hcs. rewrite Hcs.
      rewrite wf_leaf_iff. split; [list_len | by rewrite take_nil].
    + destruct Hab as (_ & Hlen & Hall). cbn [keys children] in Hlen, Hall.
      rewrite wf_internal_iff.
      split_and!; [list_len | list_len | by apply Forall_take].
  - destruct h.
    + destruct Hab as [_ Hcs]. cbn [children] in Hcs. rewrite Hcs.
      rewrite wf_leaf_iff. split; [list_len | by rewrite drop_nil].
    + destruct Hab as (_ & Hlen & Hall). cbn [keys children] in Hlen, Hall.
      rewrite wf_internal_iff.
      split_and!; [list_len | list_len | by apply Forall_drop].
Qed.

Section RemoveStep.

Variables (order : Z) (m lo h : nat) (p curr : BTreeNode) (i : nat)
  (rest : list frame).
Hypothesis Hmid : (order - 1) / 2 = Z.of_nat m.
Hypothesis Hm1 : (1 ≤ m)%nat.
Hypothesis Hlo : (1 ≤ lo)%nat.
Hypothesis Hp : wf m lo (S h) p.
Hypothesis Hi : (i < length (children p))%nat.
Hypothesis Hcurr : wf m (m - 1) h curr.

Lemma populous_iff n :
  _is_node_populous order false n = true ↔ (m + 1 ≤ length (keys n))%nat.
Proof using Hmid.
  clear -Hmid. unfold _is_node_populous. rewrite Hmid.
  destruct (Z.geb_spec (Z.of_nat (length (keys n))) (Z.of_nat m + 1)); split;
    (done || lia).
Qed.

Lemma merge_step_ok left_sibling right_sibling :
  (∀ i', i = S i' →
         ∃ l, left_sibling = Fresh l ∧ children p !! i' = Some l) →
  (S i ≠ length (children p) →
   ∃ r, right_sibling = Some r ∧ children p !! S i = Some r) →
  step_ok m lo h p i rest curr
    (merge_step curr p i rest left_sibling right_sibling).
Proof.
  intros Hleft Hright.
  destruct (frame_cut _ _ _ _ _ Hp Hi)
    as (K1 & K2 & S1 & x & S2 & Hpeq & HK & HS & H2 & HS1 & Hx & HS2).
  subst p. cbn [keys children] in *. unfold merge_step. cbn [keys children].
  pose proof Hp as (Hplo & Hplen & _). cbn [keys children] in Hplo, Hplen.
  destruct (Nat.eqb_spec (S i) (length (S1 ++ x :: S2))) as [Hlast | Hnot].
  - assert (length S2 = 0%nat) as HS2nil by (revert Hlast; list_len).
    destruct S2; [| done]. destruct K2; [| done]. clear HS2nil H2.
    rewrite app_nil_r in *.
    destruct i as [| i']; [lia |].
    destruct (Hleft i' eq_refl) as (l & -> & Hl).
    destruct (snoc_cut K1 i' HK) as (K1' & sep & -> & HK').
    destruct (snoc_cut S1 i' HS) as (S1' & l' & -> & HS').
    rewrite <- app_assoc in Hl. cbn [app] in Hl.
    rewrite lookup_mid in Hl by done.
    injection Hl as ->.
    replace (S i' - 1)%nat with i' by lia.
    rewrite lookup_mid by done.
    rewrite (delete_mid K1' [] sep i' HK').
    rewrite (delete_mid (S1' ++ [l]) [] x (S i')) by list_len.
    rewrite !app_nil_r. rewrite insert_mid by done.
    apply Forall_app in HS1 as [HS1 Hl]. apply Forall_cons in Hl as [Hl _].
    destruct (absorb_ok m m (m - 1) h l sep curr Hl Hcurr) as [Hab Hin].
    cbn [step_ok]. split.
    + rewrite wf_internal_iff. split_and!; [list_len | list_len |].
      apply Forall_app. split; [done |]. constructor; [| done].
      eapply wf_weaken; [| exact Hab]. lia.
    + rewrite (before_eq _ _ _ (K1' ++ [sep]) [] (S1' ++ [l]) [x]),
        (after_eq _ _ _ (K1' ++ [sep]) [] (S1' ++ [l]) x [])
        by (by rewrite ?app_nil_r).
      rewrite (inorder_cut1 _ _ K1' [] S1' (absorb l sep curr) [])
        by (rewrite ?app_nil_r; (done || lia)).
      rewrite !map_app. cbn [map weaveR].
      rewrite weaveL_snoc by list_len.
      rewrite Hin. by rewrite !app_nil_r, <- !app_assoc.
  - destruct (Hright Hnot) as (r & -> & Hr).
    destruct S2 as [| r' S2']; [exfalso; revert Hnot; list_len |].
    destruct K2 as [| sep K2']; [done |].
    rewrite lookup_mid_S in Hr by done. injection Hr as ->.
    rewrite lookup_mid by done.
    rewrite (delete_mid K1 K2' sep i HK).
    rewrite delete_mid_S, insert_mid by done.
    apply Forall_cons in HS2 as [Hr HS2].
    destruct (absorb_ok m (m - 1) m h curr sep r Hcurr Hr) as [Hab Hin].
    cbn [step_ok]. split.
    + rewrite wf_internal_iff. split_and!.
      * revert Hplo. list_len.
      * revert Hplen. list_len.
      * apply Forall_app. split; [done |]. constructor; [| done].
        eapply wf_weaken; [| exact Hab]. lia.
    + rewrite (before_mid K1 (sep :: K2') S1 x (r :: S2')),
        (after_mid K1 (sep :: K2') S1 x (r :: S2')) by done.
      rewrite (inorder_cut1 _ _ K1 K2' S1 (absorb curr sep r) S2')
        by (done || list_len).
      cbn [map weaveR]. rewrite Hin. by rewrite <- !app_assoc.
Qed.

Lemma right_step_ok left_sibling :
  (length (keys curr) < m)%nat →
  (∀ i', i = S i' →
         ∃ l, left_sibling = Fresh l ∧ children p !! i' = Some l) →
  step_ok m lo h p i rest curr (right_step order curr p i rest left_sibling).
Proof.
  intros Hunder Hleft. unfold right_step.
  destruct (Nat.eqb_spec (S i) (length (children p))) as [Hlast | Hnot];
    cbn [negb].
  { apply merge_step_ok; [done | done]. }
  destruct (lookup_lt_is_Some_2 (children p) (S i)) as [r Hr]; [lia |].
  rewrite Hr.
  destruct (_is_node_populous order false r) eqn:Hpop.
  2: { apply merge_step_ok; [done |]. intros _. eauto. }
  apply populous_iff in Hpop.
  destruct (frame_cut _ _ _ _ _ Hp Hi)
    as (K1 & K2 & S1 & x & S2 & Hpeq & HK & HS & H2 & HS1 & Hx & HS2).
  subst p. cbn [keys children] in *.
  pose proof Hp as (Hplo & Hplen & _). cbn [keys children] in Hplo, Hplen.
  destruct S2 as [| r' S2']; [exfalso; revert Hnot; list_len |].
  destruct K2 as [| sep K2']; [done |].
  rewrite lookup_mid_S in Hr by done. injection Hr as ->.
  rewrite lookup_mid by done.
  apply Forall_cons in HS2 as [Hr HS2].
  destruct (redistribute_ok m (m - 1) m h curr sep r Hcurr Hr)
    as (curr' & k & r' & Hred & Hc' & Hr' & Hin).
  { pose proof (wf_lo _ _ _ _ Hcurr). lia. }
  rewrite Hred. cbn [step_ok].
  eexists. split; [reflexivity |]. split; [done |].
  rewrite (insert_mid K1 K2' sep k i HK).
  rewrite (insert_mid S1 (r :: S2') x curr' i HS).
  rewrite insert_mid_S by done.
  split.
  - rewrite wf_internal_iff. split_and!.
    + revert Hplo. list_len.
    + revert Hplen. list_len.
    + apply Forall_app. split; [done |].
      repeat (constructor; [done |]). done.
  - rewrite (before_mid K1 (sep :: K2') S1 x (r :: S2')),
      (after_mid K1 (sep :: K2') S1 x (r :: S2')) by done.
    rewrite (inorder_cut2 _ _ K1 k K2' S1 curr' r' S2')
      by (done || list_len).
    cbn [map weaveR]. rewrite Hin. by rewrite <- !app_assoc.
Qed.

End RemoveStep.

Lemma fix_remove_step_ok order m lo h p curr i rest left_bound :
  (order - 1) / 2 = Z.of_nat m → (1 ≤ m)%nat → (1 ≤ lo)%nat →
  wf m lo (S h) p → (i < length (children p))%nat →
  wf m (m - 1) h curr →
  (length (keys curr) < m)%nat →
  step_ok m lo h p i rest curr
    (fix_remove_step order left_bound curr p i rest).
Proof.
  intros Hmid Hm1 Hlo Hp Hi Hcurr Hunder. unfold fix_remove_step.
  destruct i as [| i'].
  { eapply right_step_ok; try done. }
  destruct (lookup_lt_is_Some_2 (children p) i') as [l Hl]; [lia |].
  rewrite Hl.
  destruct (_is_node_populous order false l) eqn:Hpop.
  2: { eapply right_step_ok; try done. intros ? [= <-]. eauto. }
  apply (populous_iff order m Hmid) in Hpop.
  destruct (frame_cut _ _ _ _ _ Hp Hi)
    as (K1 & K2 & S1 & x & S2 & Hpeq & HK & HS & H2 & HS1 & Hx & HS2).
  destruct (snoc_cut K1 i' HK) as (K1' & sep & -> & HK').
  destruct (snoc_cut S1 i' HS) as (S1' & l' & -> & HS').
  rewrite <- !app_assoc in Hpeq. cbn [app] in Hpeq.
  subst p. cbn [keys children] in *.
  pose proof Hp as (Hplo & Hplen & _). cbn [keys children] in Hplo, Hplen.
  rewrite lookup_mid in Hl by done. injection Hl as ->.
  rewrite lookup_mid by done.
  apply Forall_app in HS1 as [HS1 Hl]. apply Forall_cons in Hl as [Hl _].
  destruct (redistribute_ok m m (m - 1) h l sep curr Hl Hcurr)
    as (l' & k & curr' & Hred & Hl' & Hc' & Hin).
  { pose proof (wf_lo _ _ _ _ Hcurr). lia. }
  rewrite Hred. cbn [step_ok].
  eexists. split; [reflexivity |]. split; [done |].
  rewrite (insert_mid K1' K2 sep k i' HK').
  rewrite insert_mid_S, insert_mid by done.
  split.
  - rewrite wf_internal_iff. split_and!.
    + revert Hplo. list_len.
    + revert Hplen. list_len.
    + apply Forall_app. split; [done |].
      repeat (constructor; [done |]). done.
  - rewrite (before_eq _ _ _ (K1' ++ [sep]) K2 (S1' ++ [l]) (x :: S2)),
      (after_eq _ _ _ (K1' ++ [sep]) K2 (S1' ++ [l]) x S2)
      by (rewrite <- ?app_assoc; done).
    rewrite (inorder_cut2 _ _ K1' k K2 S1' l' curr' S2)
      by (done || list_len).
    rewrite map_app. cbn [map]. rewrite weaveL_snoc by list_len.
    rewrite Hin. by rewrite <- !app_assoc.
Qed.

Lemma wf_raise m lo lo' h n :
  wf m lo h n → (lo' ≤ length (keys n))%nat → wf m lo' h n.
Proof. destruct h; intros [_ ?] ?; split; done. Qed.

(** The repair pass after a deletion ends without an exception, leaves a
    well-formed tree, and does not change the key list. *)
Lemma fix_remove_loop_ok order m :
  3 ≤ order → m = min_keys order →
  ∀ above h curr left_bound,
    frames_ok m 1 h above →
    wf m (match above with [] => 0 | _ => m - 1 end)%nat h curr →
    ∃ r H,
      fix_remove_loop order left_bound curr above = (r, None) ∧
      wf_root m H r ∧
      inorder r = left_of above ++ inorder curr ++ right_of above ∧
      (H = h + length above ∨ S H = h + length above)%nat.
Proof.
  intros Ho Hm. destruct (min_keys_spec order Ho) as (Hmid & Hm1 & Hm2).
  rewrite <- Hm in *. clear Hm.
  induction above as [| [p i] rest IH]; intros h curr lb Hf Hcurr.
  - cbn [fix_remove_loop left_of right_of app]. rewrite app_nil_r.
    destruct curr as [ks cs]. cbn [children].
    destruct h as [| h].
    { apply wf_leaf_iff in Hcurr as [_ ->]. exists (Node ks []), 0%nat.
      split_and!; [done | | done | by left]. unfold wf_root.
      rewrite wf_leaf_iff. split; [cbn; lia | done]. }
    apply wf_internal_iff in Hcurr as (_ & Hlen & Hall).
    destruct cs as [| c [| c' cs']]; [done | |].
    + destruct ks; [| done]. apply Forall_cons in Hall as [Hc _].
      exists c, h.
      split_and!; [done | by apply wf_root_of_wf | | right; cbn [length]; lia].
      cbn [inorder map weave]. by rewrite app_nil_r.
    + eexists _, (S h).
      split_and!; [done | | done | left; cbn [length]; lia].
      unfold wf_root. rewrite wf_internal_iff.
      split_and!; [revert Hlen; list_len | done | done].
  - pose proof (frames_ok_shape _ _ _ _ _ _ Hf) as [Hlen Hi].
    pose proof Hf as (Hp & _ & Hrest).
    cbn [fix_remove_loop]. unfold _is_node_underflowing. rewrite Hmid.
    destruct (Z.ltb_spec (Z.of_nat (length (keys curr))) (Z.of_nat m))
      as [Hunder | Hfine]; cbn [negb].
    + assert (1 ≤ match rest with [] => 1 | _ => m end)%nat as Hlo
        by (destruct rest; lia).
      pose proof (fix_remove_step_ok order m _ h p curr i rest lb
                    Hmid Hm1 Hlo Hp Hi Hcurr ltac:(lia)) as Hstep.
      destruct (fix_remove_step order lb curr p i rest) as [r e | p' lb'].
      * destruct Hstep as (p' & -> & -> & Hw & Hin).
        exists (plug rest p'), (S h + length rest)%nat.
        split_and!; [done | | | left; cbn [length]; lia].
        -- destruct rest as [| f rest].
           ++ cbn [plug fold_left length]. rewrite Nat.add_0_r.
              unfold wf_root. done.
           ++ pose proof (plug_wf m 1 (S h) (f :: rest) p' ltac:(done)
                            Hrest Hw) as Hw'.
              unfold wf_root.
              replace (Nat.min 1 (S h + length (f :: rest))) with 1%nat
                by lia.
              done.
        -- rewrite (plug_inorder _ _ _ _ _ Hrest), Hin.
           cbn [left_of right_of]. by rewrite <- !app_assoc.
      * destruct Hstep as (Hw & Hin).
        edestruct (IH (S h) p' lb') as (r & H' & Hloop & Hwr & Hinr & HH);
          [exact Hrest | |].
        2: { exists r, H'. split_and!; [done | done | | cbn [length]; lia].
             rewrite Hinr, Hin. cbn [left_of right_of].
             by rewrite <- !app_assoc. }
        destruct rest; [| done]. done.
    + assert (wf m m h curr) as Hcurr' by (eapply wf_raise; [done | lia]).
      exists (plug ((p, i) :: rest) curr), (h + length ((p, i) :: rest))%nat.
      split_and!; [done | | | by left].
      * pose proof (plug_wf m 1 h ((p, i) :: rest) curr ltac:(done) Hf Hcurr')
          as Hw.
        unfold wf_root.
        replace (Nat.min 1 (h + length ((p, i) :: rest))) with 1%nat
          by (cbn [length]; lia).
        done.
      * eapply plug_inorder. done.
Qed.

(** Where the descent goes when the key is not in the node itself. *)
Lemma descend_child m lo h key ks cs :
  wf m lo (S h) (Node ks cs) →
  StronglySorted Z.lt (inorder (Node ks cs)) →
  key ∈ inorder (Node ks cs) →
  ks !! scan key ks ≠ Some key →
  ∃ c, cs !! scan key ks = Some c ∧ wf m m h c ∧
       StronglySorted Z.lt (inorder c) ∧ key ∈ inorder c.
Proof.
  intros (_ & Hlen & Hall) Hs Hin Hne. cbn [keys children] in Hlen, Hall.
  pose proof (scan_le key ks) as Hle.
  destruct (lookup_lt_is_Some_2 cs (scan key ks)) as [c Hc]; [lia |].
  exists c. split; [done |].
  split; [exact (proj1 (Forall_lookup _ _) Hall _ _ Hc) |].
  rewrite (inorder_frame _ _ _ _ Hlen Hc) in Hs, Hin.
  pose proof (sorted_middle _ _ _ Hs) as [Hout Hc_s].
  split; [done |].
  destruct (scan_sides _ _ _ Hout) as (Hb & _ & Ha).
  specialize (Ha Hne).
  apply elem_of_app in Hin as [Hin | Hin];
    [by apply Forall_lt_not_in in Hb |].
  apply elem_of_app in Hin as [Hin | Hin];
    [done | by apply Forall_gt_not_in in Ha].
Qed.

(** The descent of [remove] for a key of the tree ends at the node that
    holds it. *)
Lemma remove_descend_ok m key h :
  ∀ lo n, wf m lo h n → StronglySorted Z.lt (inorder n) →
  key ∈ inorder n →
  ∃ path idx target above ht,
    remove_descend key n = Ok (Some (path, idx)) ∧
    (∀ acc, zip_up n path acc = (target, above ++ acc)) ∧
    (ht + length above = h)%nat ∧
    frames_ok m lo ht above ∧
    wf m (match above with [] => lo | _ => m end) ht target ∧
    plug above target = n ∧
    keys target !! idx = Some key.
Proof.
  induction h as [| h IH]; intros lo [ks cs] Hwf Hs Hin.
  - pose proof Hwf as [_ Hcs]. cbn [children] in Hcs. subst cs.
    cbn [inorder map weave] in Hs, Hin.
    exists [], (scan key ks), (Node ks []), [], 0%nat.
    cbn [remove_descend]. rewrite (scan_found _ _ Hs Hin), Z.eqb_refl.
    split_and!; try done; by apply scan_found.
  - destruct (decide (ks !! scan key ks = Some key)) as [Hhere | Hne].
    { exists [], (scan key ks), (Node ks cs), [], (S h).
      cbn [remove_descend]. rewrite Hhere, Z.eqb_refl.
      split_and!; try done; cbn [length]; lia. }
    destruct (descend_child _ _ _ _ _ _ Hwf Hs Hin Hne)
      as (c & Hc & Hwc & Hsc & Hinc).
    destruct (IH m c Hwc Hsc Hinc)
      as (path & idx & target & above & ht & Hd & Hzip & Hht & Hf & Ht
          & Hplug & Hidx).
    exists ((c, scan key ks) :: path), idx, target,
      (above ++ [(Node ks cs, scan key ks)]), ht.
    split_and!.
    + cbn [remove_descend].
      assert (match cs with
              | [] => Ok None
              | _ :: _ =>
                  match map (λ c0, (c0, remove_descend key c0)) cs
                          !! scan key ks with
                  | Some (c0, Ok (Some (path0, i))) =>
                      Ok (Some ((c0, scan key ks) :: path0, i))
                  | Some (_, Ok None) => Ok None
                  | Some (_, Raise e) => Raise e
                  | None => Raise IndexError
                  end
              end = Ok (Some ((c, scan key ks) :: path, idx))) as Hdown.
      { destruct cs as [| c0 cs']; [done |].
        rewrite list_lookup_fmap, Hc. cbn. by rewrite Hd. }
      rewrite Hdown.
      destruct (ks !! scan key ks) as [k |] eqn:Hk; [| done].
      destruct (Z.eqb_spec key k) as [-> | ?]; [done | done].
    + intros acc. cbn [zip_up]. rewrite Hzip. by rewrite <- app_assoc.
    + list_len.
    + apply frames_ok_snoc; [done | | ].
      * rewrite Hht. done.
      * by eapply lookup_lt_Some.
    + destruct above; done.
    + rewrite plug_snoc, Hplug. unfold plug1. cbn [fst snd keys children].
      by rewrite list_insert_id.
    + done.
Qed.

(** The walk to the leftmost leaf of a subtree: nothing is to the left of
    it. *)
Lemma leftmost_ok m h :
  ∀ n acc, wf m m h n →
  ∃ leaf below,
    leftmost n acc = (leaf, below ++ acc) ∧
    length below = h ∧
    frames_ok m m 0 below ∧
    wf m m 0 leaf ∧
    inorder n = inorder leaf ++ right_of below ∧
    left_of below = [].
Proof.
  induction h as [| h IH]; intros [ks cs] acc Hwf.
  - pose proof Hwf as [_ Hcs]. cbn [children] in Hcs. subst cs.
    exists (Node ks []), []. cbn [leftmost right_of left_of].
    split_and!; try done. by rewrite app_nil_r.
  - pose proof Hwf as (_ & Hlen & Hall). cbn [keys children] in Hlen, Hall.
    destruct cs as [| c cs']; [done |].
    pose proof Hall as [Hwc _]%Forall_cons.
    destruct (IH c ((Node ks (c :: cs'), 0%nat) :: acc) Hwc)
      as (leaf & below & Hl & Hlenb & Hf & Hleaf & Hin & Hleft).
    exists leaf, (below ++ [(Node ks (c :: cs'), 0%nat)]).
    split_and!.
    + cbn [leftmost]. rewrite Hl. by rewrite <- app_assoc.
    + list_len.
    + apply frames_ok_snoc; [done | | cbn [children length]; lia].
      cbn [Nat.add]. rewrite Hlenb. done.
    + done.
    + rewrite right_of_snoc.
      rewrite (inorder_frame ks (c :: cs') 0 c Hlen eq_refl).
      rewrite Hin. unfold before. cbn [fst snd take weaveL app].
      by rewrite <- app_assoc.
    + rewrite left_of_snoc, Hleft. unfold before. done.
Qed.

Lemma before_S ks cs idx k :
  ks !! idx = Some k → (idx < length cs)%nat →
  ∃ B, ∀ k', before (Node (<[idx := k']> ks) cs, S idx) = B ++ [k'].
Proof.
  intros Hk Hidx.
  apply list_elem_of_split_length in Hk as (K1 & K2 & -> & HK).
  destruct (lookup_lt_is_Some_2 cs idx Hidx) as [x Hx].
  apply list_elem_of_split_length in Hx as (S1 & S2 & -> & HS).
  exists (weaveL K1 (map inorder S1) ++ inorder x). intros k'.
  rewrite insert_mid by done.
  rewrite (before_eq _ _ _ (K1 ++ [k']) K2 (S1 ++ [x]) S2);
    [| by rewrite <- app_assoc | by rewrite <- app_assoc | list_len
     | list_len].
  rewrite map_app. cbn [map]. rewrite weaveL_snoc by list_len.
  by rewrite <- app_assoc.
Qed.

Lemma after_S ks cs idx k' :
  after (Node (<[idx := k']> ks) cs, S idx) = after (Node ks cs, S idx).
Proof.
  unfold after. cbn [fst snd keys children].
  by rewrite drop_insert_lt by lia.
Qed.

(** [remove] of a key of a well-formed tree: it returns, the tree stays well
    formed, the key list loses that key and nothing else, and the height
    stays or shrinks by one. *)
Lemma remove_ok_height M r h key :
  3 ≤ M → wf_root (min_keys M) h r →
  StronglySorted Z.lt (inorder r) → key ∈ inorder r →
  ∃ r' h' l1 l2,
    remove (mkBTree M (Some r)) (Some key) = (mkBTree M (Some r'), None) ∧
    wf_root (min_keys M) h' r' ∧
    inorder r = l1 ++ key :: l2 ∧
    inorder r' = l1 ++ l2 ∧
    (h' = h ∨ S h' = h).
Proof.
  intros Ho Hwf Hs Hin. set (m := min_keys M) in *.
  destruct (min_keys_spec M Ho) as (Hmid & Hm1 & Hm2). fold m in Hmid, Hm1.
  destruct (remove_descend_ok m key h _ r Hwf Hs Hin)
    as (path & idx & target & above & ht & Hd & Hzip & Hht & Hf & Ht
        & Hplug & Hidx).
  specialize (Hzip []). rewrite app_nil_r in Hzip.
  assert (frames_ok m 1 ht above) as Hf1.
  { eapply frames_ok_top; [| exact Hf]. intros Hne.
    destruct above; [done |]. cbn [length] in Hht. lia. }
  assert (inorder r = left_of above ++ inorder target ++ right_of above)
    as Hr by (by rewrite <- Hplug, (plug_inorder _ _ _ _ _ Hf)).
  unfold remove. cbn [root]. rewrite Hd, Hzip.
  destruct target as [tks tcs]. cbn [keys children] in *.
  pose proof (lookup_lt_Some _ _ _ Hidx) as Hidx_lt.
  destruct ht as [| ht].
  - (* the key is in a leaf *)
    apply wf_leaf_iff in Ht as [Hlo ->].
    edestruct (fix_remove_loop_ok M m Ho eq_refl above 0
                 (Node (delete idx tks) []) false Hf1)
      as (r' & h' & Hloop & Hwr & Hinr & HH).
    { rewrite wf_leaf_iff. split; [| done].
      rewrite length_delete by eauto. destruct above; lia. }
    exists r', h', (left_of above ++ take idx tks),
      (drop (S idx) tks ++ right_of above).
    split_and!.
    + unfold _fix_remove. cbn [order]. by rewrite Hloop.
    + done.
    + rewrite Hr. cbn [inorder map weave].
      rewrite <- (take_drop_middle tks idx key Hidx) at 1.
      by rewrite <- !app_assoc.
    + rewrite Hinr. cbn [inorder map weave].
      rewrite delete_take_drop. by rewrite <- !app_assoc.
    + lia.
  - (* the key is in an internal node *)
    pose proof Ht as (Hlo & Hlen & Hall).
    cbn [keys children] in Hlo, Hlen, Hall.
    destruct tcs as [| c0 tcs']; [done |].
    destruct (lookup_lt_is_Some_2 (c0 :: tcs') (S idx)) as [child Hchild];
      [lia |].
    rewrite Hchild.
    pose proof (proj1 (Forall_lookup _ _) Hall _ _ Hchild) as Hwchild.
    destruct (leftmost_ok m ht child [] Hwchild)
      as (leaf & below & Hlm & Hlenb & Hfb & Hleaf & Hinchild & Hleft).
    rewrite Hlm, app_nil_r.
    destruct leaf as [lks lcs]. apply wf_leaf_iff in Hleaf as [Hlk ->].
    destruct lks as [| successor ks']; [cbn [length] in Hlk; lia |].
    cbn [keys children].
    set (target' := Node (<[idx := successor]> tks) (c0 :: tcs')).
    assert (frames_ok m 1 0 (below ++ (target', S idx) :: above)) as Hf'.
    { apply frames_ok_app; [done | done |].
      cbn [Nat.add]. rewrite Hlenb. cbn [frames_ok]. unfold target'.
      split_and!; [| cbn [children]; lia | done].
      rewrite wf_internal_iff. rewrite length_insert.
      split_and!; [| done | done].
      destruct above; [| done]. cbn [length] in Hht.
      replace h with (S ht) in Hlo by lia. cbn in Hlo. lia. }
    edestruct (fix_remove_loop_ok M m Ho eq_refl
                 (below ++ (target', S idx) :: above) 0
                 (Node ks' []) false Hf')
      as (r' & h' & Hloop & Hwr & Hinr & HH).
    { rewrite wf_leaf_iff. split; [| done].
      cbn [length] in Hlk. destruct below; cbn [app]; lia. }
    destruct (before_S tks (c0 :: tcs') idx key Hidx ltac:(lia)) as [B HB].
    pose proof (HB key) as HBk. rewrite list_insert_id in HBk by done.
    pose proof (HB successor) as HBs. fold target' in HBs.
    pose proof (after_S tks (c0 :: tcs') idx successor) as HA.
    fold target' in HA.
    exists r', h', (left_of above ++ B),
      (successor :: ks' ++ right_of below
         ++ after (Node tks (c0 :: tcs'), S idx) ++ right_of above).
    split_and!.
    + unfold _fix_remove. cbn [order]. fold target'. by rewrite Hloop.
    + done.
    + rewrite Hr, (inorder_frame _ _ _ _ Hlen Hchild), HBk, Hinchild.
      cbn [inorder map weave]. rewrite <- !app_assoc. done.
    + rewrite Hinr, left_of_app, right_of_app. cbn [left_of right_of].
      rewrite Hleft, HBs, HA. cbn [inorder map weave].
      rewrite app_nil_r, <- !app_assoc. done.
    + revert HH. rewrite length_app. cbn [length]. lia.
Qed.

Lemma remove_ok M r h key :
  3 ≤ M → wf_root (min_keys M) h r →
  StronglySorted Z.lt (inorder r) → key ∈ inorder r →
  ∃ r' h' l1 l2,
    remove (mkBTree M (Some r)) (Some key) = (mkBTree M (Some r'), None) ∧
    wf_root (min_keys M) h' r' ∧
    inorder r = l1 ++ key :: l2 ∧
    inorder r' = l1 ++ l2.
Proof.
  intros HM Hwf Hs Hin.
  destruct (remove_ok_height M r h key HM Hwf Hs Hin)
    as (r' & h' & l1 & l2 & ? & ? & ? & ? & _).
  by exists r', h', l1, l2.
Qed.

(** ** The invariant along a sequence of calls *)

Lemma sorted_insert (l1 l2 : list Z) k :
  StronglySorted Z.lt (l1 ++ l2) →
  Forall (λ x, x < k) l1 → Forall (λ x, k ≤ x) l2 → k ∉ l2 →
  StronglySorted Z.lt (l1 ++ k :: l2).
Proof.
  intros Hs H1 H2 Hnot.
  apply StronglySorted_app in Hs as (H12 & Hs1 & Hs2).
  assert (Forall (Z.lt k) l2) as H2'.
  { apply Forall_forall. intros x Hx.
    rewrite Forall_forall in H2. specialize (H2 x Hx).
    destruct (decide (x = k)) as [-> |]; [done | lia]. }
  apply StronglySorted_app. split_and!; [| done |].
  - intros x y Hx Hy. rewrite Forall_forall in H1. specialize (H1 x Hx).
    apply elem_of_cons in Hy as [-> | Hy]; [done | by apply H12].
  - apply StronglySorted_cons. done.
Qed.

Lemma sorted_delete (l1 l2 : list Z) k :
  StronglySorted Z.lt (l1 ++ k :: l2) →
  StronglySorted Z.lt (l1 ++ l2) ∧ k ∉ l1 ++ l2.
Proof.
  intros Hs.
  apply StronglySorted_app in Hs as (H12 & Hs1 & Hs2).
  apply StronglySorted_cons in Hs2 as [Hk Hs2]. split.
  - apply StronglySorted_app. split_and!; [| done | done].
    intros x y Hx Hy. apply H12; [done |]. by apply list_elem_of_further.
  - intros [Hin | Hin]%elem_of_app.
    + specialize (H12 k k Hin (list_elem_of_here _ _)). lia.
    + rewrite Forall_forall in Hk. specialize (Hk k Hin). lia.
Qed.

(** One call keeps the invariant and changes the key set as asked. *)
Lemma insert_inv t key :
  3 ≤ order t → btree_inv t → key ∉ tree_keys t →
  ∃ t', insert t (Some key) = (t', None) ∧ order t' = order t ∧
        btree_inv t' ∧ is_Some (root t') ∧
        ∀ x, x ∈ tree_keys t' ↔ x = key ∨ x ∈ tree_keys t.
Proof.
  destruct t as [M [r |]]; unfold btree_inv, tree_keys; cbn [root order];
    intros HM Hinv Hnot.
  - destruct Hinv as [[h Hwf] Hs].
    destruct (insert_ok M r h key HM Hwf)
      as (r' & h' & l1 & l2 & Hins & Hwf' & Hr & Hr' & Hsides).
    destruct (Hsides Hs) as [H1 H2].
    exists (mkBTree M (Some r')). cbn [root order].
    rewrite Hr in Hs, Hnot. rewrite Hr', Hr.
    split; [done |]. split; [done |]. split; [| split; [by eexists |]].
    + split; [by exists h' |]. apply sorted_insert; try done.
      intros Hin. apply Hnot. apply elem_of_app. by right.
    + intros x. rewrite !elem_of_app, elem_of_cons. tauto.
  - exists (mkBTree M (Some (Node [key] []))). cbn [root order].
    split; [done |]. split; [done |]. split; [| split; [by eexists |]].
    + split.
      * exists 0%nat. unfold wf_root. rewrite wf_leaf_iff.
        split; [cbn; lia | done].
      * cbn. repeat constructor.
    + intros x. cbn. rewrite elem_of_cons, elem_of_nil. tauto.
Qed.

Lemma remove_inv t key :
  3 ≤ order t → btree_inv t → key ∈ tree_keys t →
  ∃ t', remove t (Some key) = (t', None) ∧ order t' = order t ∧
        btree_inv t' ∧ is_Some (root t') ∧
        ∀ x, x ∈ tree_keys t' ↔ x ≠ key ∧ x ∈ tree_keys t.
Proof.
  destruct t as [M [r |]]; unfold btree_inv, tree_keys; cbn [root order];
    intros HM Hinv Hin; [| by apply elem_of_nil in Hin].
  destruct Hinv as [[h Hwf] Hs].
  destruct (remove_ok M r h key HM Hwf Hs Hin)
    as (r' & h' & l1 & l2 & Hrem & Hwf' & Hr & Hr').
  exists (mkBTree M (Some r')). cbn [root order].
  rewrite Hr in Hs. rewrite Hr', Hr.
  destruct (sorted_delete _ _ _ Hs) as [Hs' Hnot].
  split; [done |]. split; [done |]. split; [| split; [by eexists |]].
  - split; [by exists h' | done].
  - intros x. rewrite !elem_of_app, elem_of_cons.
    rewrite elem_of_app in Hnot. split.
    + intros Hx. split; [intros -> | ]; tauto.
    + tauto.
Qed.

(** Every valid sequence of calls runs to its end and keeps the invariant;
    the tree holds the keys inserted and not removed since. *)
Lemma run_inv ops :
  ∀ t s,
    3 ≤ order t → btree_inv t → (∀ x, x ∈ tree_keys t ↔ x ∈ s) →
    valid_ops s ops = true →
    ∃ t', run t ops = (t', None) ∧ order t' = order t ∧ btree_inv t' ∧
          (ops ≠ [] → is_Some (root t')) ∧
          ∀ x, x ∈ tree_keys t' ↔ x ∈ fold_left key_set_after ops s.
Proof.
  induction ops as [| o ops IH]; intros t s HM Hinv Hkeys Hvalid.
  - exists t. cbn [run fold_left]. repeat (split; [done |]). done.
  - cbn [valid_ops] in Hvalid. apply andb_true_iff in Hvalid as [Ho Hvalid].
    assert (∃ t1, call t o = (t1, None) ∧ order t1 = order t ∧
                  btree_inv t1 ∧ is_Some (root t1) ∧
                  ∀ x, x ∈ tree_keys t1 ↔ x ∈ key_set_after s o)
      as (t1 & Hcall & Ho1 & Hinv1 & Hroot1 & Hkeys1).
    { destruct o as [key | key]; apply bool_decide_eq_true in Ho.
      - destruct (insert_inv t key HM Hinv) as (t1 & ? & ? & ? & ? & Hk);
          [by rewrite Hkeys |].
        exists t1. repeat (split; [done |]).
        intros x. rewrite Hk. cbn [key_set_after].
        rewrite elem_of_cons, Hkeys. done.
      - destruct (remove_inv t key HM Hinv) as (t1 & ? & ? & ? & ? & Hk);
          [by rewrite Hkeys |].
        exists t1. repeat (split; [done |]).
        intros x. rewrite Hk. cbn [key_set_after].
        rewrite list_elem_of_filter, Hkeys. done. }
    destruct (IH t1 (key_set_after s o)) as (t' & Hrun & Ho' & Hinv' & Hroot' & Hk');
      [by rewrite Ho1 | done | done | done |].
    exists t'. cbn [run fold_left]. rewrite Hcall.
    split; [done |]. split; [by rewrite Ho', Ho1 |]. split; [done |].
    split; [| done].
    intros _. destruct ops as [| o' ops'].
    + cbn [run] in Hrun. by injection Hrun as <-.
    + by apply Hroot'.
Qed.

(** ** The tests decide the invariant *)

Lemma wfb_wf m lo h n : wfb m lo h n = true → wf m lo h n.
Proof.
  revert lo n. induction h as [| h IH]; intros lo [ks cs]; cbn [wfb wf keys children];
    intros [Hlo H]%andb_true_iff; apply Nat.leb_le in Hlo.
  - split; [done |]. by destruct cs.
  - apply andb_true_iff in H as [Hlen Hall]. apply Nat.eqb_eq in Hlen.
    split_and!; [done | done |].
    apply Forall_forall. intros c Hc.
    rewrite forallb_forall in Hall. apply IH, Hall.
    by apply list_elem_of_In.
Qed.

Lemma ascending_sorted l : ascending l = true → StronglySorted Z.lt l.
Proof.
  intros H. apply Sorted_StronglySorted; [exact Z.lt_trans |].
  induction l as [| x l IH]; [constructor |].
  cbn [ascending] in H. destruct l as [| y l'].
  - repeat constructor.
  - apply andb_true_iff in H as [Hxy H]. apply Z.ltb_lt in Hxy.
    constructor; [by apply IH |]. by constructor.
Qed.

Lemma btree_ok_inv t : btree_ok t = true → 3 ≤ order t ∧ btree_inv t.
Proof.
  unfold btree_ok, btree_inv. intros [HM H]%andb_true_iff.
  apply Z.leb_le in HM. split; [done |].
  destruct (root t) as [r |]; [| done].
  apply andb_true_iff in H as [Hwf Hs]. split.
  - exists (height r). by apply wfb_wf.
  - by apply ascending_sorted.
Qed.

Lemma traverse_inorder_inv t :
  btree_inv t → traverse_inorder t = Ok (tree_keys t).
Proof.
  unfold btree_inv, traverse_inorder, tree_keys.
  destruct (root t) as [r |]; [| done].
  intros [[h Hwf] _]. by eapply node_traverse_inorder_wf.
Qed.

Lemma wf_nodes m h :
  ∀ n, wf m m h n → ∀ x, x ∈ nodes n → (m ≤ length (keys x))%nat.
Proof.
  induction h as [| h IH]; intros [ks cs] Hwf x Hx.
  - apply wf_leaf_iff in Hwf as [Hlo ->]. cbn in Hx.
    apply elem_of_cons in Hx as [-> | Hx]; [done |].
    by apply elem_of_nil in Hx.
  - apply wf_internal_iff in Hwf as (Hlo & _ & Hall). cbn [nodes] in Hx.
    apply elem_of_cons in Hx as [-> | Hx]; [done |].
    apply elem_of_concat in Hx as (l & Hl & Hx).
    apply list_elem_of_fmap in Hl as (c & -> & Hc).
    rewrite Forall_forall in Hall. by eapply IH; [apply Hall |].
Qed.

Lemma remove_descend_absent key n :
  shaped n = true → key ∉ all_keys n → remove_descend key n = Ok None.
Proof.
  induction n as [ks cs IH] using BTreeNode_ind. intros Hshape Hnot.
  cbn [shaped] in Hshape. apply andb_true_iff in Hshape as [Hlen Hall].
  assert (key ∉ ks) as Hks.
  { intros Hin. apply Hnot. simpl. apply elem_of_app. by left. }
  cbn [remove_descend].
  assert (match cs with
          | [] => Ok None
          | _ :: _ =>
              match map (λ c0, (c0, remove_descend key c0)) cs
                      !! scan key ks with
              | Some (c0, Ok (Some (path0, i))) =>
                  Ok (Some ((c0, scan key ks) :: path0, i))
              | Some (_, Ok None) => Ok None
              | Some (_, Raise e) => Raise e
              | None => Raise IndexError
              end
          end = Ok None) as Hdown.
  { destruct cs as [| c0 cs']; [done |].
    apply Nat.ltb_lt in Hlen. pose proof (scan_le key ks) as Hle.
    destruct (lookup_lt_is_Some_2 (c0 :: cs') (scan key ks)) as [c Hc];
      [lia |].
    rewrite list_lookup_fmap, Hc. cbn.
    rewrite (proj1 (Forall_lookup _ _) IH _ _ Hc); [done | |].
    - rewrite forallb_forall in Hall. apply Hall.
      apply list_elem_of_In. by eapply list_elem_of_lookup_2.
    - intros Hin. apply Hnot. eapply all_keys_child; [| exact Hin].
      by eapply list_elem_of_lookup_2. }
  rewrite Hdown.
  destruct (ks !! scan key ks) as [k |] eqn:Hk; [| done].
  by rewrite (scan_absent _ _ _ Hks Hk).
Qed.

(** ** The scenarios of the test suite *)

Example insert_splits_filled_leaf :
  run (mkBTree 5 None)
    [Insert 1; Insert 2; Insert 3; Insert 4; Insert 5; Insert 6; Insert 7;
     Insert 8]
  = (mkBTree 5
       (Some (Node [3; 6] [Node [1; 2] []; Node [4; 5] []; Node [7; 8] []])),
     None).
Proof. reflexivity. Qed.

Example removal_fixes_by_merging_once :
  run (mkBTree 7 None)
    [Insert 1; Insert 2; Insert 3; Insert 4; Insert 5; Insert 6; Insert 7;
     Insert 8; Insert 9; Insert 10; Insert 11; Remove 9]
  = (mkBTree 7
       (Some (Node [4] [Node [1; 2; 3] []; Node [5; 6; 7; 8; 10; 11] []])),
     None).
Proof. reflexivity. Qed.

Example no_fixing_removals :
  run (mkBTree 5 None)
    [Insert 3; Insert 4; Insert 5; Insert 6; Insert 7; Insert 1; Insert 2;
     Insert 8; Insert 9; Remove 4; Remove 1; Remove 8]
  = (mkBTree 5 (Some (Node [5] [Node [2; 3] []; Node [6; 7; 9] []])), None).
Proof. reflexivity. Qed.

Example none_keys_are_rejected :
  search (mkBTree 5 None) None = Raise (ValueError NoneKey) ∧
  insert (mkBTree 5 None) None = (mkBTree 5 None, Some (ValueError NoneKey)) ∧
  remove (mkBTree 5 None) None = (mkBTree 5 None, Some (ValueError NoneKey)).
Proof. repeat split. Qed.

(** * The claims *)

(** C1 (fails on the code): for a tree that has a root and a key stored in
    none of its nodes, [search] does not return the not-found result [None]:
    the descent never stops at a leaf, reads a child the leaf does not have,
    and raises IndexError. *)
Theorem search_absent_raises t r target :
  root t = Some r → target ∉ all_keys r →
  search t (Some target) = Raise IndexError.
Proof.
  intros Hr Hnot. unfold search. rewrite Hr.
  by apply node_search_absent.
Qed.

Lemma search_absent_raises_witness :
  search (mkBTree 3 (Some (Node [1] []))) (Some 2) = Raise IndexError.
Proof.
  apply (search_absent_raises _ (Node [1] [])).
  - reflexivity.
  - apply (bool_decide_unpack _). vm_compute. exact I.
Defined.

(** Only the tree without a root answers an absent key with [None]. *)
Lemma search_rootless M target : search (mkBTree M None) (Some target) = Ok None.
Proof. reflexivity. Qed.

(** C2: for every order of at least 3 and every sequence of insertions of
    new keys and removals of present keys from the empty tree, all calls
    return, and [traverse_inorder] then yields exactly the keys inserted and
    not removed since, in strictly ascending order. *)
Theorem traverse_inorder_sorted M ops :
  3 ≤ M → valid_ops [] ops = true →
  ∃ t l,
    run (mkBTree M None) ops = (t, None) ∧
    traverse_inorder t = Ok l ∧
    StronglySorted Z.lt l ∧
    ∀ key, key ∈ l ↔ key ∈ final_key_set ops.
Proof.
  intros HM Hvalid.
  destruct (run_inv ops (mkBTree M None) [] HM I ltac:(done) Hvalid)
    as (t & Hrun & _ & Hinv & _ & Hkeys).
  exists t, (tree_keys t).
  split; [done |]. split; [by apply traverse_inorder_inv |].
  split; [| done].
  unfold btree_inv, tree_keys in *. destruct (root t); [by destruct Hinv |].
  constructor.
Qed.

Lemma traverse_inorder_sorted_witness :
  ∃ t l,
    run (mkBTree 4 None)
      [Insert 5; Insert 1; Insert 9; Insert 3; Insert 7; Remove 5; Insert 4;
       Insert 8; Remove 1] = (t, None) ∧
    traverse_inorder t = Ok l ∧
    StronglySorted Z.lt l ∧
    ∀ key, key ∈ l ↔
           key ∈ final_key_set
             [Insert 5; Insert 1; Insert 9; Insert 3; Insert 7; Remove 5;
              Insert 4; Insert 8; Remove 1].
Proof.
  apply (traverse_inorder_sorted 4); [lia | vm_compute; reflexivity].
Defined.

(** C3: in a tree reached from the empty tree by such a sequence, [search]
    for a key that is in the tree returns a node of the tree whose keys
    contain it. *)
Theorem search_present M ops key :
  3 ≤ M → valid_ops [] ops = true → key ∈ final_key_set ops →
  ∃ t found,
    run (mkBTree M None) ops = (t, None) ∧
    search t (Some key) = Ok (Some found) ∧
    key ∈ keys found ∧ found ∈ tree_nodes t.
Proof.
  intros HM Hvalid Hin.
  destruct (run_inv ops (mkBTree M None) [] HM I ltac:(done) Hvalid)
    as (t & Hrun & _ & Hinv & _ & Hkeys).
  apply Hkeys in Hin.
  unfold btree_inv, tree_keys in *.
  destruct (root t) as [r |] eqn:Hroot; [| by apply elem_of_nil in Hin].
  destruct Hinv as [[h Hwf] Hs].
  destruct (node_search_present _ key h _ r Hwf Hs Hin)
    as (found & Hsearch & Hk & Hn).
  exists t, found. unfold search, tree_nodes. rewrite Hroot. done.
Qed.

Lemma search_present_witness :
  ∃ t found,
    run (mkBTree 3 None)
      [Insert 1; Insert 2; Insert 3; Insert 4; Insert 5; Remove 2] = (t, None) ∧
    search t (Some 4) = Ok (Some found) ∧
    4 ∈ keys found ∧ found ∈ tree_nodes t.
Proof.
  apply (search_present 3); [lia | vm_compute; reflexivity |].
  apply (bool_decide_unpack _). vm_compute. exact I.
Defined.

(** C4: for a tree whose internal nodes have more children than keys and a
    key stored in none of its nodes, [remove] raises the ValueError of a
    non-existing key, and the tree it leaves is the tree it was given. *)
Theorem remove_absent_unchanged t key :
  tree_shaped t = true → key ∉ tree_all_keys t →
  remove t (Some key) = (t, Some (ValueError (NonExistingKey key))).
Proof.
  unfold tree_shaped, tree_all_keys, remove.
  destruct (root t) as [r |]; [| done].
  intros Hshape Hnot. by rewrite remove_descend_absent.
Qed.

Lemma remove_absent_unchanged_witness :
  remove (mkBTree 7 (Some (Node [4] [Node [1; 2; 3] []; Node [5; 6; 7] []])))
    (Some 9)
  = (mkBTree 7 (Some (Node [4] [Node [1; 2; 3] []; Node [5; 6; 7] []])),
     Some (ValueError (NonExistingKey 9))).
Proof.
  apply remove_absent_unchanged.
  - reflexivity.
  - apply (bool_decide_unpack _). vm_compute. exact I.
Defined.

(** C8: for every order of at least 3, odd or even, after every such
    sequence of calls each node below the root holds at least
    [(order - 1) // 2] keys. *)
Theorem occupancy_bound M ops :
  3 ≤ M → valid_ops [] ops = true →
  ∃ t,
    run (mkBTree M None) ops = (t, None) ∧
    ∀ n, n ∈ non_root_nodes t → (M - 1) / 2 ≤ Z.of_nat (length (keys n)).
Proof.
  intros HM Hvalid.
  destruct (run_inv ops (mkBTree M None) [] HM I ltac:(done) Hvalid)
    as (t & Hrun & Ho & Hinv & _ & _).
  exists t. split; [done |]. intros n Hn.
  cbn [order] in Ho.
  destruct (min_keys_spec M HM) as (Hmid & _ & _). rewrite Hmid.
  unfold btree_inv, non_root_nodes in *.
  destruct (root t) as [r |]; [| by apply elem_of_nil in Hn].
  destruct Hinv as [[h Hwf] _]. rewrite Ho in Hwf.
  apply elem_of_concat in Hn as (l & Hl & Hn).
  apply list_elem_of_fmap in Hl as (c & -> & Hc).
  destruct r as [ks cs]. cbn [children] in Hc.
  destruct h as [| h].
  - apply wf_leaf_iff in Hwf as [_ ->]. by apply elem_of_nil in Hc.
  - apply wf_internal_iff in Hwf as (_ & _ & Hall).
    rewrite Forall_forall in Hall.
    apply inj_le. by eapply wf_nodes; [apply Hall |].
Qed.

Lemma occupancy_bound_witness :
  ∃ t,
    run (mkBTree 4 None)
      [Insert 1; Insert 2; Insert 3; Insert 4; Insert 5; Insert 6; Insert 7;
       Remove 4; Remove 1; Remove 6] = (t, None) ∧
    ∀ n, n ∈ non_root_nodes t → (4 - 1) / 2 ≤ Z.of_nat (length (keys n)).
Proof.
  apply (occupancy_bound 4); [lia | vm_compute; reflexivity].
Defined.

(** C9: in a well-formed tree that holds [key], [insert(key)] returns
    without an exception, and the traversal then yields [key] twice in a
    row, where it yielded it once. *)
Theorem insert_duplicate t key :
  btree_ok t = true → key ∈ tree_keys t →
  ∃ t' l1 l2,
    insert t (Some key) = (t', None) ∧
    traverse_inorder t = Ok (l1 ++ key :: l2) ∧
    traverse_inorder t' = Ok (l1 ++ key :: key :: l2).
Proof.
  intros [HM Hinv]%btree_ok_inv Hin.
  rewrite (traverse_inorder_inv t Hinv).
  destruct t as [M [r |]]; unfold btree_inv, tree_keys in *;
    cbn [root order] in *; [| by apply elem_of_nil in Hin].
  destruct Hinv as [[h Hwf] Hs].
  destruct (insert_ok M r h key HM Hwf)
    as (r' & h' & l1 & l2 & Hins & Hwf' & Hr & Hr' & Hsides).
  destruct (Hsides Hs) as [H1 H2].
  rewrite Hr in Hs, Hin.
  assert (∃ l2', l2 = key :: l2') as [l2' ->].
  { apply elem_of_app in Hin as [Hin | Hin];
      [by apply Forall_lt_not_in in H1 |].
    destruct l2 as [| y l2']; [by apply elem_of_nil in Hin |].
    exists l2'. f_equal.
    apply StronglySorted_app_1_r, StronglySorted_cons in Hs as [Hy _].
    apply Forall_cons in H2 as [Hy' _].
    apply elem_of_cons in Hin as [-> | Hin]; [done |].
    rewrite Forall_forall in Hy. specialize (Hy key Hin). lia. }
  exists (mkBTree M (Some r')), l1, l2'.
  split; [done |]. split; [by rewrite Hr |].
  unfold traverse_inorder. cbn [root].
  rewrite (node_traverse_inorder_wf _ _ _ _ Hwf'). by rewrite Hr'.
Qed.

Lemma insert_duplicate_witness :
  ∃ t' l1 l2,
    insert (mkBTree 3 (Some (Node [2; 4] [Node [1] []; Node [3] []; Node [5] []])))
      (Some 4) = (t', None) ∧
    traverse_inorder
      (mkBTree 3 (Some (Node [2; 4] [Node [1] []; Node [3] []; Node [5] []])))
    = Ok (l1 ++ 4 :: l2) ∧
    traverse_inorder t' = Ok (l1 ++ 4 :: 4 :: l2).
Proof.
  apply insert_duplicate.
  - vm_compute. reflexivity.
  - apply (bool_decide_unpack _). vm_compute. exact I.
Defined.

(** C10: removing the only key of a tree whose root is a leaf leaves a root
    with no keys and no children, not a tree without a root, and the
    traversal of that tree yields nothing. *)
Theorem remove_last_key_keeps_root M key :
  remove (mkBTree M (Some (Node [key] []))) (Some key)
  = (mkBTree M (Some (Node [] [])), None) ∧
  traverse_inorder (mkBTree M (Some (Node [] []))) = Ok [].
Proof.
  split; [| reflexivity].
  unfold remove. cbn [root remove_descend scan].
  rewrite Z.gtb_ltb, Z.ltb_irrefl. cbn. rewrite Z.eqb_refl. reflexivity.
Qed.

(** ** The split *)

Lemma replace_and_insert_after {A} (cs : list A) i l r :
  (i < length cs)%nat →
  Py.insert (S i) r (<[i := l]> cs) = take i cs ++ l :: r :: drop (S i) cs.
Proof.
  intros Hi. destruct (lookup_lt_is_Some_2 cs i Hi) as [x Hx].
  apply list_elem_of_split_length in Hx as (S1 & S2 & -> & HS).
  rewrite insert_mid by done.
  rewrite (cons_middle l S1 S2), app_assoc.
  rewrite Py_insert_mid by list_len.
  rewrite take_mid by done.
  rewrite (cons_middle x S1 S2), app_assoc.
  rewrite drop_mid by list_len.
  by rewrite <- app_assoc.
Qed.

(** C5: in the repair pass of [insert], a node with more than [order - 1]
    keys is split at [mid = (order - 1) // 2]: the key at [mid] goes up, the
    left node takes the keys before it and the children up to [mid], the
    right node takes the rest; under a parent the promoted key and the two
    nodes take the place of the node, and at the root they form a new
    root. *)
Theorem fix_insert_splits order curr parent i above :
  1 ≤ order → order - 1 < Z.of_nat (length (keys curr)) →
  (i < length (children parent))%nat →
  ∃ k,
    keys curr !! Z.to_nat ((order - 1) / 2) = Some k ∧
    fix_insert_loop order curr []
    = (Node [k] [split_left (Z.to_nat ((order - 1) / 2)) curr;
                 split_right (Z.to_nat ((order - 1) / 2)) curr], None) ∧
    fix_insert_loop order curr ((parent, i) :: above)
    = fix_insert_loop order
        (promote_into parent i
           (split_left (Z.to_nat ((order - 1) / 2)) curr) k
           (split_right (Z.to_nat ((order - 1) / 2)) curr))
        above.
Proof.
  intros Ho Hfull Hi.
  assert (0 ≤ (order - 1) / 2) as Hmid0 by (apply Z.div_pos; lia).
  assert ((order - 1) / 2 ≤ order - 1) as Hmid1
    by (apply Z.div_le_upper_bound; lia).
  set (mid := Z.to_nat ((order - 1) / 2)).
  assert ((order - 1) / 2 = Z.of_nat mid) as Hmid by (unfold mid; lia).
  destruct (lookup_lt_is_Some_2 (keys curr) mid) as [k Hk]; [lia |].
  exists k. split; [done |].
  unfold split_left, split_right, promote_into. split.
  - cbn [fix_insert_loop].
    destruct (Z.leb_spec (Z.of_nat (length (keys curr))) (order - 1));
      [lia |].
    rewrite Hmid, Py_get_nat, Hk, !Py_slice_to_nat.
    replace (Z.of_nat mid + 1) with (Z.of_nat (S mid)) by lia.
    by rewrite !Py_slice_to_nat, !Py_slice_from_nat.
  - cbn [fix_insert_loop].
    destruct (Z.leb_spec (Z.of_nat (length (keys curr))) (order - 1));
      [lia |].
    rewrite Hmid, Py_get_nat, Hk, !Py_slice_to_nat.
    replace (Z.of_nat mid + 1) with (Z.of_nat (S mid)) by lia.
    rewrite !Py_slice_to_nat, !Py_slice_from_nat.
    destruct (Nat.ltb_spec i (length (children parent))); [| lia].
    rewrite replace_and_insert_after by done. reflexivity.
Qed.

Lemma fix_insert_splits_witness :
  ∃ k,
    keys (Node [1; 2; 3; 4; 5] []) !! Z.to_nat ((5 - 1) / 2) = Some k ∧
    fix_insert_loop 5 (Node [1; 2; 3; 4; 5] []) []
    = (Node [k]
         [split_left (Z.to_nat ((5 - 1) / 2)) (Node [1; 2; 3; 4; 5] []);
          split_right (Z.to_nat ((5 - 1) / 2)) (Node [1; 2; 3; 4; 5] [])],
       None) ∧
    fix_insert_loop 5 (Node [1; 2; 3; 4; 5] [])
      [(Node [6] [Node [0] []; Node [1; 2; 3; 4] []], 1%nat)]
    = fix_insert_loop 5
        (promote_into (Node [6] [Node [0] []; Node [1; 2; 3; 4] []]) 1
           (split_left (Z.to_nat ((5 - 1) / 2)) (Node [1; 2; 3; 4; 5] [])) k
           (split_right (Z.to_nat ((5 - 1) / 2)) (Node [1; 2; 3; 4; 5] [])))
        [].
Proof.
  apply (fix_insert_splits 5 (Node [1; 2; 3; 4; 5] [])
           (Node [6] [Node [0] []; Node [1; 2; 3; 4] []]) 1 []).
  - lia.
  - simpl. lia.
  - simpl. lia.
Defined.

(** ** The successor swap *)

Lemma leftmost_spec n :
  ∀ acc, ∃ below,
    leftmost n acc = (leftmost_leaf n, below ++ acc) ∧
    children (leftmost_leaf n) = [] ∧
    plug below (Node (tail (keys (leftmost_leaf n))) []) = delete_first_key n.
Proof.
  induction n as [ks cs IH] using BTreeNode_ind. intros acc.
  destruct cs as [| c cs'].
  - exists []. done.
  - apply Forall_cons in IH as [IHc _].
    destruct (IHc ((Node ks (c :: cs'), 0%nat) :: acc))
      as (below & Hl & Hleaf & Hplug).
    exists (below ++ [(Node ks (c :: cs'), 0%nat)]).
    cbn [leftmost leftmost_leaf delete_first_key].
    split_and!; [by rewrite Hl, <- app_assoc | done |].
    rewrite plug_snoc, Hplug. done.
Qed.

Lemma remove_descend_found key n :
  ∀ path idx acc target above,
    remove_descend key n = Ok (Some (path, idx)) →
    zip_up n path acc = (target, above) →
    keys target !! idx = Some key.
Proof.
  induction n as [ks cs IH] using BTreeNode_ind.
  intros path idx acc target above Hd Hzip. cbn [remove_descend] in Hd.
  assert (∀ r,
            match cs with
            | [] => Ok None
            | _ :: _ =>
                match map (λ c0, (c0, remove_descend key c0)) cs
                        !! scan key ks with
                | Some (c0, Ok (Some (path0, i))) =>
                    Ok (Some ((c0, scan key ks) :: path0, i))
                | Some (_, Ok None) => Ok None
                | Some (_, Raise e) => Raise e
                | None => Raise IndexError
                end
            end = r → r = Ok (Some (path, idx)) →
            keys target !! idx = Some key) as Hdown.
  { intros r Hr ->. destruct cs as [| c0 cs']; [done |].
    rewrite list_lookup_fmap in Hr.
    destruct ((c0 :: cs') !! scan key ks) as [c |] eqn:Hc; [| done].
    cbn in Hr. destruct (remove_descend key c) as [[[p i] |] | e] eqn:Hdc;
      [| done | done].
    injection Hr as <- <-. cbn [zip_up] in Hzip.
    exact (proj1 (Forall_lookup _ _) IH _ _ Hc _ _ _ _ _ Hdc Hzip). }
  destruct (ks !! scan key ks) as [k |] eqn:Hk; [| by eapply Hdown].
  destruct (Z.eqb_spec key k) as [-> | Hne]; [| by eapply Hdown].
  injection Hd as <- <-. cbn [zip_up] in Hzip. injection Hzip as <- <-.
  done.
Qed.

(** C6: when the descent of [remove] ends at an internal node, the key found
    there is overwritten with the first key of the leftmost leaf under the
    child to its right, that key is deleted from the leaf, and the repair
    pass starts at that leaf. *)
Theorem remove_internal_uses_successor
    t r key path idx target above child successor ks' :
  root t = Some r →
  remove_descend key r = Ok (Some (path, idx)) →
  zip_up r path [] = (target, above) →
  children target !! S idx = Some child →
  keys (leftmost_leaf child) = successor :: ks' →
  keys target !! idx = Some key ∧
  ∃ frames,
    remove t (Some key) = _fix_remove t (Node ks' []) frames ∧
    plug frames (Node ks' [])
    = plug above
        (Node (<[idx := successor]> (keys target))
              (<[S idx := delete_first_key child]> (children target))).
Proof.
  intros Hr Hd Hzip Hchild Hsucc.
  split; [by eapply remove_descend_found |].
  destruct (leftmost_spec child []) as (below & Hl & Hleaf & Hplug).
  rewrite app_nil_r in Hl. rewrite Hsucc in Hplug. cbn [tail] in Hplug.
  exists (below ++
          (Node (<[idx := successor]> (keys target)) (children target), S idx)
          :: above).
  split.
  - unfold remove. rewrite Hr, Hd, Hzip.
    destruct (children target) as [| c0 cs'] eqn:Hcs; [done |].
    rewrite Hchild, Hl, Hsucc, Hleaf. done.
  - unfold plug. rewrite fold_left_app. cbn [fold_left].
    fold (plug below (Node ks' [])). rewrite Hplug. done.
Qed.

Lemma remove_internal_uses_successor_witness :
  keys (Node [2; 4] [Node [1] []; Node [3] []; Node [5] []]) !! 0%nat = Some 2 ∧
  ∃ frames,
    remove (mkBTree 3 (Some (Node [2; 4] [Node [1] []; Node [3] []; Node [5] []])))
      (Some 2)
    = _fix_remove
        (mkBTree 3 (Some (Node [2; 4] [Node [1] []; Node [3] []; Node [5] []])))
        (Node [] []) frames ∧
    plug frames (Node [] [])
    = plug []
        (Node (<[0%nat := 3]> (keys (Node [2; 4] [Node [1] []; Node [3] []; Node [5] []])))
              (<[1%nat := delete_first_key (Node [3] [])]>
                 (children (Node [2; 4] [Node [1] []; Node [3] []; Node [5] []])))).
Proof.
  apply (remove_internal_uses_successor
           (mkBTree 3 (Some (Node [2; 4] [Node [1] []; Node [3] []; Node [5] []])))
           (Node [2; 4] [Node [1] []; Node [3] []; Node [5] []]) 2 [] 0
           (Node [2; 4] [Node [1] []; Node [3] []; Node [5] []]) []
           (Node [3] []) 3 []); reflexivity.
Defined.

(** ** The merge *)

(** C7 as stated fails: a middle child with a left and a right sibling, none
    of them populous, is merged with the right one. *)
Lemma merge_left_preferred_fails :
  remove (mkBTree 3 (Some (Node [2; 4] [Node [1] []; Node [3] []; Node [5] []])))
    (Some 3)
  = (mkBTree 3 (Some (Node [2] [Node [1] []; Node [4; 5] []])), None) ∧
  fix_remove_step 3 false (Node [] [])
    (Node [2; 4] [Node [1] []; Node [3] []; Node [5] []]) 1 []
  = Up (Node [2] [Node [1] []; Node [4; 5] []]) true ∧
  merge_left_preferred (Node [] [])
    (Node [2; 4] [Node [1] []; Node [3] []; Node [5] []]) 1
  = Some (Node [4] [Node [1; 2] []; Node [5] []]) ∧
  Node [2] [Node [1] []; Node [4; 5] []]
  ≠ Node [4] [Node [1; 2] []; Node [5] []].
Proof. split_and!; [reflexivity | reflexivity | reflexivity | discriminate]. Qed.

(** C7, amended: when no sibling is populous, the node is merged with its
    right sibling whenever it has one, and with its left sibling only when it
    is the last child; the survivor takes the separator and the keys and
    children of the other node, and the parent loses the separator and the
    slot of the other node. *)
Theorem merge_prefers_right order left_bound curr parent i rest :
  length (children parent) = S (length (keys parent)) →
  (2 ≤ length (children parent))%nat →
  (i < length (children parent))%nat →
  (∀ i' l, i = S i' → children parent !! i' = Some l →
           _is_node_populous order false l = false) →
  (∀ r, children parent !! S i = Some r →
        _is_node_populous order false r = false) →
  ∃ parent' b,
    fix_remove_step order left_bound curr parent i rest = Up parent' b ∧
    ((∃ r sep,
        children parent !! S i = Some r ∧ keys parent !! i = Some sep ∧
        parent' = Node (delete i (keys parent))
                       (<[i := absorb curr sep r]>
                          (delete (S i) (children parent)))) ∨
     (∃ i' l sep,
        S i = length (children parent) ∧ i = S i' ∧
        children parent !! i' = Some l ∧ keys parent !! i' = Some sep ∧
        parent' = Node (delete i' (keys parent))
                       (<[i' := absorb l sep curr]>
                          (delete i (children parent))))).
Proof.
  intros Hlen H2 Hi Hleft Hright.
  assert (∀ lv,
            (∀ i', i = S i' → ∃ l, lv = Fresh l ∧ children parent !! i' = Some l) →
            ∃ parent' b,
              right_step order curr parent i rest lv = Up parent' b ∧
              ((∃ r sep,
                  children parent !! S i = Some r ∧
                  keys parent !! i = Some sep ∧
                  parent' = Node (delete i (keys parent))
                                 (<[i := absorb curr sep r]>
                                    (delete (S i) (children parent)))) ∨
               (∃ i' l sep,
                  S i = length (children parent) ∧ i = S i' ∧
                  children parent !! i' = Some l ∧
                  keys parent !! i' = Some sep ∧
                  parent' = Node (delete i' (keys parent))
                                 (<[i' := absorb l sep curr]>
                                    (delete i (children parent))))))
    as Hstep.
  { intros lv Hlv. unfold right_step, merge_step.
    destruct (Nat.eqb_spec (S i) (length (children parent))) as [Hlast | Hnot];
      cbn [negb].
    - destruct i as [| i']; [lia |].
      destruct (Hlv i' eq_refl) as (l & -> & Hl).
      destruct (lookup_lt_is_Some_2 (keys parent) i') as [sep Hsep]; [lia |].
      replace (S i' - 1)%nat with i' by lia. rewrite Hsep.
      eexists _, _. split; [reflexivity |]. right.
      by exists i', l, sep.
    - destruct (lookup_lt_is_Some_2 (children parent) (S i)) as [r Hr];
        [lia |].
      rewrite Hr, (Hright r Hr).
      destruct (lookup_lt_is_Some_2 (keys parent) i) as [sep Hsep]; [lia |].
      rewrite Hsep. eexists _, _. split; [reflexivity |]. left.
      by exists r, sep. }
  unfold fix_remove_step. destruct i as [| i'].
  - apply Hstep. intros ? [=].
  - destruct (lookup_lt_is_Some_2 (children parent) i') as [l Hl]; [lia |].
    rewrite Hl, (Hleft i' l eq_refl Hl).
    apply Hstep. intros ? [= <-]. eauto.
Qed.

Lemma merge_prefers_right_witness :
  ∃ parent' b,
    fix_remove_step 3 false (Node [] [])
      (Node [2; 4] [Node [1] []; Node [3] []; Node [5] []]) 1 []
    = Up parent' b ∧
    ((∃ r sep,
        children (Node [2; 4] [Node [1] []; Node [3] []; Node [5] []]) !! 2%nat
        = Some r ∧
        keys (Node [2; 4] [Node [1] []; Node [3] []; Node [5] []]) !! 1%nat
        = Some sep ∧
        parent'
        = Node (delete 1%nat (keys (Node [2; 4] [Node [1] []; Node [3] []; Node [5] []])))
               (<[1%nat := absorb (Node [] []) sep r]>
                  (delete 2%nat
                     (children (Node [2; 4] [Node [1] []; Node [3] []; Node [5] []]))))) ∨
     (∃ i' l sep,
        2%nat = length (children (Node [2; 4] [Node [1] []; Node [3] []; Node [5] []])) ∧
        1%nat = S i' ∧
        children (Node [2; 4] [Node [1] []; Node [3] []; Node [5] []]) !! i'
        = Some l ∧
        keys (Node [2; 4] [Node [1] []; Node [3] []; Node [5] []]) !! i'
        = Some sep ∧
        parent'
        = Node (delete i' (keys (Node [2; 4] [Node [1] []; Node [3] []; Node [5] []])))
               (<[i' := absorb l sep (Node [] [])]>
                  (delete 1%nat
                     (children (Node [2; 4] [Node [1] []; Node [3] []; Node [5] []])))))).
Proof.
  apply (merge_prefers_right 3 false (Node [] [])
           (Node [2; 4] [Node [1] []; Node [3] []; Node [5] []]) 1 []).
  - reflexivity.
  - simpl. lia.
  - simpl. lia.
  - intros i' l [= <-] [= <-]. reflexivity.
  - intros r [= <-]. reflexivity.
Defined.

(** * Further properties *)

(** ** The tests and the invariant agree *)

Lemma wf_height m lo h n : wf m lo h n → height n = h.
Proof.
  revert lo n. induction h as [| h IH]; intros lo [ks cs] Hwf.
  - apply wf_leaf_iff in Hwf as [_ ->]. done.
  - apply wf_internal_iff in Hwf as (_ & Hlen & Hall).
    destruct cs as [| c cs']; [done |].
    apply Forall_cons in Hall as [Hc _]. cbn [height]. f_equal. by eapply IH.
Qed.

Lemma wf_wfb m lo h n : wf m lo h n → wfb m lo h n = true.
Proof.
  revert lo n. induction h as [| h IH]; intros lo [ks cs] Hwf.
  - apply wf_leaf_iff in Hwf as [Hlo ->]. cbn [wfb keys children].
    apply andb_true_iff. split; [by apply Nat.leb_le | done].
  - apply wf_internal_iff in Hwf as (Hlo & Hlen & Hall). cbn [wfb keys children].
    rewrite !andb_true_iff. split_and!.
    + by apply Nat.leb_le.
    + by apply Nat.eqb_eq.
    + apply forallb_forall. intros c Hc. eapply IH.
      rewrite Forall_forall in Hall. apply Hall. by apply list_elem_of_In.
Qed.

Lemma sorted_ascending l : StronglySorted Z.lt l → ascending l = true.
Proof.
  induction l as [| x l IH]; [done |].
  intros [Hx Hs]%StronglySorted_cons. cbn [ascending].
  destruct l as [| y l']; [done |].
  apply andb_true_iff. split; [| by apply IH].
  apply Z.ltb_lt. by apply Forall_cons in Hx as [? _].
Qed.

Lemma btree_inv_ok t : 3 ≤ order t → btree_inv t → btree_ok t = true.
Proof.
  unfold btree_inv, btree_ok. intros HM Hinv.
  apply andb_true_iff. split; [by apply Z.leb_le |].
  destruct (root t) as [r |]; [| done].
  destruct Hinv as [[h Hwf] Hs].
  apply andb_true_iff. split; [| by apply sorted_ascending].
  apply wf_wfb. unfold wf_root in Hwf.
  by rewrite (wf_height _ _ _ _ Hwf).
Qed.

Lemma tree_balanced_wf t r :
  tree_balanced t = true → root t = Some r →
  3 ≤ order t ∧ wf_root (min_keys (order t)) (height r) r.
Proof.
  unfold tree_balanced. intros [HM H]%andb_true_iff Hr. rewrite Hr in H.
  split; [by apply Z.leb_le | by apply wfb_wf].
Qed.

Lemma btree_ok_balanced t : btree_ok t = true → tree_balanced t = true.
Proof.
  unfold btree_ok, tree_balanced. intros [HM H]%andb_true_iff.
  rewrite HM. cbn [andb]. destruct (root t); [| done].
  by apply andb_true_iff in H as [? _].
Qed.

(** ** One call on a well-formed tree *)

(** X1: [insert] of a new key into any tree that passes [btree_ok], built
    by calls or handed to the constructor, returns, gives a tree that
    passes [btree_ok] again, and adds that key and no other. *)
Theorem insert_keeps_btree_ok t key :
  btree_ok t = true → key ∉ tree_keys t →
  ∃ t',
    insert t (Some key) = (t', None) ∧
    btree_ok t' = true ∧ order t' = order t ∧
    ∀ x, x ∈ tree_keys t' ↔ x = key ∨ x ∈ tree_keys t.
Proof.
  intros [HM Hinv]%btree_ok_inv Hnot.
  destruct (insert_inv t key HM Hinv Hnot) as (t' & Hins & Ho & Hinv' & _ & Hk).
  exists t'. split; [done |]. split; [| done].
  apply btree_inv_ok; [by rewrite Ho | done].
Qed.

Lemma insert_keeps_btree_ok_witness :
  ∃ t',
    insert (mkBTree 4 (Some (Node [3; 6] [Node [1; 2] []; Node [4; 5] [];
                                          Node [7; 8; 9] []])))
      (Some 10) = (t', None) ∧
    btree_ok t' = true ∧
    order t' = order (mkBTree 4 (Some (Node [3; 6] [Node [1; 2] []; Node [4; 5] [];
                                                    Node [7; 8; 9] []]))) ∧
    ∀ x, x ∈ tree_keys t' ↔
         x = 10 ∨
         x ∈ tree_keys (mkBTree 4 (Some (Node [3; 6] [Node [1; 2] []; Node [4; 5] [];
                                                      Node [7; 8; 9] []]))).
Proof.
  apply insert_keeps_btree_ok.
  - vm_compute. reflexivity.
  - apply (bool_decide_unpack _). vm_compute. exact I.
Defined.

(** X2: [remove] of a key of any tree that passes [btree_ok] returns, gives
    a tree that passes [btree_ok] again, and takes away that key and no
    other. *)
Theorem remove_keeps_btree_ok t key :
  btree_ok t = true → key ∈ tree_keys t →
  ∃ t',
    remove t (Some key) = (t', None) ∧
    btree_ok t' = true ∧ order t' = order t ∧
    ∀ x, x ∈ tree_keys t' ↔ x ≠ key ∧ x ∈ tree_keys t.
Proof.
  intros [HM Hinv]%btree_ok_inv Hin.
  destruct (remove_inv t key HM Hinv Hin) as (t' & Hrem & Ho & Hinv' & _ & Hk).
  exists t'. split; [done |]. split; [| done].
  apply btree_inv_ok; [by rewrite Ho | done].
Qed.

Lemma remove_keeps_btree_ok_witness :
  ∃ t',
    remove (mkBTree 4 (Some (Node [3; 6] [Node [1; 2] []; Node [4; 5] [];
                                          Node [7; 8; 9] []])))
      (Some 6) = (t', None) ∧
    btree_ok t' = true ∧
    order t' = order (mkBTree 4 (Some (Node [3; 6] [Node [1; 2] []; Node [4; 5] [];
                                                    Node [7; 8; 9] []]))) ∧
    ∀ x, x ∈ tree_keys t' ↔
         x ≠ 6 ∧
         x ∈ tree_keys (mkBTree 4 (Some (Node [3; 6] [Node [1; 2] []; Node [4; 5] [];
                                                      Node [7; 8; 9] []]))).
Proof.
  apply remove_keeps_btree_ok.
  - vm_compute. reflexivity.
  - apply (bool_decide_unpack _). vm_compute. exact I.
Defined.

(** X3: one [insert] into a balanced tree leaves its height as it was or
    one more; this holds whether or not the key is already there. *)
Theorem insert_height t key :
  tree_balanced t = true →
  ∃ t',
    insert t (Some key) = (t', None) ∧
    (tree_height t' = tree_height t ∨ tree_height t' = S (tree_height t)).
Proof.
  intros Hb. destruct t as [M [r |]].
  - destruct (tree_balanced_wf _ r Hb eq_refl) as [HM Hwf]. cbn [order] in *.
    destruct (insert_ok_height M r _ key HM Hwf)
      as (r' & h' & l1 & l2 & Hins & Hwf' & _ & _ & _ & Hh).
    exists (mkBTree M (Some r')). split; [done |].
    unfold tree_height. cbn [root].
    by rewrite (wf_height _ _ _ _ Hwf').
  - eexists. split; [reflexivity |]. by left.
Qed.

Lemma insert_height_witness :
  ∃ t',
    insert (mkBTree 3 (Some (Node [2] [Node [1] []; Node [3; 4] []]))) (Some 5)
    = (t', None) ∧
    (tree_height t'
     = tree_height (mkBTree 3 (Some (Node [2] [Node [1] []; Node [3; 4] []]))) ∨
     tree_height t'
     = S (tree_height (mkBTree 3 (Some (Node [2] [Node [1] []; Node [3; 4] []]))))).
Proof. apply insert_height. vm_compute. reflexivity. Defined.

(** X4: one [remove] of a key of a well-formed tree leaves its height as it
    was or one less. *)
Theorem remove_height t key :
  btree_ok t = true → key ∈ tree_keys t →
  ∃ t',
    remove t (Some key) = (t', None) ∧
    (tree_height t' = tree_height t ∨ S (tree_height t') = tree_height t).
Proof.
  intros Hok Hin. pose proof (btree_ok_balanced _ Hok) as Hb.
  apply btree_ok_inv in Hok as [_ Hinv].
  destruct t as [M [r |]]; unfold tree_keys, btree_inv in *; cbn [root] in *;
    [| by apply elem_of_nil in Hin].
  destruct (tree_balanced_wf _ r Hb eq_refl) as [HM Hwf]. cbn [order] in *.
  destruct Hinv as [_ Hs].
  destruct (remove_ok_height M r _ key HM Hwf Hs Hin)
    as (r' & h' & l1 & l2 & Hrem & Hwf' & _ & _ & Hh).
  exists (mkBTree M (Some r')). split; [done |].
  unfold tree_height. cbn [root].
  by rewrite (wf_height _ _ _ _ Hwf').
Qed.

Lemma remove_height_witness :
  ∃ t',
    remove (mkBTree 3 (Some (Node [2] [Node [1] []; Node [3] []]))) (Some 1)
    = (t', None) ∧
    (tree_height t'
     = tree_height (mkBTree 3 (Some (Node [2] [Node [1] []; Node [3] []]))) ∨
     S (tree_height t')
     = tree_height (mkBTree 3 (Some (Node [2] [Node [1] []; Node [3] []])))).
Proof.
  apply remove_height.
  - vm_compute. reflexivity.
  - apply (bool_decide_unpack _). vm_compute. exact I.
Defined.

(** X5: [insert] into a balanced tree loses no key and adds exactly one
    occurrence of the new one, also when the keys are not in order or the key
    is already there: the traversal after the call is a rearrangement of the
    key and the traversal before. *)
Theorem insert_adds_one_occurrence t key :
  tree_balanced t = true →
  ∃ t' l l',
    insert t (Some key) = (t', None) ∧
    traverse_inorder t = Ok l ∧
    traverse_inorder t' = Ok l' ∧
    l' ≡ₚ key :: l.
Proof.
  intros Hb. destruct t as [M [r |]].
  - destruct (tree_balanced_wf _ r Hb eq_refl) as [HM Hwf]. cbn [order] in *.
    destruct (insert_ok M r _ key HM Hwf)
      as (r' & h' & l1 & l2 & Hins & Hwf' & Hr & Hr' & _).
    exists (mkBTree M (Some r')), (inorder r), (inorder r').
    unfold traverse_inorder. cbn [root].
    rewrite (node_traverse_inorder_wf _ _ _ _ Hwf),
      (node_traverse_inorder_wf _ _ _ _ Hwf').
    split_and!; [done | done | done |].
    rewrite Hr, Hr'. by rewrite Permutation_middle.
  - exists (mkBTree M (Some (Node [key] []))), [], [key]. done.
Qed.

Lemma insert_adds_one_occurrence_witness :
  ∃ t' l l',
    insert (mkBTree 3 (Some (Node [5] [Node [9] []; Node [2; 2] []]))) (Some 2)
    = (t', None) ∧
    traverse_inorder (mkBTree 3 (Some (Node [5] [Node [9] []; Node [2; 2] []])))
    = Ok l ∧
    traverse_inorder t' = Ok l' ∧
    l' ≡ₚ 2 :: l.
Proof. apply insert_adds_one_occurrence. vm_compute. reflexivity. Defined.

(** ** The maximum number of keys *)

Lemma capped_iff u ks cs :
  capped u (Node ks cs) = true ↔
  (length ks ≤ u)%nat ∧ Forall (λ c, capped u c = true) cs.
Proof.
  cbn [capped]. rewrite andb_true_iff, Nat.leb_le, forallb_forall, Forall_forall.
  split; intros [? H]; (split; [done |]); intros c Hc; apply H;
    by apply list_elem_of_In.
Qed.

Lemma frame_capped_of u n i : capped u n = true → frame_capped u (n, i).
Proof.
  destruct n as [ks cs]. intros [? H]%capped_iff. split; [done |].
  intros j c _ Hj. cbn [fst children] in Hj.
  rewrite Forall_lookup in H. by eapply H.
Qed.

(** The children of a path entry with a node put into its slot. *)
Lemma slot_capped u p i x :
  frame_capped u (p, i) → capped u x = true →
  Forall (λ c, capped u c = true) (<[i := x]> (children p)).
Proof.
  intros [_ H] Hx. apply Forall_lookup. intros j c Hc.
  apply list_lookup_insert_Some in Hc as [(-> & <- & _) | [Hne Hc]]; [done |].
  eapply H; [| exact Hc]. cbn [snd]. congruence.
Qed.

(** The children of a path entry with its slot deleted. *)
Lemma stale_capped u p i :
  frame_capped u (p, i) →
  Forall (λ c, capped u c = true) (delete i (children p)).
Proof.
  intros [_ H]. cbn [fst snd] in H. apply Forall_lookup. intros j c Hc.
  destruct (decide (j < i)%nat).
  - rewrite list_lookup_delete_lt in Hc by done. eapply H; [| exact Hc]. lia.
  - rewrite list_lookup_delete_ge in Hc by lia. eapply H; [| exact Hc]. lia.
Qed.

(** The children of a path entry with the slot after its own deleted and a
    node put into its own. *)
Lemma merged_right_capped u p i x :
  frame_capped u (p, i) → capped u x = true →
  Forall (λ c, capped u c = true) (<[i := x]> (delete (S i) (children p))).
Proof.
  intros [_ H] Hx. cbn [fst snd] in H. apply Forall_lookup. intros j c Hc.
  apply list_lookup_insert_Some in Hc as [(-> & <- & _) | [Hne Hc]]; [done |].
  destruct (decide (j < S i)%nat).
  - rewrite list_lookup_delete_lt in Hc by done. eapply H; [| exact Hc]. lia.
  - rewrite list_lookup_delete_ge in Hc by lia. eapply H; [| exact Hc]. lia.
Qed.

Lemma plug1_capped u f c :
  frame_capped u f → capped u c = true → capped u (plug1 c f) = true.
Proof.
  destruct f as [p i]. intros Hf Hc. unfold plug1. cbn [fst snd].
  apply capped_iff. split; [by destruct Hf | by apply slot_capped].
Qed.

Lemma plug_capped u above c :
  Forall (frame_capped u) above → capped u c = true →
  capped u (plug above c) = true.
Proof.
  revert c. induction above as [| f above IH]; intros c Hf Hc; [done |].
  apply Forall_cons in Hf as [Hf Ha]. cbn [plug fold_left].
  apply IH; [done |]. by apply plug1_capped.
Qed.

Lemma plug1_capped_inv u p i c :
  (i < length (children p))%nat → capped u (plug1 c (p, i)) = true →
  capped u c = true ∧ frame_capped u (p, i).
Proof.
  unfold plug1. cbn [fst snd]. intros Hi [Hk Hall]%capped_iff.
  rewrite Forall_lookup in Hall. split.
  - apply (Hall i). by apply list_lookup_insert_eq.
  - split; [done |]. cbn [fst snd]. intros j x Hne Hx. apply (Hall j).
    rewrite list_lookup_insert_ne; [done | congruence].
Qed.

Lemma plug_capped_inv u above c :
  Forall (λ f : frame, (f.2 < length (children f.1))%nat) above →
  capped u (plug above c) = true →
  capped u c = true ∧ Forall (frame_capped u) above.
Proof.
  revert c. induction above as [| [p i] above IH]; intros c Hv H; [done |].
  apply Forall_cons in Hv as [Hi Hv]. cbn [plug fold_left] in H.
  apply IH in H as [H1 H2]; [| done].
  apply plug1_capped_inv in H1 as [? ?]; [| done].
  split; [done |]. by apply Forall_cons.
Qed.

Lemma frames_ok_valid m lo h above :
  frames_ok m lo h above →
  Forall (λ f : frame, (f.2 < length (children f.1))%nat) above.
Proof.
  revert h. induction above as [| [p i] rest IH]; intros h H; [done |].
  destruct H as (_ & Hi & Hrest). apply Forall_cons. split; [done |].
  by eapply IH.
Qed.

Lemma split_capped u mid ks cs :
  (mid ≤ u)%nat → (length ks ≤ S u)%nat →
  Forall (λ c, capped u c = true) cs →
  capped u (Node (take mid ks) (take (S mid) cs)) = true ∧
  capped u (Node (drop (S mid) ks) (drop (S mid) cs)) = true.
Proof.
  intros Hmid Hlen Hcs. split; apply capped_iff.
  - split; [rewrite length_take; lia | by apply Forall_take].
  - split; [rewrite length_drop; lia | by apply Forall_drop].
Qed.

Lemma max_keys_spec order :
  2 ≤ order →
  Z.of_nat (max_keys order) = order - 1 ∧
  (order - 1) / 2 = Z.of_nat (min_keys order) ∧
  (min_keys order ≤ max_keys order)%nat ∧
  (1 ≤ max_keys order)%nat.
Proof.
  intros HM. unfold max_keys, min_keys.
  assert (0 ≤ (order - 1) / 2) by (apply Z.div_pos; lia).
  assert ((order - 1) / 2 ≤ order - 1) by (apply Z.div_le_upper_bound; lia).
  split_and!; lia.
Qed.

(** The splits of [_fix_insert] leave no node with more than [order - 1]
    keys, when the only node that had more is the one the walk starts at,
    with one too many. *)
Lemma fix_insert_loop_capped order u :
  2 ≤ order → u = max_keys order →
  ∀ above curr r,
    Forall (frame_capped u) above →
    (length (keys curr) ≤ S u)%nat →
    Forall (λ c, capped u c = true) (children curr) →
    fix_insert_loop order curr above = (r, None) →
    capped u r = true.
Proof.
  intros HM ->. destruct (max_keys_spec order HM) as (Hu & Hmid & Hmu & Hu1).
  set (u := max_keys order) in *. set (m := min_keys order) in *.
  induction above as [| [p i] rest IH]; intros [ks cs] r Hf Hlen Hcs;
    cbn [fix_insert_loop keys children] in *.
  - destruct (Z.leb_spec (Z.of_nat (length ks)) (order - 1)) as [Hle | Hgt].
    + intros [= <-]. apply capped_iff. split; [lia | done].
    + rewrite Hmid, Py_get_nat. destruct (ks !! m) as [k |]; [| done].
      rewrite !Py_slice_to_nat.
      replace (Z.of_nat m + 1) with (Z.of_nat (S m)) by lia.
      rewrite !Py_slice_to_nat, !Py_slice_from_nat.
      intros [= <-].
      destruct (split_capped u m ks cs Hmu Hlen Hcs) as [Hl Hr].
      apply capped_iff. split; [cbn [length]; lia |].
      by repeat constructor.
  - destruct (Z.leb_spec (Z.of_nat (length ks)) (order - 1)) as [Hle | Hgt].
    + intros [= <-]. apply (plug_capped u ((p, i) :: rest)); [done |].
      apply capped_iff. split; [lia | done].
    + rewrite Hmid, Py_get_nat. destruct (ks !! m) as [k |]; [| done].
      rewrite !Py_slice_to_nat.
      replace (Z.of_nat m + 1) with (Z.of_nat (S m)) by lia.
      rewrite !Py_slice_to_nat, !Py_slice_from_nat.
      destruct (Nat.ltb_spec i (length (children p))); [| done].
      destruct (split_capped u m ks cs Hmu Hlen Hcs) as [Hl Hr].
      apply Forall_cons in Hf as [Hp Hrest].
      apply IH; [done | |]; cbn [keys children].
      * rewrite Py_insert_length. destruct Hp as [Hp _]. cbn [fst] in Hp. lia.
      * unfold Py.insert.
        pose proof (slot_capped u p i _ Hp Hl) as Hall.
        apply Forall_app. split; [by apply Forall_take |].
        apply Forall_cons. split; [done | by apply Forall_drop].
Qed.

(** [insert] into a well-formed tree without a node over the maximum gives
    a tree without one. *)
Lemma insert_capped M r h key t' :
  3 ≤ M → wf_root (min_keys M) h r → capped (max_keys M) r = true →
  insert (mkBTree M (Some r)) (Some key) = (t', None) →
  tree_capped t' = true.
Proof.
  intros HM Hwf Hc. set (m := min_keys M) in *.
  destruct (insert_descend_ok m key h _ r Hwf)
    as (leaf & above & Hd & _ & Hf & Hleaf & Hplug & _).
  unfold insert. cbn [root order]. rewrite Hd.
  rewrite rev_app_distr, rev_involutive. cbn [rev app].
  unfold _fix_insert. rewrite rev_app_distr, rev_involutive.
  cbn [rev app order].
  destruct (fix_insert_loop M _ above) as [r' e] eqn:Hloop.
  intros [= <- ->]. unfold tree_capped. cbn [root order].
  rewrite <- Hplug in Hc.
  apply plug_capped_inv in Hc as [Hcl Hca]; [| by eapply frames_ok_valid].
  destruct leaf as [lk lc]. apply capped_iff in Hcl as [Hlk Hlc].
  eapply (fix_insert_loop_capped M _ ltac:(lia) eq_refl above);
    [done | | | exact Hloop]; unfold insert_key; cbn [keys children].
  - rewrite Py_insert_length. lia.
  - done.
Qed.

Lemma length_delete_le {A} i (l : list A) :
  (length (delete i l) ≤ length l)%nat.
Proof.
  revert i. induction l as [| x l IH]; intros [| i]; cbn; [lia .. |].
  apply le_n_S, IH.
Qed.

Lemma absorb_capped u a sep b :
  capped u a = true → capped u b = true →
  (length (keys a) + 1 + length (keys b) ≤ u)%nat →
  capped u (absorb a sep b) = true.
Proof.
  destruct a as [ka ca], b as [kb cb].
  intros [_ Ha]%capped_iff [_ Hb]%capped_iff Hlen.
  unfold absorb. cbn [keys children] in *. apply capped_iff. split.
  - rewrite !length_app. cbn [length]. lia.
  - by apply Forall_app.
Qed.

Lemma redistribute_capped u a sep b :
  capped u a = true → capped u b = true →
  capped u (redistribute a sep b).1.1 = true ∧
  capped u (redistribute a sep b).2 = true.
Proof.
  destruct a as [ka ca], b as [kb cb].
  intros [Hla Ha]%capped_iff [Hlb Hb]%capped_iff.
  unfold redistribute. cbn [keys children fst snd].
  set (mk := ka ++ [sep] ++ kb).
  assert (Forall (λ c, capped u c = true) (ca ++ cb)) by (by apply Forall_app).
  assert (length mk = length ka + 1 + length kb)%nat as Hn
    by (unfold mk; rewrite !length_app; cbn [length]; lia).
  set (mid := (length mk / 2)%nat).
  assert (mid ≤ u ∧ length mk - S mid ≤ u)%nat as [Hmid1 Hmid2].
  { unfold mid.
    pose proof (Nat.div_mod_eq (length mk) 2) as Hdm.
    pose proof (Nat.mod_upper_bound (length mk) 2 ltac:(lia)). lia. }
  split; apply capped_iff.
  - split; [rewrite length_take; lia | by apply Forall_take].
  - split; [rewrite length_drop; lia | by apply Forall_drop].
Qed.

Lemma not_populous order m n :
  (order - 1) / 2 = Z.of_nat m →
  _is_node_populous order false n = false → (length (keys n) ≤ m)%nat.
Proof.
  unfold _is_node_populous. intros ->. rewrite Z.geb_leb.
  intros H%Z.leb_gt. lia.
Qed.

(** The merge leaves no node over the maximum: two nodes at or under the
    minimum and a separator fit in one node. *)
Lemma merge_step_capped u m curr p i rest ls rs :
  (2 * m ≤ u)%nat →
  frame_capped u (p, i) → capped u curr = true →
  (length (keys curr) < m)%nat →
  (∀ l, ls = Fresh l → capped u l = true ∧ (length (keys l) ≤ m)%nat) →
  (∀ r, rs = Some r → capped u r = true ∧ (length (keys r) ≤ m)%nat) →
  step_capped u rest (merge_step curr p i rest ls rs).
Proof.
  intros Hmu Hp Hc Hlen Hls Hrs. pose proof Hp as [Hpk _]. cbn [fst] in Hpk.
  unfold merge_step. cbv zeta.
  destruct (S i =? length (children p))%nat.
  - destruct ls as [| | l]; [done | |].
    + destruct (keys p) as [| k0 ks0] eqn:Hk; [done |].
      cbn [step_capped]. apply capped_iff.
      split; [| by apply stale_capped].
      rewrite removelast_firstn_len, length_take. lia.
    + destruct (keys p !! (i - 1)%nat) as [sep |]; [| done].
      cbn [step_capped]. destruct (Hls l eq_refl) as [Hl Hll].
      apply capped_iff. split.
      * pose proof (length_delete_le (i - 1) (keys p)). lia.
      * apply Forall_insert; [by apply stale_capped |].
        apply absorb_capped; [done | done | lia].
  - destruct rs as [r |]; [| done].
    destruct (keys p !! i) as [sep |]; [| done].
    cbn [step_capped]. destruct (Hrs r eq_refl) as [Hr Hlr].
    apply capped_iff. split.
    + pose proof (length_delete_le i (keys p)). lia.
    + apply merged_right_capped; [done |].
      apply absorb_capped; [done | done | lia].
Qed.

Lemma right_step_capped order u m curr p i rest ls :
  (order - 1) / 2 = Z.of_nat m → (2 * m ≤ u)%nat →
  frame_capped u (p, i) → capped u curr = true →
  (length (keys curr) < m)%nat →
  (∀ l, ls = Fresh l → capped u l = true ∧ (length (keys l) ≤ m)%nat) →
  step_capped u rest (right_step order curr p i rest ls).
Proof.
  intros Hmid Hmu Hp Hc Hlen Hls.
  unfold right_step. cbv zeta.
  destruct (S i =? length (children p))%nat eqn:Hlast; cbn [negb].
  { apply (merge_step_capped u m); try done. }
  destruct (children p !! S i) as [r |] eqn:Hr; [| done].
  assert (capped u r = true) as Hcr.
  { destruct Hp as [_ H]. eapply (H (S i)); [cbn [snd]; lia | done]. }
  destruct (_is_node_populous order false r) eqn:Hpop.
  - destruct (keys p !! i) as [sep |]; [| done].
    destruct (redistribute curr sep r) as [[c' k] r'] eqn:Hred.
    cbn [step_capped]. eexists. split; [reflexivity |].
    destruct (redistribute_capped u curr sep r Hc Hcr) as [Hc' Hr'].
    rewrite Hred in Hc', Hr'. cbn [fst snd] in Hc', Hr'.
    apply capped_iff. split.
    + rewrite length_insert. by destruct Hp.
    + apply Forall_insert; [by apply slot_capped | done].
  - apply (merge_step_capped u m); try done.
    intros r0 [= <-]. split; [done |]. by eapply not_populous.
Qed.

(** One iteration of [_fix_remove] leaves no node over the maximum. *)
Lemma fix_remove_step_capped order u m lb curr p i rest :
  (order - 1) / 2 = Z.of_nat m → (2 * m ≤ u)%nat →
  frame_capped u (p, i) → capped u curr = true →
  (length (keys curr) < m)%nat →
  step_capped u rest (fix_remove_step order lb curr p i rest).
Proof.
  intros Hmid Hmu Hp Hc Hlen.
  unfold fix_remove_step. cbv zeta.
  destruct i as [| i'].
  { apply (right_step_capped order u m); try done. by destruct lb. }
  destruct (children p !! i') as [l |] eqn:Hl; [| done].
  assert (capped u l = true) as Hcl.
  { destruct Hp as [_ H]. eapply (H i'); [cbn [snd]; lia | done]. }
  destruct (_is_node_populous order false l) eqn:Hpop.
  - destruct (keys p !! i') as [sep |]; [| done].
    destruct (redistribute l sep curr) as [[l' k] c'] eqn:Hred.
    cbn [step_capped]. eexists. split; [reflexivity |].
    destruct (redistribute_capped u l sep curr Hcl Hc) as [Hl' Hc'].
    rewrite Hred in Hl', Hc'. cbn [fst snd] in Hl', Hc'.
    apply capped_iff. split.
    + rewrite length_insert. by destruct Hp.
    + apply Forall_insert; [by apply slot_capped | done].
  - apply (right_step_capped order u m); try done.
    intros l0 [= <-]. split; [done |]. by eapply not_populous.
Qed.

(** The repair pass of [remove] leaves no node over the maximum. *)
Lemma fix_remove_loop_capped order u m :
  (order - 1) / 2 = Z.of_nat m → (2 * m ≤ u)%nat →
  ∀ above curr lb r,
    Forall (frame_capped u) above → capped u curr = true →
    fix_remove_loop order lb curr above = (r, None) →
    capped u r = true.
Proof.
  intros Hmid Hmu.
  induction above as [| [p i] rest IH]; intros curr lb r Hf Hc;
    cbn [fix_remove_loop].
  - destruct curr as [ks cs]. cbn [children].
    pose proof Hc as [_ Hcs]%capped_iff.
    destruct cs as [| c [| c' cs']]; intros [= <-]; [done | | done].
    by apply Forall_cons in Hcs as [? _].
  - apply Forall_cons in Hf as [Hp Hrest].
    unfold _is_node_underflowing. rewrite Hmid.
    destruct (Z.ltb_spec (Z.of_nat (length (keys curr))) (Z.of_nat m))
      as [Hunder | Hfine]; cbn [negb].
    + pose proof (fix_remove_step_capped order u m lb curr p i rest
                    Hmid Hmu Hp Hc ltac:(lia)) as Hstep.
      destruct (fix_remove_step order lb curr p i rest) as [r0 e | p' lb'].
      * intros [= <- ->]. cbn [step_capped] in Hstep.
        destruct Hstep as (p' & -> & Hp'). by apply plug_capped.
      * intros Hloop. by eapply IH.
    + intros [= <-]. apply (plug_capped u ((p, i) :: rest)); [| done].
      by apply Forall_cons.
Qed.

Lemma leftmost_plug n :
  ∀ acc, ∃ below,
    leftmost n acc = (leftmost_leaf n, below ++ acc) ∧
    plug below (leftmost_leaf n) = n ∧
    Forall (λ f : frame, (f.2 < length (children f.1))%nat) below.
Proof.
  induction n as [ks cs IH] using BTreeNode_ind. intros acc.
  destruct cs as [| c cs'].
  - exists []. done.
  - apply Forall_cons in IH as [IHc _].
    destruct (IHc ((Node ks (c :: cs'), 0%nat) :: acc))
      as (below & Hl & Hplug & Hv).
    exists (below ++ [(Node ks (c :: cs'), 0%nat)]).
    cbn [leftmost leftmost_leaf].
    split_and!; [by rewrite Hl, <- app_assoc | |].
    + rewrite plug_snoc, Hplug. done.
    + apply Forall_app. split; [done |]. apply Forall_cons.
      split; [cbn; lia | done].
Qed.

(** [remove] of a key of a well-formed tree without a node over the maximum
    gives a tree without one. *)
Lemma remove_capped M r h key t' :
  3 ≤ M → wf_root (min_keys M) h r →
  StronglySorted Z.lt (inorder r) → key ∈ inorder r →
  capped (max_keys M) r = true →
  remove (mkBTree M (Some r)) (Some key) = (t', None) →
  tree_capped t' = true.
Proof.
  intros Ho Hwf Hs Hin Hc. set (m := min_keys M) in *.
  set (u := max_keys M) in *.
  destruct (min_keys_spec M Ho) as (Hmid & Hm1 & Hm2). fold m in Hmid, Hm1, Hm2.
  assert (2 * m ≤ u)%nat as Hmu by (unfold u, max_keys; lia).
  destruct (remove_descend_ok m key h _ r Hwf Hs Hin)
    as (path & idx & target & above & ht & Hd & Hzip & Hht & Hf & Ht
        & Hplug & Hidx).
  specialize (Hzip []). rewrite app_nil_r in Hzip.
  rewrite <- Hplug in Hc.
  apply plug_capped_inv in Hc as [Hct Hca]; [| by eapply frames_ok_valid].
  unfold remove. cbn [root]. rewrite Hd, Hzip.
  destruct target as [tks tcs]. cbn [keys children] in *.
  apply capped_iff in Hct as [Htk Htc].
  destruct tcs as [| c0 tcs'].
  - unfold _fix_remove. cbn [order].
    destruct (fix_remove_loop M false _ above) as [r' e] eqn:Hloop.
    intros [= <- ->]. unfold tree_capped. cbn [root order].
    eapply (fix_remove_loop_capped M u m Hmid Hmu above); [done | | exact Hloop].
    apply capped_iff. split; [| done].
    pose proof (length_delete_le idx tks). lia.
  - destruct ((c0 :: tcs') !! S idx) as [child |] eqn:Hchild; [| done].
    destruct (leftmost_plug child []) as (below & Hlm & Hpb & Hvb).
    rewrite Hlm, app_nil_r.
    destruct (keys (leftmost_leaf child)) as [| successor ks'] eqn:Hlk; [done |].
    unfold _fix_remove. cbn [order].
    destruct (fix_remove_loop M false _ _) as [r' e] eqn:Hloop.
    intros [= <- ->]. unfold tree_capped. cbn [root order].
    assert (capped u child = true) as Hcc
      by (by eapply (proj1 (Forall_lookup _ _) Htc)).
    rewrite <- Hpb in Hcc.
    apply plug_capped_inv in Hcc as [Hcl Hcb]; [| done].
    eapply (fix_remove_loop_capped M u m Hmid Hmu); [| | exact Hloop].
    + apply Forall_app. split; [done |]. apply Forall_cons. split; [| done].
      apply frame_capped_of. apply capped_iff.
      split; [by rewrite length_insert | done].
    + destruct (leftmost_leaf child) as [lk lc]. cbn [keys children] in *.
      apply capped_iff in Hcl as [Hl1 Hl2]. apply capped_iff.
      split; [| done]. subst lk. cbn [length] in Hl1. lia.
Qed.

Lemma capped_nodes u n :
  capped u n = true → ∀ x, x ∈ nodes n → (length (keys x) ≤ u)%nat.
Proof.
  induction n as [ks cs IH] using BTreeNode_ind.
  intros [Hk Hcs]%capped_iff x Hx. cbn [nodes] in Hx.
  apply elem_of_cons in Hx as [-> | Hx]; [done |].
  apply elem_of_concat in Hx as (l & Hl & Hx).
  apply list_elem_of_fmap in Hl as (c & -> & Hc).
  rewrite Forall_forall in IH, Hcs. by apply (IH c Hc); [apply Hcs |].
Qed.

Lemma wf_nodes_shape m h :
  ∀ lo n, wf m lo h n →
  ∀ x, x ∈ nodes n →
       children x = [] ∨ length (children x) = S (length (keys x)).
Proof.
  induction h as [| h IH]; intros lo [ks cs] Hwf x Hx; cbn [nodes] in Hx.
  - apply wf_leaf_iff in Hwf as [_ ->].
    apply elem_of_cons in Hx as [-> | Hx]; [by left |].
    by apply elem_of_nil in Hx.
  - apply wf_internal_iff in Hwf as (_ & Hlen & Hall).
    apply elem_of_cons in Hx as [-> | Hx]; [by right |].
    apply elem_of_concat in Hx as (l & Hl & Hx).
    apply list_elem_of_fmap in Hl as (c & -> & Hc).
    rewrite Forall_forall in Hall. by eapply IH; [apply Hall |].
Qed.

(** One call of a valid sequence. *)
Lemma call_inv t o s :
  3 ≤ order t → btree_inv t → (∀ x, x ∈ tree_keys t ↔ x ∈ s) →
  valid_ops s [o] = true →
  ∃ t1, call t o = (t1, None) ∧ order t1 = order t ∧
        btree_inv t1 ∧ is_Some (root t1) ∧
        ∀ x, x ∈ tree_keys t1 ↔ x ∈ key_set_after s o.
Proof.
  intros HM Hinv Hkeys Hvalid. cbn [valid_ops] in Hvalid.
  apply andb_true_iff in Hvalid as [Ho _].
  destruct o as [key | key]; apply bool_decide_eq_true in Ho.
  - destruct (insert_inv t key HM Hinv) as (t1 & ? & ? & ? & ? & Hk);
      [by rewrite Hkeys |].
    exists t1. repeat (split; [done |]).
    intros x. rewrite Hk. cbn [key_set_after].
    rewrite elem_of_cons, Hkeys. done.
  - destruct (remove_inv t key HM Hinv) as (t1 & ? & ? & ? & ? & Hk);
      [by rewrite Hkeys |].
    exists t1. repeat (split; [done |]).
    intros x. rewrite Hk. cbn [key_set_after].
    rewrite list_elem_of_filter, Hkeys. done.
Qed.

Lemma call_capped t o s t1 :
  3 ≤ order t → btree_inv t → tree_capped t = true →
  (∀ x, x ∈ tree_keys t ↔ x ∈ s) → valid_ops s [o] = true →
  call t o = (t1, None) → tree_capped t1 = true.
Proof.
  intros HM Hinv Hc Hkeys Hvalid. cbn [valid_ops] in Hvalid.
  apply andb_true_iff in Hvalid as [Ho _].
  destruct t as [M [r |]]; unfold btree_inv, tree_keys, tree_capped in *;
    cbn [root order] in *.
  - destruct Hinv as [[h Hwf] Hs]. destruct o as [key | key]; cbn [call].
    + by apply (insert_capped M r h key).
    + apply bool_decide_eq_true in Ho. apply Hkeys in Ho.
      by apply (remove_capped M r h key).
  - destruct o as [key | key]; cbn [call insert remove root order];
      [| done].
    intros [= <-]. cbn [root order capped forallb length].
    rewrite andb_true_r. apply Nat.leb_le. unfold max_keys. lia.
Qed.

(** Every valid sequence of calls keeps every node at or under the
    maximum. *)
Lemma run_capped ops :
  ∀ t s t',
    3 ≤ order t → btree_inv t → tree_capped t = true →
    (∀ x, x ∈ tree_keys t ↔ x ∈ s) →
    valid_ops s ops = true →
    run t ops = (t', None) → tree_capped t' = true.
Proof.
  induction ops as [| o ops IH]; intros t s t' HM Hinv Hc Hkeys Hvalid.
  - cbn [run]. by intros [= <-].
  - assert (valid_ops s [o] = true ∧ valid_ops (key_set_after s o) ops = true)
      as [Ho Hvalid'].
    { cbn [valid_ops] in *. apply andb_true_iff in Hvalid as [-> ->]. done. }
    destruct (call_inv t o s HM Hinv Hkeys Ho)
      as (t1 & Hcall & Ho1 & Hinv1 & _ & Hkeys1).
    pose proof (call_capped t o s t1 HM Hinv Hc Hkeys Ho Hcall) as Hc1.
    cbn [run]. rewrite Hcall.
    apply (IH t1 (key_set_after s o)); [by rewrite Ho1 | done ..].
Qed.

(** X6: for every order of at least 3, after every sequence of insertions
    of new keys and removals of present keys from the empty tree, every
    node holds at most [order - 1] keys and at most [order] children. *)
Theorem fan_out_bound M ops :
  3 ≤ M → valid_ops [] ops = true →
  ∃ t,
    run (mkBTree M None) ops = (t, None) ∧
    ∀ n, n ∈ tree_nodes t →
         Z.of_nat (length (keys n)) ≤ M - 1 ∧
         Z.of_nat (length (children n)) ≤ M.
Proof.
  intros HM Hvalid.
  destruct (run_inv ops (mkBTree M None) [] HM I ltac:(done) Hvalid)
    as (t & Hrun & Ho & Hinv & _ & _).
  pose proof (run_capped ops (mkBTree M None) [] t HM I eq_refl ltac:(done)
                Hvalid Hrun) as Hc.
  exists t. split; [done |]. intros n Hn. cbn [order] in Ho.
  unfold btree_inv, tree_nodes, tree_capped in *. rewrite Ho in *.
  destruct (root t) as [r |]; [| by apply elem_of_nil in Hn].
  destruct Hinv as [[h Hwf] _].
  pose proof (capped_nodes _ _ Hc n Hn) as Hk.
  assert (Z.of_nat (length (keys n)) ≤ M - 1) as Hk'
    by (unfold max_keys in Hk; lia).
  split; [done |].
  destruct (wf_nodes_shape _ _ _ _ Hwf n Hn) as [-> | ->];
    [cbn [length] |]; lia.
Qed.

Lemma fan_out_bound_witness :
  ∃ t,
    run (mkBTree 3 None)
      [Insert 4; Insert 2; Insert 6; Insert 1; Insert 3; Remove 4; Insert 5;
       Insert 7; Insert 8] = (t, None) ∧
    ∀ n, n ∈ tree_nodes t →
         Z.of_nat (length (keys n)) ≤ 3 - 1 ∧
         Z.of_nat (length (children n)) ≤ 3.
Proof.
  apply (fan_out_bound 3); [lia | vm_compute; reflexivity].
Defined.

(** X7: after every such sequence every internal node has exactly one more
    child than keys. *)
Theorem internal_nodes_one_more_child M ops :
  3 ≤ M → valid_ops [] ops = true →
  ∃ t,
    run (mkBTree M None) ops = (t, None) ∧
    ∀ n, n ∈ tree_nodes t → is_internal n = true →
         length (children n) = S (length (keys n)).
Proof.
  intros HM Hvalid.
  destruct (run_inv ops (mkBTree M None) [] HM I ltac:(done) Hvalid)
    as (t & Hrun & Ho & Hinv & _ & _).
  exists t. split; [done |]. intros n Hn Hint.
  unfold btree_inv, tree_nodes in *.
  destruct (root t) as [r |]; [| by apply elem_of_nil in Hn].
  destruct Hinv as [[h Hwf] _].
  destruct (wf_nodes_shape _ _ _ _ Hwf n Hn) as [Hleaf | Hlen]; [| done].
  unfold is_internal, is_leaf in Hint. by rewrite Hleaf in Hint.
Qed.

Lemma internal_nodes_one_more_child_witness :
  ∃ t,
    run (mkBTree 4 None)
      [Insert 1; Insert 2; Insert 3; Insert 4; Insert 5; Insert 6; Insert 7;
       Remove 2; Remove 5] = (t, None) ∧
    ∀ n, n ∈ tree_nodes t → is_internal n = true →
         length (children n) = S (length (keys n)).
Proof.
  apply (internal_nodes_one_more_child 4); [lia | vm_compute; reflexivity].
Defined.

(** X8: one [insert] into a balanced tree none of whose nodes is over
    [order - 1] keys gives a tree with no node over it: a full node is
    split before the call returns.  The keys need not be in order. *)
Theorem insert_keeps_fan_out t key :
  tree_balanced t = true → tree_capped t = true →
  ∃ t', insert t (Some key) = (t', None) ∧ tree_capped t' = true.
Proof.
  intros Hb Hc. destruct t as [M [r |]].
  - destruct (tree_balanced_wf _ r Hb eq_refl) as [HM Hwf]. cbn [order] in *.
    destruct (insert_ok M r _ key HM Hwf) as (r' & h' & l1 & l2 & Hins & _).
    exists (mkBTree M (Some r')). split; [done |].
    by apply (insert_capped M r _ key _ HM Hwf Hc).
  - eexists. split; [reflexivity |].
    apply andb_true_iff in Hb as [HM%Z.leb_le _].
    unfold tree_capped. cbn [root order capped forallb length] in *.
    rewrite andb_true_r. apply Nat.leb_le. unfold max_keys. lia.
Qed.

Lemma insert_keeps_fan_out_witness :
  ∃ t',
    insert (mkBTree 3 (Some (Node [2] [Node [1] []; Node [3; 4] []]))) (Some 5)
    = (t', None) ∧
    tree_capped t' = true.
Proof. apply insert_keeps_fan_out; vm_compute; reflexivity. Defined.

(** X9: one [remove] of a key of a well-formed tree none of whose nodes is
    over [order - 1] keys gives a tree with no node over it: a merge only
    joins two nodes that together with the separator fit in one. *)
Theorem remove_keeps_fan_out t key :
  btree_ok t = true → tree_capped t = true → key ∈ tree_keys t →
  ∃ t', remove t (Some key) = (t', None) ∧ tree_capped t' = true.
Proof.
  intros Hok Hc Hin. pose proof (btree_ok_balanced _ Hok) as Hb.
  apply btree_ok_inv in Hok as [_ Hinv].
  destruct t as [M [r |]]; unfold tree_keys, btree_inv in *; cbn [root] in *;
    [| by apply elem_of_nil in Hin].
  destruct (tree_balanced_wf _ r Hb eq_refl) as [HM Hwf]. cbn [order] in *.
  destruct Hinv as [_ Hs].
  destruct (remove_ok M r _ key HM Hwf Hs Hin)
    as (r' & h' & l1 & l2 & Hrem & _).
  exists (mkBTree M (Some r')). split; [done |].
  by apply (remove_capped M r _ key _ HM Hwf Hs Hin Hc).
Qed.

Lemma remove_keeps_fan_out_witness :
  ∃ t',
    remove (mkBTree 3 (Some (Node [2; 4] [Node [1] []; Node [3] []; Node [5] []])))
      (Some 3) = (t', None) ∧
    tree_capped t' = true.
Proof.
  apply remove_keeps_fan_out; [vm_compute; reflexivity .. |].
  apply (bool_decide_unpack _). vm_compute. exact I.
Defined.

(** ** The assertions of the test suite hold on well-formed trees *)

Lemma visit_leaf_depth m h :
  ∀ lo n d, wf m lo h n → visit_leaf_and_assert_depth n d (d + h) = true.
Proof.
  induction h as [| h IH]; intros lo [ks cs] d Hwf.
  - apply wf_leaf_iff in Hwf as [_ ->]. cbn [visit_leaf_and_assert_depth].
    apply Nat.eqb_eq. lia.
  - apply wf_internal_iff in Hwf as (_ & Hlen & Hall).
    destruct cs as [| c cs']; [done |].
    cbn [visit_leaf_and_assert_depth]. apply forallb_forall. intros x Hx.
    apply list_elem_of_In in Hx. rewrite Forall_forall in Hall.
    replace (d + S h)%nat with (S d + h)%nat by lia.
    by eapply IH, Hall.
Qed.

Lemma count_ok M m h :
  1 ≤ M →
  ∀ lo n, wf m lo h n → capped (max_keys M) n = true →
          assert_count_keys_and_children M n = true.
Proof.
  intros HM.
  induction h as [| h IH]; intros lo [ks cs] Hwf [Hk Hcs]%capped_iff;
    unfold max_keys in Hk; cbn [assert_count_keys_and_children].
  - apply wf_leaf_iff in Hwf as [_ ->]. cbn [length forallb].
    rewrite !andb_true_r. apply andb_true_iff.
    split; [apply Z.ltb_lt | apply Z.leb_le]; lia.
  - apply wf_internal_iff in Hwf as (_ & Hlen & Hall).
    cbn [keys children] in Hlen, Hall.
    rewrite !andb_true_iff. split_and!.
    + apply Z.ltb_lt. lia.
    + apply Z.leb_le. lia.
    + destruct cs; [done |]. apply Z.eqb_eq. lia.
    + apply forallb_forall. intros x Hx. apply list_elem_of_In in Hx.
      rewrite Forall_forall in Hall, Hcs. by eapply IH; [apply Hall | apply Hcs].
Qed.

Lemma weave_sublist subs : ∀ ks, ks `sublist_of` weave ks subs.
Proof.
  induction subs as [| s subs IH]; intros ks; [done |].
  destruct ks as [| k ks]; [apply sublist_nil_l |].
  cbn [weave]. apply sublist_inserts_l. by apply sublist_skip.
Qed.

Lemma sorted_sublist (l1 l2 : list Z) :
  l1 `sublist_of` l2 → StronglySorted Z.lt l2 → StronglySorted Z.lt l1.
Proof.
  induction 1 as [| x l1 l2 Hsub IH | x l1 l2 Hsub IH]; [done | |].
  - intros [Hx Hs]%StronglySorted_cons. apply StronglySorted_cons.
    split; [| by apply IH].
    rewrite Forall_forall in *. intros y Hy. apply Hx.
    by eapply elem_of_sublist.
  - intros [_ Hs]%StronglySorted_cons. by apply IH.
Qed.

Lemma Forall_sublist_of {A} (P : A → Prop) l1 l2 :
  l1 `sublist_of` l2 → Forall P l2 → Forall P l1.
Proof.
  intros Hsub. rewrite !Forall_forall. intros H x Hx. apply H.
  by eapply elem_of_sublist.
Qed.

Lemma keys_sublist ks cs : ks `sublist_of` inorder (Node ks cs).
Proof. apply weave_sublist. Qed.

Lemma child_sublist ks cs i c :
  length cs = S (length ks) → cs !! i = Some c →
  inorder c `sublist_of` inorder (Node ks cs).
Proof.
  intros Hlen Hc. rewrite (inorder_frame _ _ _ _ Hlen Hc).
  apply sublist_inserts_l, sublist_inserts_r. done.
Qed.

Lemma nondecreasing_sorted ks : StronglySorted Z.lt ks → nondecreasing ks = true.
Proof.
  induction ks as [| x ks IH]; [done |].
  intros [Hx Hs]%StronglySorted_cons. cbn [nondecreasing].
  destruct ks as [| y ks']; [done |].
  apply andb_true_iff. split; [| by apply IH].
  apply Forall_cons in Hx as [? _]. rewrite Z.geb_leb. apply Z.leb_le. lia.
Qed.

Lemma ordered_ok m h :
  ∀ lo n, wf m lo h n → StronglySorted Z.lt (inorder n) →
          assert_ordered_keys n = true.
Proof.
  induction h as [| h IH]; intros lo [ks cs] Hwf Hs;
    cbn [assert_ordered_keys]; apply andb_true_iff;
    (split; [by eapply nondecreasing_sorted, sorted_sublist;
                  [apply keys_sublist |] |]).
  - by apply wf_leaf_iff in Hwf as [_ ->].
  - apply wf_internal_iff in Hwf as (_ & Hlen & Hall).
    cbn [keys children] in Hlen, Hall.
    apply forallb_forall. intros x Hx. apply list_elem_of_In in Hx.
    apply list_elem_of_lookup in Hx as [i Hi].
    rewrite Forall_forall in Hall.
    eapply IH; [by eapply Hall, list_elem_of_lookup_2 |].
    eapply sorted_sublist; [by eapply child_sublist | done].
Qed.

Lemma truthy_Some bound l : truthy bound = Some l → bound = Some l.
Proof. destruct bound as [[| |] |]; cbn; congruence. Qed.

Lemma keys_in_range_ok lower upper :
  ∀ ks prev,
    StronglySorted Z.lt ks →
    (∀ p, prev = Some p → Forall (λ x, p ≤ x) ks) →
    (∀ l, lower = Some l → Forall (λ x, l ≤ x) ks) →
    (∀ u, upper = Some u → Forall (λ x, x ≤ u) ks) →
    keys_in_range prev lower upper ks = true.
Proof.
  induction ks as [| key ks IH]; intros prev Hs Hprev Hlo Hup; [done |].
  apply StronglySorted_cons in Hs as [Hkey Hs].
  cbn [keys_in_range]. rewrite !andb_true_iff. split_and!.
  - destruct prev as [p |]; [| done].
    specialize (Hprev p eq_refl). apply Forall_cons in Hprev as [? _].
    by apply Z.leb_le.
  - destruct (truthy lower) as [l |] eqn:Hl; [| done].
    apply truthy_Some in Hl. specialize (Hlo l Hl).
    apply Forall_cons in Hlo as [? _]. rewrite Z.geb_leb. by apply Z.leb_le.
  - destruct (truthy upper) as [u |] eqn:Hu; [| done].
    apply truthy_Some in Hu. specialize (Hup u Hu).
    apply Forall_cons in Hup as [? _]. by apply Z.leb_le.
  - apply IH; [done | | |].
    + intros p [= <-]. eapply Forall_impl; [exact Hkey |]. cbn. lia.
    + intros l Hl. specialize (Hlo l Hl). by apply Forall_cons in Hlo as [_ ?].
    + intros u Hu. specialize (Hup u Hu). by apply Forall_cons in Hup as [_ ?].
Qed.

(** The key at index [i] is the first one after child slot [i]. *)
Lemma after_head ks cs i k :
  length cs = S (length ks) → ks !! i = Some k →
  ∃ rest, after (Node ks cs, i) = k :: rest.
Proof.
  intros Hlen Hk. pose proof (lookup_lt_Some _ _ _ Hk) as Hi.
  unfold after. cbn [fst snd keys children].
  rewrite (drop_S _ _ _ Hk).
  destruct (drop (S i) (map inorder cs)) as [| s subs] eqn:Hd.
  - apply (f_equal length) in Hd. rewrite length_drop, length_map in Hd.
    cbn [length] in Hd. lia.
  - cbn [weaveR]. by eexists.
Qed.

(** The key at index [i] is the last one before child slot [i + 1]. *)
Lemma before_last ks cs i k :
  ks !! i = Some k → (i < length cs)%nat →
  ∃ B, before (Node ks cs, S i) = B ++ [k].
Proof.
  intros Hk Hi. destruct (before_S ks cs i k Hk Hi) as [B HB].
  exists B. specialize (HB k). by rewrite list_insert_id in HB.
Qed.

Lemma range_ok m h :
  ∀ lo n lower upper,
    wf m lo h n → StronglySorted Z.lt (inorder n) →
    (∀ l, lower = Some l → Forall (λ x, l ≤ x) (inorder n)) →
    (∀ u, upper = Some u → Forall (λ x, x ≤ u) (inorder n)) →
    assert_descandants_keys_range n lower upper = true.
Proof.
  induction h as [| h IH]; intros lo [ks cs] lower upper Hwf Hs Hlo Hup;
    cbn [assert_descandants_keys_range]; apply andb_true_iff;
    (split;
     [apply keys_in_range_ok;
      [by eapply sorted_sublist; [apply keys_sublist |]
      | done
      | intros l Hl; eapply Forall_sublist_of; [apply keys_sublist | by apply Hlo]
      | intros u Hu; eapply Forall_sublist_of; [apply keys_sublist | by apply Hup]]
     |]).
  - by apply wf_leaf_iff in Hwf as [_ ->].
  - apply wf_internal_iff in Hwf as (_ & Hlen & Hall).
    cbn [keys children] in Hlen, Hall.
    apply forallb_forall. intros i [_ Hi]%in_seq. cbn [Nat.add] in Hi.
    destruct (lookup_lt_is_Some_2 cs i Hi) as [c Hc].
    rewrite list_lookup_fmap, Hc. cbn [fmap option_fmap option_map]. cbv zeta.
    pose proof (proj1 (Forall_lookup _ _) Hall _ _ Hc) as Hwc.
    pose proof (child_sublist ks cs i c Hlen Hc) as Hsub.
    pose proof (sorted_sublist _ _ Hsub Hs) as Hsc.
    pose proof (inorder_frame _ _ _ _ Hlen Hc) as Hfr.
    assert (∀ lower',
              (∀ l, lower' = Some l → Forall (λ x, l ≤ x) (inorder c)) →
              assert_descandants_keys_range c lower'
                match ks !! i with Some k => Some k | None => upper end
              = true) as Hchild.
    { intros lower' Hlo'. apply (IH m); [done | done | done |].
      intros u Hu. destruct (ks !! i) as [k |] eqn:Hk.
      - injection Hu as <-.
        destruct (after_head ks cs i k Hlen Hk) as [rest Hrest].
        rewrite Hfr, Hrest in Hs. apply StronglySorted_app_1_r in Hs.
        apply Forall_forall. intros x Hx.
        pose proof (StronglySorted_app_1_elem_of _ _ _ x k Hs Hx
                      ltac:(apply list_elem_of_here)). lia.
      - eapply Forall_sublist_of; [exact Hsub | by apply Hup]. }
    destruct (Nat.ltb_spec 1 i) as [H1 | H1].
    + destruct (lookup_lt_is_Some_2 ks (i - 1)) as [k Hk]; [lia |].
      rewrite Hk. apply Hchild. intros l [= <-].
      destruct (before_last ks cs (i - 1) k Hk ltac:(lia)) as [B HB].
      replace (S (i - 1)) with i in HB by lia.
      rewrite Hfr, HB in Hs.
      apply Forall_forall. intros x Hx.
      pose proof (StronglySorted_app_1_elem_of _ _ _ k x Hs
                    ltac:(apply elem_of_app; right; apply list_elem_of_here)
                    ltac:(apply elem_of_app; by left)). lia.
    + apply Hchild. intros l Hl.
      eapply Forall_sublist_of; [exact Hsub | by apply Hlo].
Qed.

Lemma assert_btree_properties_ok t :
  btree_ok t = true → tree_capped t = true → is_Some (root t) →
  assert_btree_properties t = true.
Proof.
  intros Hok Hc [r Hr]. pose proof (btree_ok_balanced _ Hok) as Hb.
  destruct (tree_balanced_wf t r Hb Hr) as [HM Hwf].
  apply btree_ok_inv in Hok as [_ Hinv].
  unfold btree_inv, tree_capped, assert_btree_properties in *.
  rewrite Hr in *. destruct Hinv as [_ Hs].
  rewrite !andb_true_iff. split_and!.
  - by eapply ordered_ok.
  - eapply count_ok; [lia | done | done].
  - by eapply range_ok.
  - unfold assert_leaves_level_equal.
    by apply (visit_leaf_depth _ _ _ r 0%nat Hwf).
Qed.

(** X10: [assert_leaves_level_equal] returns on the root of every balanced
    tree: no leaf is at another depth than the left-most one. *)
Theorem leaves_level_equal_passes t r :
  tree_balanced t = true → root t = Some r →
  assert_leaves_level_equal r = true.
Proof.
  intros Hb Hr. destruct (tree_balanced_wf t r Hb Hr) as [_ Hwf].
  unfold assert_leaves_level_equal.
  by apply (visit_leaf_depth _ _ _ r 0%nat Hwf).
Qed.

Lemma leaves_level_equal_passes_witness :
  assert_leaves_level_equal
    (Node [4] [Node [2] [Node [1] []; Node [3] []];
               Node [6] [Node [5] []; Node [7] []]]) = true.
Proof.
  apply (leaves_level_equal_passes
           (mkBTree 3 (Some (Node [4] [Node [2] [Node [1] []; Node [3] []];
                                       Node [6] [Node [5] []; Node [7] []]]))));
    [vm_compute; reflexivity | reflexivity].
Defined.

(** X11: [assert_count_keys_and_children] returns on the root of every
    balanced tree none of whose nodes is over [order - 1] keys. *)
Theorem count_keys_and_children_passes t r :
  tree_balanced t = true → tree_capped t = true → root t = Some r →
  assert_count_keys_and_children (order t) r = true.
Proof.
  intros Hb Hc Hr. destruct (tree_balanced_wf t r Hb Hr) as [HM Hwf].
  unfold tree_capped in Hc. rewrite Hr in Hc.
  eapply count_ok; [lia | done | done].
Qed.

Lemma count_keys_and_children_passes_witness :
  assert_count_keys_and_children
    (order (mkBTree 5 (Some (Node [3; 6] [Node [1; 2] []; Node [4; 5] [];
                                         Node [7; 8; 9; 10] []]))))
    (Node [3; 6] [Node [1; 2] []; Node [4; 5] []; Node [7; 8; 9; 10] []])
  = true.
Proof.
  apply count_keys_and_children_passes;
    [vm_compute; reflexivity | vm_compute; reflexivity | reflexivity].
Defined.

(** X12: [assert_ordered_keys] returns on the root of every well-formed
    tree. *)
Theorem ordered_keys_passes t r :
  btree_ok t = true → root t = Some r → assert_ordered_keys r = true.
Proof.
  intros Hok Hr. pose proof (btree_ok_balanced _ Hok) as Hb.
  destruct (tree_balanced_wf t r Hb Hr) as [_ Hwf].
  apply btree_ok_inv in Hok as [_ Hinv]. unfold btree_inv in Hinv.
  rewrite Hr in Hinv. destruct Hinv as [_ Hs]. by eapply ordered_ok.
Qed.

Lemma ordered_keys_passes_witness :
  assert_ordered_keys
    (Node [3; 6] [Node [1; 2] []; Node [4; 5] []; Node [7; 8] []]) = true.
Proof.
  apply (ordered_keys_passes
           (mkBTree 5 (Some (Node [3; 6] [Node [1; 2] []; Node [4; 5] [];
                                          Node [7; 8] []]))));
    [vm_compute; reflexivity | reflexivity].
Defined.

(** X13: [assert_descandants_keys_range] returns on the root of every
    well-formed tree, for every pair of bounds that all keys of the tree
    respect, and so for the default bounds [None]. *)
Theorem descandants_keys_range_passes t r lower upper :
  btree_ok t = true → root t = Some r →
  (∀ l, lower = Some l → Forall (λ x, l ≤ x) (tree_keys t)) →
  (∀ u, upper = Some u → Forall (λ x, x ≤ u) (tree_keys t)) →
  assert_descandants_keys_range r lower upper = true.
Proof.
  intros Hok Hr Hlo Hup. pose proof (btree_ok_balanced _ Hok) as Hb.
  destruct (tree_balanced_wf t r Hb Hr) as [_ Hwf].
  apply btree_ok_inv in Hok as [_ Hinv]. unfold btree_inv, tree_keys in *.
  rewrite Hr in *. destruct Hinv as [_ Hs]. by eapply range_ok.
Qed.

Lemma descandants_keys_range_passes_witness :
  assert_descandants_keys_range
    (Node [3; 6] [Node [1; 2] []; Node [4; 5] []; Node [7; 8] []]) None None
  = true.
Proof.
  apply (descandants_keys_range_passes
           (mkBTree 5 (Some (Node [3; 6] [Node [1; 2] []; Node [4; 5] [];
                                          Node [7; 8] []]))));
    [vm_compute; reflexivity | reflexivity | discriminate | discriminate].
Defined.

(** X14: for every order of at least 3, the tree left by a sequence of at
    least one call, each an insertion of a new key or a removal of a
    present one, passes [assert_btree_properties], the check the tests run
    after each call. *)
Theorem tests_pass_after_calls M o ops :
  3 ≤ M → valid_ops [] (o :: ops) = true →
  ∃ t,
    run (mkBTree M None) (o :: ops) = (t, None) ∧
    assert_btree_properties t = true.
Proof.
  intros HM Hvalid.
  destruct (run_inv (o :: ops) (mkBTree M None) [] HM I ltac:(done) Hvalid)
    as (t & Hrun & Ho & Hinv & Hroot & _).
  pose proof (run_capped (o :: ops) (mkBTree M None) [] t HM I eq_refl
                ltac:(done) Hvalid Hrun) as Hc.
  exists t. split; [done |]. cbn [order] in Ho.
  apply assert_btree_properties_ok; [| done | by apply Hroot].
  apply btree_inv_ok; [by rewrite Ho | done].
Qed.

Lemma tests_pass_after_calls_witness :
  ∃ t,
    run (mkBTree 5 None)
      [Insert 3; Insert 4; Insert 5; Insert 6; Insert 7; Insert 1; Insert 2;
       Insert 8; Insert 9; Remove 4; Remove 1; Remove 8] = (t, None) ∧
    assert_btree_properties t = true.
Proof.
  apply (tests_pass_after_calls 5); [lia | vm_compute; reflexivity].
Defined.

(** ** The traversal is the set of keys *)

Lemma sorted_ext (l1 l2 : list Z) :
  StronglySorted Z.lt l1 → StronglySorted Z.lt l2 →
  (∀ x, x ∈ l1 ↔ x ∈ l2) → l1 = l2.
Proof.
  revert l2. induction l1 as [| x l1 IH]; intros [| y l2] H1 H2 Hext.
  - done.
  - exfalso. eapply elem_of_nil, Hext, list_elem_of_here.
  - exfalso. eapply elem_of_nil, Hext, list_elem_of_here.
  - apply StronglySorted_cons in H1 as [Hx H1].
    apply StronglySorted_cons in H2 as [Hy H2].
    rewrite Forall_forall in Hx, Hy.
    assert (x = y) as <-.
    { pose proof (proj1 (Hext x) (list_elem_of_here _ _)) as Hxy.
      pose proof (proj2 (Hext y) (list_elem_of_here _ _)) as Hyx.
      apply elem_of_cons in Hxy as [-> | Hxy]; [done |].
      apply elem_of_cons in Hyx as [-> | Hyx]; [done |].
      specialize (Hx _ Hyx). specialize (Hy _ Hxy). lia. }
    f_equal. apply IH; [done | done |]. intros z. split; intros Hz.
    + pose proof (proj1 (Hext z) ltac:(apply elem_of_cons; by right)) as H.
      apply elem_of_cons in H as [-> | H]; [| done].
      specialize (Hx _ Hz). lia.
    + pose proof (proj2 (Hext z) ltac:(apply elem_of_cons; by right)) as H.
      apply elem_of_cons in H as [-> | H]; [| done].
      specialize (Hy _ Hz). lia.
Qed.

Lemma tree_keys_sorted t : btree_inv t → StronglySorted Z.lt (tree_keys t).
Proof.
  unfold btree_inv, tree_keys. destruct (root t); [by intros [_ ?] |].
  constructor.
Qed.

(** X15: the traversal after a valid sequence of calls depends on nothing
    but the set of keys it leaves: two such sequences that leave the same
    keys, in whatever order they insert and remove them and for whatever
    orders of the two trees, give the same traversal. *)
Theorem traversal_depends_on_keys_only M1 M2 ops1 ops2 :
  3 ≤ M1 → 3 ≤ M2 →
  valid_ops [] ops1 = true → valid_ops [] ops2 = true →
  (∀ x, x ∈ final_key_set ops1 ↔ x ∈ final_key_set ops2) →
  ∃ t1 t2 l,
    run (mkBTree M1 None) ops1 = (t1, None) ∧
    run (mkBTree M2 None) ops2 = (t2, None) ∧
    traverse_inorder t1 = Ok l ∧ traverse_inorder t2 = Ok l.
Proof.
  intros HM1 HM2 Hv1 Hv2 Hsame.
  destruct (run_inv ops1 (mkBTree M1 None) [] HM1 I ltac:(done) Hv1)
    as (t1 & Hrun1 & _ & Hinv1 & _ & Hkeys1).
  destruct (run_inv ops2 (mkBTree M2 None) [] HM2 I ltac:(done) Hv2)
    as (t2 & Hrun2 & _ & Hinv2 & _ & Hkeys2).
  exists t1, t2, (tree_keys t1).
  split; [done |]. split; [done |].
  split; [by apply traverse_inorder_inv |].
  rewrite (traverse_inorder_inv t2 Hinv2). f_equal.
  apply sorted_ext; [by apply tree_keys_sorted .. |].
  intros x. unfold final_key_set in Hsame. by rewrite Hkeys1, Hkeys2, Hsame.
Qed.

Lemma traversal_depends_on_keys_only_witness :
  ∃ t1 t2 l,
    run (mkBTree 3 None) [Insert 1; Insert 2; Insert 3; Insert 4; Insert 5]
    = (t1, None) ∧
    run (mkBTree 6 None)
      [Insert 5; Insert 9; Insert 3; Insert 1; Remove 9; Insert 4; Insert 2]
    = (t2, None) ∧
    traverse_inorder t1 = Ok l ∧ traverse_inorder t2 = Ok l.
Proof.
  apply traversal_depends_on_keys_only;
    [lia | lia | vm_compute; reflexivity | vm_compute; reflexivity |].
  intros x.
  assert (final_key_set [Insert 1; Insert 2; Insert 3; Insert 4; Insert 5]
          = [5; 4; 3; 2; 1]) as -> by (vm_compute; reflexivity).
  assert (final_key_set
            [Insert 5; Insert 9; Insert 3; Insert 1; Remove 9; Insert 4; Insert 2]
          = [2; 4; 1; 3; 5]) as -> by (vm_compute; reflexivity).
  rewrite !elem_of_cons, !elem_of_nil. tauto.
Defined.

(** X16: [insert] of a new key and then [remove] of it give back the
    traversal of the tree, though not always its shape. *)
Theorem insert_then_remove t key :
  btree_ok t = true → key ∉ tree_keys t →
  ∃ t1 t2,
    insert t (Some key) = (t1, None) ∧
    remove t1 (Some key) = (t2, None) ∧
    traverse_inorder t2 = traverse_inorder t.
Proof.
  intros [HM Hinv]%btree_ok_inv Hnot.
  destruct (insert_inv t key HM Hinv Hnot)
    as (t1 & Hins & Ho1 & Hinv1 & _ & Hk1).
  destruct (remove_inv t1 key ltac:(by rewrite Ho1) Hinv1
              ltac:(apply Hk1; by left))
    as (t2 & Hrem & _ & Hinv2 & _ & Hk2).
  exists t1, t2. split; [done |]. split; [done |].
  rewrite (traverse_inorder_inv t Hinv), (traverse_inorder_inv t2 Hinv2).
  f_equal. apply sorted_ext; [by apply tree_keys_sorted .. |].
  intros x. rewrite Hk2, Hk1. split; [tauto |].
  intros Hx. split; [by intros -> | by right].
Qed.

Lemma insert_then_remove_witness :
  ∃ t1 t2,
    insert (mkBTree 3 (Some (Node [2] [Node [1] []; Node [3; 4] []]))) (Some 5)
    = (t1, None) ∧
    remove t1 (Some 5) = (t2, None) ∧
    traverse_inorder t2
    = traverse_inorder (mkBTree 3 (Some (Node [2] [Node [1] []; Node [3; 4] []]))).
Proof.
  apply insert_then_remove.
  - vm_compute. reflexivity.
  - apply (bool_decide_unpack _). vm_compute. exact I.
Defined.

(** X17: [remove] of a key and then [insert] of it give back the traversal
    of the tree. *)
Theorem remove_then_insert t key :
  btree_ok t = true → key ∈ tree_keys t →
  ∃ t1 t2,
    remove t (Some key) = (t1, None) ∧
    insert t1 (Some key) = (t2, None) ∧
    traverse_inorder t2 = traverse_inorder t.
Proof.
  intros [HM Hinv]%btree_ok_inv Hin.
  destruct (remove_inv t key HM Hinv Hin)
    as (t1 & Hrem & Ho1 & Hinv1 & _ & Hk1).
  destruct (insert_inv t1 key ltac:(by rewrite Ho1) Hinv1
              ltac:(rewrite Hk1; tauto))
    as (t2 & Hins & _ & Hinv2 & _ & Hk2).
  exists t1, t2. split; [done |]. split; [done |].
  rewrite (traverse_inorder_inv t Hinv), (traverse_inorder_inv t2 Hinv2).
  f_equal. apply sorted_ext; [by apply tree_keys_sorted .. |].
  intros x. rewrite Hk2, Hk1. split; [intros [-> | [_ ?]]; done |].
  intros Hx. destruct (decide (x = key)); [by left | by right].
Qed.

Lemma remove_then_insert_witness :
  ∃ t1 t2,
    remove (mkBTree 3 (Some (Node [2] [Node [1] []; Node [3] []]))) (Some 1)
    = (t1, None) ∧
    insert t1 (Some 1) = (t2, None) ∧
    traverse_inorder t2
    = traverse_inorder (mkBTree 3 (Some (Node [2] [Node [1] []; Node [3] []]))).
Proof.
  apply remove_then_insert.
  - vm_compute. reflexivity.
  - apply (bool_decide_unpack _). vm_compute. exact I.
Defined.

(** ** Every stored key is yielded once *)

Lemma weave_perm subs :
  ∀ ks, subs = [] ∨ length subs = S (length ks) →
        weave ks subs ≡ₚ ks ++ concat subs.
Proof.
  induction subs as [| s subs IH]; intros ks H.
  - cbn. by rewrite app_nil_r.
  - destruct H as [H | Hlen]; [done |]. cbn [length] in Hlen.
    destruct ks as [| k ks]; cbn [weave concat app].
    + destruct subs; [| done]. cbn. by rewrite !app_nil_r.
    + rewrite IH by (right; cbn [length] in Hlen; lia).
      rewrite <- Permutation_middle. constructor.
      rewrite !app_assoc. f_equiv. apply Permutation_app_comm.
Qed.

Lemma concat_map_perm {A} (f g : A → list Z) l :
  Forall (λ x, f x ≡ₚ g x) l → concat (map f l) ≡ₚ concat (map g l).
Proof.
  induction 1 as [| x l Hx _ IH]; [done |]. cbn [map concat].
  by rewrite Hx, IH.
Qed.

Lemma wf_all_keys m h : ∀ lo n, wf m lo h n → inorder n ≡ₚ all_keys n.
Proof.
  induction h as [| h IH]; intros lo [ks cs] Hwf.
  - apply wf_leaf_iff in Hwf as [_ ->]. cbn. by rewrite app_nil_r.
  - apply wf_internal_iff in Hwf as (_ & Hlen & Hall).
    cbn [keys children] in Hlen, Hall. cbn [inorder all_keys].
    rewrite weave_perm by (right; by rewrite length_map).
    f_equiv. apply concat_map_perm.
    eapply Forall_impl; [exact Hall |]. intros c Hc. by eapply IH.
Qed.

(** X18: the traversal of a balanced tree yields every key stored in a
    node of the tree, each as often as it is stored; the keys need not be
    in order. *)
Theorem traverse_inorder_complete t :
  tree_balanced t = true →
  ∃ l, traverse_inorder t = Ok l ∧ l ≡ₚ tree_all_keys t.
Proof.
  intros Hb. unfold traverse_inorder, tree_all_keys.
  destruct (root t) as [r |] eqn:Hr; [| by exists []].
  destruct (tree_balanced_wf t r Hb Hr) as [_ Hwf].
  exists (inorder r). split; [by eapply node_traverse_inorder_wf |].
  by eapply wf_all_keys.
Qed.

Lemma traverse_inorder_complete_witness :
  ∃ l,
    traverse_inorder (mkBTree 3 (Some (Node [5] [Node [9] []; Node [2; 2] []])))
    = Ok l ∧
    l ≡ₚ tree_all_keys (mkBTree 3 (Some (Node [5] [Node [9] []; Node [2; 2] []]))).
Proof. apply traverse_inorder_complete. vm_compute. reflexivity. Defined.

(** ** Search *)

(** What [search] can return from a node, whatever the tree looks like. *)
Lemma node_search_sound target n :
  match node_search target n with
  | Ok (Some found) => target ∈ keys found ∧ found ∈ nodes n
  | Ok None => False
  | Raise e => e = IndexError
  end.
Proof.
  induction n as [ks cs IH] using BTreeNode_ind.
  assert (match
            match map (node_search target) cs !! scan target ks with
            | Some r => r
            | None => Raise IndexError
            end
          with
          | Ok (Some found) => target ∈ keys found ∧ found ∈ nodes (Node ks cs)
          | Ok None => False
          | Raise e => e = IndexError
          end) as Hdown.
  { rewrite list_lookup_fmap.
    destruct (cs !! scan target ks) as [c |] eqn:Hc;
      cbn [fmap option_fmap option_map]; [| done].
    pose proof (proj1 (Forall_lookup _ _) IH _ _ Hc) as IHc. cbn beta in IHc.
    destruct (node_search target c) as [[found |] | e]; [| done | done].
    destruct IHc as [Hk Hn]. split; [done |].
    cbn [nodes]. apply elem_of_cons. right.
    eapply elem_of_concat_map; [| exact Hn]. by eapply list_elem_of_lookup_2. }
  cbn [node_search].
  destruct (ks !! scan target ks) as [k |] eqn:Hk; [| exact Hdown].
  destruct (Z.eqb_spec target k) as [-> | Hne]; [| exact Hdown].
  split; [by eapply list_elem_of_lookup_2 |].
  cbn [nodes]. apply list_elem_of_here.
Qed.

(** X19: on a tree that has a root, whatever its shape and the order of its
    keys, [search] never returns the not-found result [None]: it returns a
    node of the tree that holds the key, or raises IndexError.  The last
    line of the method, [return None], is reached only without a root. *)
Theorem search_never_not_found t r target :
  root t = Some r →
  match search t (Some target) with
  | Ok (Some found) => target ∈ keys found ∧ found ∈ tree_nodes t
  | Ok None => False
  | Raise e => e = IndexError
  end.
Proof.
  intros Hr. unfold search, tree_nodes. rewrite Hr.
  apply node_search_sound.
Qed.

Lemma search_never_not_found_witness :
  match search (mkBTree 3 (Some (Node [5; 1] [Node [7] []]))) (Some 7) with
  | Ok (Some found) =>
      7 ∈ keys found ∧
      found ∈ tree_nodes (mkBTree 3 (Some (Node [5; 1] [Node [7] []])))
  | Ok None => False
  | Raise e => e = IndexError
  end.
Proof.
  apply (search_never_not_found _ (Node [5; 1] [Node [7] []])). reflexivity.
Defined.

Lemma search_finds t key :
  3 ≤ order t → btree_inv t → key ∈ tree_keys t →
  ∃ found, search t (Some key) = Ok (Some found) ∧
           key ∈ keys found ∧ found ∈ tree_nodes t.
Proof.
  intros HM Hinv Hin. unfold btree_inv, tree_keys, search, tree_nodes in *.
  destruct (root t) as [r |]; [| by apply elem_of_nil in Hin].
  destruct Hinv as [[h Hwf] Hs].
  by eapply node_search_present.
Qed.

(** X20: after [insert] of a new key into a well-formed tree, [search]
    finds it, and still finds every key that was there. *)
Theorem insert_then_search t key x :
  btree_ok t = true → key ∉ tree_keys t → x = key ∨ x ∈ tree_keys t →
  ∃ t' found,
    insert t (Some key) = (t', None) ∧
    search t' (Some x) = Ok (Some found) ∧
    x ∈ keys found ∧ found ∈ tree_nodes t'.
Proof.
  intros [HM Hinv]%btree_ok_inv Hnot Hx.
  destruct (insert_inv t key HM Hinv Hnot)
    as (t' & Hins & Ho & Hinv' & _ & Hk).
  destruct (search_finds t' x ltac:(by rewrite Ho) Hinv' ltac:(by apply Hk))
    as (found & Hfound).
  by exists t', found.
Qed.

Lemma insert_then_search_witness :
  ∃ t' found,
    insert (mkBTree 3 (Some (Node [2] [Node [1] []; Node [3; 4] []]))) (Some 5)
    = (t', None) ∧
    search t' (Some 5) = Ok (Some found) ∧
    5 ∈ keys found ∧ found ∈ tree_nodes t'.
Proof.
  apply insert_then_search.
  - vm_compute. reflexivity.
  - apply (bool_decide_unpack _). vm_compute. exact I.
  - left. reflexivity.
Defined.

(** X21: after [remove] of a key of a well-formed tree, [search] for that
    key raises IndexError, and it still finds every other key of the
    tree. *)
Theorem remove_then_search t key :
  btree_ok t = true → key ∈ tree_keys t →
  ∃ t',
    remove t (Some key) = (t', None) ∧
    search t' (Some key) = Raise IndexError ∧
    ∀ x, x ∈ tree_keys t → x ≠ key →
         ∃ found, search t' (Some x) = Ok (Some found) ∧ x ∈ keys found.
Proof.
  intros Hok Hin. pose proof Hok as [HM Hinv]%btree_ok_inv.
  destruct (remove_inv t key HM Hinv Hin)
    as (t' & Hrem & Ho & Hinv' & [r' Hr'] & Hk).
  exists t'. split; [done |]. split.
  - assert (key ∉ tree_keys t') as Hnot by (rewrite Hk; tauto).
    unfold search, tree_keys, btree_inv in *. rewrite Hr' in *.
    destruct Hinv' as [[h' Hwf'] _].
    apply node_search_absent.
    by rewrite <- (wf_all_keys _ _ _ _ Hwf').
  - intros x Hx Hne.
    destruct (search_finds t' x ltac:(by rewrite Ho) Hinv'
                ltac:(by apply Hk))
      as (found & Hs & Hkf & _).
    by exists found.
Qed.

Lemma remove_then_search_witness :
  ∃ t',
    remove (mkBTree 3 (Some (Node [2] [Node [1] []; Node [3] []]))) (Some 1)
    = (t', None) ∧
    search t' (Some 1) = Raise IndexError ∧
    ∀ x, x ∈ tree_keys (mkBTree 3 (Some (Node [2] [Node [1] []; Node [3] []]))) →
         x ≠ 1 →
         ∃ found, search t' (Some x) = Ok (Some found) ∧ x ∈ keys found.
Proof.
  apply remove_then_search.
  - vm_compute. reflexivity.
  - apply (bool_decide_unpack _). vm_compute. exact I.
Defined.

(** ** The height is logarithmic in the number of keys *)

Lemma inorder_length m lo h ks cs :
  wf m lo h (Node ks cs) →
  length (inorder (Node ks cs))
  = (length ks + length (concat (map inorder cs)))%nat.
Proof.
  intros Hwf. cbn [inorder].
  rewrite (Permutation_length (weave_perm (map inorder cs) ks ltac:(
    destruct h;
    [apply wf_leaf_iff in Hwf as [_ ->]; by left
    | apply wf_internal_iff in Hwf as (_ & Hlen & _);
      cbn [keys children] in Hlen; right; by rewrite length_map]))).
  by rewrite length_app.
Qed.

Lemma concat_length_ge (P : nat) cs :
  Forall (λ c, (P ≤ S (length (inorder c)))%nat) cs →
  (length cs * P ≤ length (concat (map inorder cs)) + length cs)%nat.
Proof.
  induction 1 as [| c cs Hc _ IH]; [done |].
  cbn [map concat length]. rewrite length_app. lia.
Qed.

(** A subtree of height [h] below the root holds at least
    [(m + 1) ^ (h + 1) - 1] keys. *)
Lemma wf_size m h :
  ∀ n, wf m m h n → (S m ^ S h ≤ S (length (inorder n)))%nat.
Proof.
  induction h as [| h IH]; intros [ks cs] Hwf.
  - apply wf_leaf_iff in Hwf as [Hlo ->]. cbn [inorder map weave].
    rewrite Nat.pow_1_r. lia.
  - rewrite (inorder_length _ _ _ _ _ Hwf).
    apply wf_internal_iff in Hwf as (Hlo & Hlen & Hall).
    cbn [keys children] in Hlo, Hlen, Hall.
    pose proof (concat_length_ge (S m ^ S h) cs
                  ltac:(eapply Forall_impl; [exact Hall | apply IH])) as Hsum.
    rewrite (Nat.pow_succ_r' _ (S h)).
    assert (S m * S m ^ S h ≤ length cs * S m ^ S h)%nat
      by (apply Nat.mul_le_mono_r; lia).
    lia.
Qed.

Lemma wf_root_size m h r :
  wf_root m h r → (S m ^ h ≤ S (length (inorder r)))%nat.
Proof.
  destruct h as [| h]; intros Hwf; [cbn; lia |].
  destruct r as [ks cs]. unfold wf_root in Hwf.
  rewrite (inorder_length _ _ _ _ _ Hwf).
  apply wf_internal_iff in Hwf as (Hlo & Hlen & Hall).
  cbn [keys children] in Hlo, Hlen, Hall.
  pose proof (concat_length_ge (S m ^ S h) cs
                ltac:(eapply Forall_impl; [exact Hall | apply wf_size])) as Hsum.
  assert (1 * S m ^ S h ≤ length cs * S m ^ S h)%nat
    by (apply Nat.mul_le_mono_r; lia).
  lia.
Qed.

(** X22: in a balanced tree the height is logarithmic in the number of
    keys: with [m = (order - 1) // 2] the least number of keys of a node
    below the root, [(m + 1) ^ height] is at most the number of keys the
    traversal yields plus one. *)
Theorem height_logarithmic t :
  tree_balanced t = true →
  ∃ l,
    traverse_inorder t = Ok l ∧
    ((order t - 1) / 2 + 1) ^ Z.of_nat (tree_height t)
    ≤ Z.of_nat (length l) + 1.
Proof.
  intros Hb. unfold traverse_inorder, tree_height.
  destruct (root t) as [r |] eqn:Hr.
  2: { exists []. split; [done |]. change (Z.of_nat 0) with 0.
       rewrite Z.pow_0_r. cbn [length]. lia. }
  destruct (tree_balanced_wf t r Hb Hr) as [HM Hwf].
  destruct (min_keys_spec _ HM) as (Hmid & _ & _).
  exists (inorder r). split; [by eapply node_traverse_inorder_wf |].
  pose proof (wf_root_size _ _ _ Hwf) as Hsize.
  rewrite Hmid.
  replace (Z.of_nat (min_keys (order t)) + 1)
    with (Z.of_nat (S (min_keys (order t)))) by lia.
  rewrite <- Nat2Z.inj_pow. lia.
Qed.

Lemma height_logarithmic_witness :
  ∃ l,
    traverse_inorder
      (mkBTree 3 (Some (Node [4] [Node [2] [Node [1] []; Node [3] []];
                                  Node [6] [Node [5] []; Node [7] []]])))
    = Ok l ∧
    ((order (mkBTree 3 (Some (Node [4] [Node [2] [Node [1] []; Node [3] []];
                                        Node [6] [Node [5] []; Node [7] []]])))
      - 1) / 2 + 1)
    ^ Z.of_nat
        (tree_height
           (mkBTree 3 (Some (Node [4] [Node [2] [Node [1] []; Node [3] []];
                                       Node [6] [Node [5] []; Node [7] []]]))))
    ≤ Z.of_nat (length l) + 1.
Proof. apply height_logarithmic. vm_compute. reflexivity. Defined.

(** ** What the structural assertions of the tests decide *)

Lemma count_inv M ks cs :
  assert_count_keys_and_children M (Node ks cs) = true →
  Z.of_nat (length ks) < M ∧
  (cs = [] ∨ length cs = S (length ks)) ∧
  Forall (λ c, assert_count_keys_and_children M c = true) cs.
Proof.
  cbn [assert_count_keys_and_children]. rewrite !andb_true_iff.
  intros [[[Hk%Z.ltb_lt _] Hshape] Hall]. split; [done |]. split.
  - destruct cs; [by left |]. apply Z.eqb_eq in Hshape. right. lia.
  - apply Forall_forall. intros c Hc. rewrite forallb_forall in Hall.
    by apply Hall, list_elem_of_In.
Qed.

Lemma count_capped M n :
  1 ≤ M → assert_count_keys_and_children M n = true →
  capped (max_keys M) n = true.
Proof.
  intros HM. induction n as [ks cs IH] using BTreeNode_ind.
  intros (Hk & _ & Hall)%count_inv. apply capped_iff.
  split; [unfold max_keys; lia |].
  rewrite Forall_forall in *. intros c Hc. by apply IH, Hall.
Qed.

Lemma visit_leaf_wf M n :
  ∀ d target,
    assert_count_keys_and_children M n = true →
    visit_leaf_and_assert_depth n d target = true →
    ∃ h, target = (d + h)%nat ∧ wf 0 0 h n.
Proof.
  induction n as [ks cs IH] using BTreeNode_ind.
  intros d target (_ & Hshape & Hcount)%count_inv Hvisit.
  destruct cs as [| c cs'].
  - cbn [visit_leaf_and_assert_depth] in Hvisit. apply Nat.eqb_eq in Hvisit.
    exists 0%nat. split; [lia |]. apply wf_leaf_iff. split; [lia | done].
  - destruct Hshape as [? | Hlen]; [done |].
    cbn [visit_leaf_and_assert_depth] in Hvisit.
    rewrite forallb_forall in Hvisit.
    assert (∀ x, x ∈ c :: cs' → ∃ h, target = (S d + h)%nat ∧ wf 0 0 h x)
      as Hchildren.
    { intros x Hx. rewrite Forall_forall in IH, Hcount.
      apply (IH x Hx); [by apply Hcount |]. by apply Hvisit, list_elem_of_In. }
    destruct (Hchildren c (list_elem_of_here _ _)) as (hc & Htarget & _).
    exists (S hc). split; [lia |]. apply wf_internal_iff.
    split; [lia |]. split; [done |].
    apply Forall_forall. intros x Hx.
    destruct (Hchildren x Hx) as (hx & Htarget' & Hwf).
    by replace hc with hx by lia.
Qed.

(** X23: the two structural assertions of the tests,
    [assert_count_keys_and_children] and [assert_leaves_level_equal],
    return on a tree exactly when every internal node has one more child
    than keys, all leaves are at one depth, and no node has more than
    [order - 1] keys.  They put no lower bound on the number of keys of a
    node: minimum occupancy is not among the properties the tests check. *)
Theorem structure_assertions_iff M r :
  1 ≤ M →
  assert_count_keys_and_children M r && assert_leaves_level_equal r = true ↔
  (∃ h, wf 0 0 h r) ∧ capped (max_keys M) r = true.
Proof.
  intros HM. rewrite andb_true_iff. split.
  - intros [Hcount Hleaves]. split; [| by apply count_capped].
    destruct (visit_leaf_wf M r 0 (height r) Hcount Hleaves) as (h & _ & Hwf).
    by exists h.
  - intros [[h Hwf] Hc]. split; [by eapply count_ok |].
    unfold assert_leaves_level_equal. rewrite (wf_height _ _ _ _ Hwf).
    by apply (visit_leaf_depth _ _ _ r 0%nat Hwf).
Qed.

Lemma structure_assertions_iff_witness :
  assert_count_keys_and_children 5 (Node [7] [Node [] []; Node [8; 9] []])
  && assert_leaves_level_equal (Node [7] [Node [] []; Node [8; 9] []]) = true ↔
  (∃ h, wf 0 0 h (Node [7] [Node [] []; Node [8; 9] []])) ∧
  capped (max_keys 5) (Node [7] [Node [] []; Node [8; 9] []]) = true.
Proof. apply structure_assertions_iff. lia. Defined.

(** ** Trees of the data model: more children than keys in internal nodes *)

Lemma shaped_iff ks cs :
  shaped (Node ks cs) = true ↔
  (cs = [] ∨ (length ks < length cs)%nat) ∧
  Forall (λ c, shaped c = true) cs.
Proof.
  cbn [shaped]. rewrite andb_true_iff, forallb_forall, Forall_forall.
  split.
  - intros [Hlen H]. split.
    + destruct cs; [by left | right; by apply Nat.ltb_lt].
    + intros c Hc. by apply H, list_elem_of_In.
  - intros [Hlen H]. split.
    + destruct cs; [done |]. destruct Hlen as [? | Hlen]; [done |].
      by apply Nat.ltb_lt.
    + intros c Hc. by apply H, list_elem_of_In.
Qed.

Lemma slot_shaped p i x :
  frame_shaped (p, i) → shaped x = true →
  Forall (λ c, shaped c = true) (<[i := x]> (children p)).
Proof.
  intros (_ & _ & H) Hx. apply Forall_lookup. intros j c Hc.
  apply list_lookup_insert_Some in Hc as [(-> & <- & _) | [Hne Hc]]; [done |].
  eapply H; [| exact Hc]. cbn [snd]. congruence.
Qed.

Lemma plug1_shaped f c :
  frame_shaped f → shaped c = true → shaped (plug1 c f) = true.
Proof.
  destruct f as [p i]. intros Hf Hc. unfold plug1. cbn [fst snd].
  apply shaped_iff. split; [| by apply slot_shaped].
  right. rewrite length_insert. by destruct Hf as (_ & ? & _).
Qed.

Lemma plug_shaped above c :
  Forall frame_shaped above → shaped c = true → shaped (plug above c) = true.
Proof.
  revert c. induction above as [| f above IH]; intros c Hf Hc; [done |].
  apply Forall_cons in Hf as [Hf Ha]. cbn [plug fold_left].
  apply IH; [done |]. by apply plug1_shaped.
Qed.

(** The descent of [insert] reads no child that is not there. *)
Lemma insert_descend_shaped key n :
  shaped n = true →
  ∃ leaf above,
    insert_descend key n = Ok (rev above ++ [(leaf, scan key (keys leaf))]) ∧
    children leaf = [] ∧ shaped leaf = true ∧
    Forall frame_shaped above.
Proof.
  induction n as [ks cs IH] using BTreeNode_ind. intros Hn.
  pose proof Hn as [Hlen Hall]%shaped_iff.
  destruct cs as [| c0 cs'].
  - exists (Node ks []), []. done.
  - destruct Hlen as [? | Hlen]; [done |].
    pose proof (scan_le key ks) as Hscan.
    destruct (lookup_lt_is_Some_2 (c0 :: cs') (scan key ks)) as [c Hc]; [lia |].
    pose proof (proj1 (Forall_lookup _ _) IH _ _ Hc
                  (proj1 (Forall_lookup _ _) Hall _ _ Hc))
      as (leaf & above & Hd & Hleaf & Hsl & Hf).
    exists leaf, (above ++ [(Node ks (c0 :: cs'), scan key ks)]).
    split_and!; [| done | done |].
    + cbn [insert_descend]. rewrite list_lookup_fmap, Hc.
      cbn [fmap option_fmap option_map]. rewrite Hd.
      by rewrite rev_app_distr.
    + apply Forall_app. split; [done |]. apply Forall_cons. split; [| done].
      split_and!; cbn [fst snd keys children]; [lia | done |].
      intros j x _ Hx. by eapply (proj1 (Forall_lookup _ _) Hall).
Qed.

Lemma split_shaped mid ks cs :
  (mid < length ks)%nat → shaped (Node ks cs) = true →
  shaped (Node (take mid ks) (take (S mid) cs)) = true ∧
  shaped (Node (drop (S mid) ks) (drop (S mid) cs)) = true.
Proof.
  intros Hmid [Hlen Hall]%shaped_iff. split; apply shaped_iff.
  - split; [| by apply Forall_take].
    destruct Hlen as [-> | Hlen]; [by left | right].
    rewrite !length_take. lia.
  - split; [| by apply Forall_drop].
    destruct Hlen as [-> | Hlen]; [by left | right].
    rewrite !length_drop. lia.
Qed.

(** [_fix_insert] reads no key and no child that is not there, for an
    order of at least 1. *)
Lemma fix_insert_loop_shaped order :
  1 ≤ order →
  ∀ above curr,
    Forall frame_shaped above → shaped curr = true →
    ∃ r, fix_insert_loop order curr above = (r, None) ∧ shaped r = true.
Proof.
  intros HM.
  assert (0 ≤ (order - 1) / 2) as Hmid0 by (apply Z.div_pos; lia).
  assert ((order - 1) / 2 ≤ order - 1) as Hmid1
    by (apply Z.div_le_upper_bound; lia).
  assert ((order - 1) / 2 = Z.of_nat (min_keys order)) as Hmid
    by (unfold min_keys; lia).
  set (m := min_keys order) in *.
  induction above as [| [p i] rest IH]; intros [ks cs] Hf Hc;
    cbn [fix_insert_loop keys children].
  - destruct (Z.leb_spec (Z.of_nat (length ks)) (order - 1)) as [Hle | Hgt].
    + by exists (Node ks cs).
    + destruct (lookup_lt_is_Some_2 ks m) as [k Hk]; [lia |].
      rewrite Hmid, Py_get_nat, Hk.
      rewrite !Py_slice_to_nat.
      replace (Z.of_nat m + 1) with (Z.of_nat (S m)) by lia.
      rewrite !Py_slice_to_nat, !Py_slice_from_nat.
      destruct (split_shaped m ks cs ltac:(lia) Hc) as [Hl Hr].
      eexists. split; [reflexivity |]. apply shaped_iff.
      split; [right; cbn [length]; lia |]. by repeat constructor.
  - destruct (Z.leb_spec (Z.of_nat (length ks)) (order - 1)) as [Hle | Hgt].
    + eexists. split; [reflexivity |].
      by apply (plug_shaped ((p, i) :: rest)).
    + destruct (lookup_lt_is_Some_2 ks m) as [k Hk]; [lia |].
      rewrite Hmid, Py_get_nat, Hk.
      rewrite !Py_slice_to_nat.
      replace (Z.of_nat m + 1) with (Z.of_nat (S m)) by lia.
      rewrite !Py_slice_to_nat, !Py_slice_from_nat.
      destruct (split_shaped m ks cs ltac:(lia) Hc) as [Hl Hr].
      apply Forall_cons in Hf as [Hp Hrest].
      pose proof Hp as (Hi & Hplen & _). cbn [fst snd] in Hi, Hplen.
      destruct (Nat.ltb_spec i (length (children p))); [| lia].
      apply IH; [done |]. apply shaped_iff. split.
      * right. rewrite !Py_insert_length, length_insert. lia.
      * unfold Py.insert.
        pose proof (slot_shaped p i _ Hp Hl) as Hall.
        apply Forall_app. split; [by apply Forall_take |].
        apply Forall_cons. split; [done | by apply Forall_drop].
Qed.

(** X24: [insert] never raises on a tree of the data model, for every order
    of at least 1: when every internal node has more children than keys, the
    call returns, whatever the balance of the tree, the number and the order
    of its keys, and whether or not the key is already there; and the tree
    it leaves is of that kind again. *)
Theorem insert_never_raises t key :
  1 ≤ order t → tree_shaped t = true →
  ∃ t', insert t (Some key) = (t', None) ∧ tree_shaped t' = true.
Proof.
  intros HM Hs. unfold insert, tree_shaped in *.
  destruct (root t) as [r |]; [| by eexists].
  destruct (insert_descend_shaped key r Hs)
    as (leaf & above & Hd & Hleaf & Hsl & Hf).
  rewrite Hd, rev_app_distr, rev_involutive. cbn [rev app].
  unfold _fix_insert. rewrite rev_app_distr, rev_involutive. cbn [rev app].
  destruct (fix_insert_loop_shaped (order t) HM above
              (insert_key (scan key (keys leaf)) key leaf) Hf)
    as (r' & Hloop & Hr').
  { destruct leaf as [lk lc]. cbn [children] in Hleaf. subst lc.
    unfold insert_key. cbn [keys children]. apply shaped_iff. by split; [left |]. }
  rewrite Hloop. by eexists.
Qed.

Lemma insert_never_raises_witness :
  ∃ t',
    insert (mkBTree 2 (Some (Node [5; 1] [Node [9; 9; 9] []; Node [] [];
                                          Node [0] [Node [] []; Node [3] []]])))
      (Some 4) = (t', None) ∧
    tree_shaped t' = true.
Proof. apply insert_never_raises; [cbn; lia | reflexivity]. Defined.

Lemma visit_total subs :
  Forall (λ r, ∃ l : list Z, r = Ok l) subs →
  ∀ ks i, subs = [] ∨ (i + length ks < length subs)%nat →
          ∃ l, visit subs i ks = Ok l.
Proof.
  intros Hall. induction ks as [| c ks IH]; intros i Hi; cbn [visit].
  - destruct subs as [| s subs'] eqn:E; [by eexists |]. rewrite <- E in *.
    destruct (last subs) as [r |] eqn:Hlast.
    + apply last_Some in Hlast as [l' ->].
      by apply Forall_app in Hall as [_ [? _]%Forall_cons].
    + apply last_None in Hlast. congruence.
  - destruct subs as [| s subs'] eqn:E.
    + destruct (IH (S i)) as [l ->]; [by left | by eexists].
    + rewrite <- E in *. destruct Hi as [? | Hi]; [congruence |].
      cbn [length] in Hi.
      destruct (lookup_lt_is_Some_2 subs i) as [r Hr]; [lia |].
      rewrite Hr.
      destruct (proj1 (Forall_lookup _ _) Hall _ _ Hr) as [l1 ->].
      destruct (IH (S i)) as [l2 ->]; [right; lia | by eexists].
Qed.

Lemma node_traverse_inorder_shaped n :
  shaped n = true → ∃ l, node_traverse_inorder n = Ok l.
Proof.
  induction n as [ks cs IH] using BTreeNode_ind.
  intros [Hlen Hall]%shaped_iff. cbn [node_traverse_inorder].
  apply visit_total.
  - apply Forall_fmap. rewrite Forall_forall in *.
    intros c Hc. by apply IH, Hall.
  - destruct Hlen as [-> | Hlen]; [by left | right].
    rewrite length_map. lia.
Qed.

(** X25: the traversal never raises on a tree of the data model: when every
    internal node has more children than keys, every child the generator
    reads is there. *)
Theorem traverse_inorder_total t :
  tree_shaped t = true → ∃ l, traverse_inorder t = Ok l.
Proof.
  unfold tree_shaped, traverse_inorder.
  destruct (root t) as [r |]; [apply node_traverse_inorder_shaped | by eexists].
Qed.

Lemma traverse_inorder_total_witness :
  ∃ l,
    traverse_inorder
      (mkBTree 2 (Some (Node [5; 1] [Node [9; 9; 9] []; Node [] [];
                                     Node [0] [Node [] []; Node [3] []]])))
    = Ok l.
Proof. apply traverse_inorder_total. reflexivity. Defined.

(** ** The redistribution between two siblings *)

(** X26: the redistribution of [_fix_remove] between two siblings and their
    separator loses and reorders nothing: the keys of the new left node, the
    new separator and the keys of the new right node are, in this order, the
    keys of the left node, the separator and the keys of the right node, and
    likewise the children; and it evens the two nodes out, the left one
    ending with as many keys as the right one or one more. *)
Theorem redistribute_even l sep r :
  keys (redistribute l sep r).1.1
    ++ (redistribute l sep r).1.2 :: keys (redistribute l sep r).2
  = keys l ++ sep :: keys r ∧
  children (redistribute l sep r).1.1 ++ children (redistribute l sep r).2
  = children l ++ children r ∧
  (length (keys (redistribute l sep r).2)
   ≤ length (keys (redistribute l sep r).1.1)
   ≤ S (length (keys (redistribute l sep r).2)))%nat.
Proof.
  unfold redistribute. cbn [fst snd keys children].
  set (mk := keys l ++ [sep] ++ keys r).
  set (mc := children l ++ children r).
  set (mid := (length mk / 2)%nat).
  assert (length mk = S (length (keys l) + length (keys r))) as Hmk
    by (unfold mk; rewrite !length_app; cbn [length]; lia).
  pose proof (Nat.div_mod_eq (length mk) 2) as Hdm.
  pose proof (Nat.mod_upper_bound (length mk) 2 ltac:(lia)) as Hmod.
  fold mid in Hdm.
  destruct (lookup_lt_is_Some_2 mk mid ltac:(lia)) as [k Hk].
  rewrite (nth_lookup_Some _ _ _ _ Hk).
  split_and!.
  - by rewrite (take_drop_middle mk mid k Hk).
  - apply take_drop.
  - rewrite length_drop, length_take. lia.
  - rewrite length_drop, length_take. lia.
Qed.

(** ** Off the invariant: a node that is an only child *)

(** X27: when the node [_fix_remove] starts at underflows and is the only
    child of its parent, the call raises UnboundLocalError: the node has
    neither a left nor a right sibling, and the merge reads the variable
    [left_sibling] that no line has assigned.  The tree it leaves is the
    one [remove] had already written the deletion to. *)
Theorem fix_remove_lone_child t curr p x above :
  children p = [x] →
  Z.of_nat (length (keys curr)) < (order t - 1) / 2 →
  _fix_remove t curr ((p, 0%nat) :: above)
  = (mkBTree (order t) (Some (plug ((p, 0%nat) :: above) curr)),
     Some UnboundLocalError).
Proof.
  intros Hp Hunder. unfold _fix_remove. cbn [fix_remove_loop].
  unfold _is_node_underflowing.
  destruct (Z.ltb_spec (Z.of_nat (length (keys curr))) ((order t - 1) / 2));
    [| lia].
  cbn [negb]. unfold fix_remove_step, right_step, merge_step.
  rewrite Hp. reflexivity.
Qed.

Lemma fix_remove_lone_child_witness :
  _fix_remove (mkBTree 3 None) (Node [] []) [(Node [] [Node [7] []], 0%nat)]
  = (mkBTree (order (mkBTree 3 None))
       (Some (plug [(Node [] [Node [7] []], 0%nat)] (Node [] []))),
     Some UnboundLocalError).
Proof.
  apply (fix_remove_lone_child (mkBTree 3 None) _ _ (Node [7] []));
    [reflexivity | vm_compute; reflexivity].
Defined.

(** ** A tree that had a root keeps one *)

Lemma wf_root_empty m h r : wf_root m h r → inorder r = [] → r = Node [] [].
Proof.
  destruct r as [ks cs]. intros Hwf Hin.
  pose proof (keys_sublist ks cs) as Hsub. rewrite Hin in Hsub.
  apply sublist_nil_r in Hsub as ->.
  destruct h as [| h].
  - by apply wf_leaf_iff in Hwf as [_ ->].
  - apply wf_internal_iff in Hwf as [Hlo _]. cbn in Hlo. lia.
Qed.

(** X28: a tree never goes back to having no root: after a sequence of at
    least one call, each an insertion of a new key or a removal of a present
    one, that leaves no key, the root is a node with no keys and no
    children. *)
Theorem emptied_tree_keeps_root M o ops :
  3 ≤ M → valid_ops [] (o :: ops) = true → final_key_set (o :: ops) = [] →
  ∃ t,
    run (mkBTree M None) (o :: ops) = (t, None) ∧
    root t = Some (Node [] []).
Proof.
  intros HM Hvalid Hnone.
  destruct (run_inv (o :: ops) (mkBTree M None) [] HM I ltac:(done) Hvalid)
    as (t & Hrun & _ & Hinv & Hroot & Hkeys).
  exists t. split; [done |].
  destruct (Hroot ltac:(done)) as [r Hr].
  unfold btree_inv, tree_keys, final_key_set in *. rewrite Hr in *.
  destruct Hinv as [[h Hwf] _]. f_equal.
  apply (wf_root_empty _ _ _ Hwf).
  destruct (inorder r) as [| y l]; [done |].
  exfalso. eapply elem_of_nil. rewrite <- Hnone. apply Hkeys.
  apply list_elem_of_here.
Qed.

Lemma emptied_tree_keeps_root_witness :
  ∃ t,
    run (mkBTree 3 None)
      [Insert 1; Insert 2; Insert 3; Insert 4; Remove 2; Remove 4; Remove 1;
       Remove 3] = (t, None) ∧
    root t = Some (Node [] []).
Proof.
  apply (emptied_tree_keeps_root 3);
    [lia | vm_compute; reflexivity | vm_compute; reflexivity].
Defined.
